(** * Growth-8020/free-scripts: aggregation, ordering and notification
      behaviour of the Google Ads reporting scripts

    The development embeds three scripts of the repository:
    - [Daily]      daily-email-country-performance.js
    - [Dashboard]  performance-dashboard-exporter.js (country tab, completion mail)
    - [NewQueries] the new-search-queries script

    Conventions of the embedding.
    - A JavaScript number is a value of [JS.num]: a rational, NaN or one of
      the two infinities.  The operations of [JS] are the exact ones; those of
      [F64] follow each of them by the rounding of the binary64 format, with
      its overflow to an infinity (the sign of zero is not modelled).
      [Daily], [Dashboard] and [NewQueries] embed the scripts with the exact
      operations, for the properties of their control flow, of the order of
      the rows they write and of their mails; [Daily64], [Dashboard64] and
      [NewQueries64] embed the aggregations with the operations of [F64],
      for the properties of the sums.
    - A report cell is an [option string]: [None] is a cell the row does not
      carry (JavaScript [undefined]).
    - Strings are sequences of 8-bit characters; the built-ins that depend on
      Unicode tables ([toLowerCase], white space) act on the ASCII range.
      [NewQueries64] takes the lower-casing of the host as a parameter.
    - [Array.prototype.sort] is required to be stable; for a comparator that
      is a consistent ordering every conforming engine returns the list that
      [JS.sort] returns. *)

From Stdlib Require Import Ascii QArith Qcanon.
From Stdlib Require OrderedTypeEx.
From stdpp Require Import base list strings gmap numbers sorting pretty.

(** ** The JavaScript values and built-ins the scripts use *)

Module JS.

(** *** Numbers *)

Inductive num : Type :=
  | Fin (q : Qc)
  | NaN
  | PInf
  | NInf.

#[global] Instance num_eq_dec : EqDecision num.
Proof. solve_decision. Defined.

Definition zero : num := Fin 0%Qc.
Definition of_Z (z : Z) : num := Fin (Qc_of_Z z).

Definition Qc_ltb (a b : Qc) : bool :=
  match (a ?= b)%Qc with Lt => true | _ => false end.

(** [x + y] *)
Definition add (x y : num) : num :=
  match x, y with
  | NaN, _ | _, NaN => NaN
  | Fin a, Fin b => Fin (a + b)%Qc
  | PInf, NInf | NInf, PInf => NaN
  | PInf, _ | _, PInf => PInf
  | NInf, _ | _, NInf => NInf
  end.

Definition neg (x : num) : num :=
  match x with
  | Fin a => Fin (- a)%Qc
  | NaN => NaN
  | PInf => NInf
  | NInf => PInf
  end.

(** [x - y] *)
Definition sub (x y : num) : num := add x (neg y).

(** [x > y]: false as soon as one side is NaN *)
Definition gt (x y : num) : bool :=
  match x, y with
  | NaN, _ | _, NaN => false
  | Fin a, Fin b => Qc_ltb b a
  | PInf, PInf => false
  | PInf, _ => true
  | NInf, _ => false
  | Fin _, PInf => false
  | Fin _, NInf => true
  end.

(** [x / y] *)
Definition div (x y : num) : num :=
  match x, y with
  | NaN, _ | _, NaN => NaN
  | Fin a, Fin b =>
      if decide (b = 0%Qc)
      then (if Qc_ltb 0%Qc a then PInf else if Qc_ltb a 0%Qc then NInf else NaN)
      else Fin (a / b)%Qc
  | Fin _, PInf | Fin _, NInf => Fin 0%Qc
  | PInf, Fin b => if Qc_ltb b 0%Qc then NInf else PInf
  | NInf, Fin b => if Qc_ltb b 0%Qc then PInf else NInf
  | PInf, PInf | PInf, NInf | NInf, PInf | NInf, NInf => NaN
  end.

(** ToBoolean on a number: 0 and NaN are falsy *)
Definition truthy (x : num) : bool :=
  match x with
  | Fin q => negb (bool_decide (q = 0%Qc))
  | NaN => false
  | PInf | NInf => true
  end.

(** [x || 0] *)
Definition or0 (x : num) : num := if truthy x then x else zero.

Definition is_nan (x : num) : bool :=
  match x with NaN => true | _ => false end.

Definition is_fin (x : num) : bool :=
  match x with Fin _ => true | _ => false end.

(** The order of the extended rationals; NaN is related to nothing. *)
Definition le (x y : num) : Prop :=
  match x, y with
  | NaN, _ | _, NaN => False
  | Fin a, Fin b => (a <= b)%Qc
  | NInf, _ => True
  | _, PInf => True
  | _, _ => False
  end.

(** *** Strings *)

Definition code (c : ascii) : Z := Z.of_nat (nat_of_ascii c).

(** StrWhiteSpaceChar, ASCII range: TAB, LF, VT, FF, CR, SP *)
Definition is_ws (c : ascii) : bool :=
  (code c =? 32)%Z || ((9 <=? code c)%Z && (code c <=? 13)%Z).

Fixpoint drop_ws (s : list ascii) : list ascii :=
  match s with
  | c :: t => if is_ws c then drop_ws t else s
  | [] => []
  end.

Definition digit (c : ascii) : option Z :=
  if (48 <=? code c)%Z && (code c <=? 57)%Z then Some (code c - 48)%Z else None.

Definition hexdigit (c : ascii) : option Z :=
  if (48 <=? code c)%Z && (code c <=? 57)%Z then Some (code c - 48)%Z
  else if (97 <=? code c)%Z && (code c <=? 102)%Z then Some (code c - 87)%Z
  else if (65 <=? code c)%Z && (code c <=? 70)%Z then Some (code c - 55)%Z
  else None.

(** The longest prefix of digits: its value in the radix, how many digits
    it has, and what follows it. *)
Fixpoint digits (dv : ascii → option Z) (radix acc : Z) (n : nat)
    (s : list ascii) : Z * nat * list ascii :=
  match s with
  | c :: t =>
      match dv c with
      | Some d => digits dv radix (acc * radix + d)%Z (S n) t
      | None => (acc, n, s)
      end
  | [] => (acc, n, s)
  end.

Definition take_sign (s : list ascii) : Z * list ascii :=
  match s with
  | "-"%char :: t => ((-1)%Z, t)
  | "+"%char :: t => (1%Z, t)
  | _ => (1%Z, s)
  end.

Definition strip_0x (s : list ascii) : bool * list ascii :=
  match s with
  | "0"%char :: "x"%char :: t => (true, t)
  | "0"%char :: "X"%char :: t => (true, t)
  | _ => (false, s)
  end.

(** [parseInt(s)] when [auto] (the radix is found from a 0x prefix) and
    [parseInt(s, 10)] otherwise. *)
Definition parseInt_radix (auto : bool) (s : string) : num :=
  let s1 := drop_ws (String.list_ascii_of_string s) in
  let '(sgn, s2) := take_sign s1 in
  let '(hex, s3) := if auto then strip_0x s2 else (false, s2) in
  let '(v, n, _) :=
    if hex then digits hexdigit 16 0 0 s3 else digits digit 10 0 0 s3 in
  match n with
  | O => NaN
  | S _ => of_Z (sgn * v)
  end.

Definition parseInt (s : string) : num := parseInt_radix true s.
Definition parseInt10 (s : string) : num := parseInt_radix false s.

Fixpoint starts_with (p s : list ascii) : bool :=
  match p, s with
  | [], _ => true
  | a :: p', b :: s' => bool_decide (a = b) && starts_with p' s'
  | _ :: _, [] => false
  end.

(** The ExponentPart of a decimal literal, 0 when there is none. *)
Definition exponent (s : list ascii) : Z :=
  match s with
  | c :: t =>
      if bool_decide (c = "e"%char) || bool_decide (c = "E"%char) then
        let '(esgn, t') := take_sign t in
        let '(ev, en, _) := digits digit 10 0 0 t' in
        match en with O => 0%Z | S _ => (esgn * ev)%Z end
      else 0%Z
  | [] => 0%Z
  end.

(** [m * 10^k] as an exact rational *)
Definition scale10 (m k : Z) : Qc :=
  if (0 <=? k)%Z then Qc_of_Z (m * 10 ^ k)
  else Q2Qc (Qmake m (Z.to_pos (10 ^ (- k)))).

(** [parseFloat(s)]: the longest prefix that is a StrDecimalLiteral *)
Definition parseFloat (s : string) : num :=
  let s1 := drop_ws (String.list_ascii_of_string s) in
  let '(sgn, s2) := take_sign s1 in
  if starts_with (String.list_ascii_of_string "Infinity") s2 then
    (if (sgn =? 1)%Z then PInf else NInf)
  else
    let '(ip, ni, s3) := digits digit 10 0 0 s2 in
    let '(fp, nf, s4) :=
      match s3 with
      | "."%char :: t => digits digit 10 0 0 t
      | _ => (0%Z, O, s3)
      end in
    match (ni + nf)%nat with
    | O => NaN
    | S _ =>
        Fin (scale10 (sgn * (ip * 10 ^ Z.of_nat nf + fp))
                     (exponent s4 - Z.of_nat nf))
    end.

(** ToString of a cell: [undefined] prints as the text "undefined" *)
Definition toString (c : option string) : string := default "undefined" c.

(** [s.replace(/,/g, '')] *)
Definition remove_commas (s : string) : string :=
  String.string_of_list_ascii
    (filter (λ c, c ≠ ","%char) (String.list_ascii_of_string s)).

Definition lower (c : ascii) : ascii :=
  if (65 <=? code c)%Z && (code c <=? 90)%Z
  then ascii_of_nat (nat_of_ascii c + 32) else c.

(** [s.toLowerCase()] *)
Definition toLowerCase (s : string) : string :=
  String.string_of_list_ascii (lower <$> String.list_ascii_of_string s).

(** [s.trim()] *)
Definition trim (s : string) : string :=
  String.string_of_list_ascii
    (reverse (drop_ws (reverse (drop_ws (String.list_ascii_of_string s))))).

(** [s.includes(t)] *)
Definition includes (s t : string) : bool :=
  match String.index 0 t s with Some _ => true | None => false end.

(** [s.slice(-n)] *)
Definition slice_last (n : nat) (s : string) : string :=
  let l := String.list_ascii_of_string s in
  String.string_of_list_ascii (drop (length l - n) l).

(** *** Insertion-ordered maps ([Map], and the own string keys of an object) *)

Section Jmap.
Context {V : Type}.

Definition jmap : Type := list (string * V).

Fixpoint jget (k : string) (m : jmap) : option V :=
  match m with
  | [] => None
  | (k', v) :: t => if decide (k' = k) then Some v else jget k t
  end.

Definition jhas (k : string) (m : jmap) : bool :=
  match jget k m with Some _ => true | None => false end.

(** The value of an existing key is updated where it stands. *)
Fixpoint jalter (f : V → V) (k : string) (m : jmap) : jmap :=
  match m with
  | [] => []
  | (k', v) :: t =>
      if decide (k' = k) then (k', f v) :: t else (k', v) :: jalter f k t
  end.

(** [m.set(k, v)]: a new key goes last. *)
Definition jset (k : string) (v : V) (m : jmap) : jmap :=
  if jhas k m then jalter (λ _, v) k m else m ++ [(k, v)].

Definition jkeys (m : jmap) : list string := m.*1.
Definition jvalues (m : jmap) : list V := m.*2.
End Jmap.
Arguments jmap : clear implicits.

(** *** Sorting with a comparator *)

Section Sort.
Context {A : Type} (cmp : A → A → num).

(** The comparator puts [a] after [b] when its result is positive; a
    result that is negative, zero or NaN leaves [a] first. *)
Definition after (a b : A) : bool := gt (cmp a b) zero.

Fixpoint insert (x : A) (l : list A) : list A :=
  match l with
  | [] => [x]
  | y :: t => if after x y then y :: insert x t else x :: l
  end.

Definition sort (l : list A) : list A := foldr insert [] l.
End Sort.

(** *** Results of code that can throw *)

Inductive result (A : Type) : Type :=
  | Ok (a : A)
  | Throw (e : string).
Arguments Ok {A} a.
Arguments Throw {A} e.

Definition rbind {A B} (r : result A) (k : A → result B) : result B :=
  match r with
  | Ok a => k a
  | Throw e => Throw e
  end.

(** [c.replace(/,/g, '')] on a cell: a method call on [undefined] throws. *)
Definition replace_commas (c : option string) : result string :=
  match c with
  | Some s => Ok (remove_commas s)
  | None => Throw "TypeError: Cannot read properties of undefined (reading 'replace')"
  end.

(** *** Further arithmetic, and the printing of numbers *)

(** [x * y] *)
Definition mul (x y : num) : num :=
  match x, y with
  | NaN, _ | _, NaN => NaN
  | Fin a, Fin b => Fin (a * b)%Qc
  | Fin a, PInf | PInf, Fin a =>
      if Qc_ltb 0%Qc a then PInf else if Qc_ltb a 0%Qc then NInf else NaN
  | Fin a, NInf | NInf, Fin a =>
      if Qc_ltb 0%Qc a then NInf else if Qc_ltb a 0%Qc then PInf else NaN
  | PInf, PInf | NInf, NInf => PInf
  | PInf, NInf | NInf, PInf => NInf
  end.

(** [x >= y]: false as soon as one side is NaN *)
Definition ge (x y : num) : bool :=
  match x, y with
  | NaN, _ | _, NaN => false
  | Fin a, Fin b => negb (Qc_ltb a b)
  | PInf, _ => true
  | _, NInf => true
  | _, _ => false
  end.

(** [x === y] on two numbers: NaN is equal to nothing *)
Definition strict_eq (x y : num) : bool :=
  match x, y with
  | NaN, _ | _, NaN => false
  | _, _ => bool_decide (x = y)
  end.

(** [Math.abs(x)] *)
Definition abs (x : num) : num :=
  match x with
  | Fin a => Fin (if Qc_ltb a 0%Qc then (- a)%Qc else a)
  | NaN => NaN
  | PInf | NInf => PInf
  end.

Definition is_digit (c : ascii) : bool :=
  match digit c with Some _ => true | None => false end.

(** The integer [n] for which [n / 10^f] is nearest to [a], the larger one
    when two are as near. *)
Definition nearest (f : nat) (a : Qc) : Z :=
  (2 * Qnum a * 10 ^ Z.of_nat f + Zpos (Qden a)) / (2 * Zpos (Qden a)).

(** The digits [m] of that integer with the decimal point before the
    last [f] of them, after zeros have been put in front of fewer than
    [f + 1] digits. *)
Definition point (f : nat) (m : list ascii) : list ascii :=
  match f with
  | O => m
  | S _ =>
      let m1 := replicate (S f - length m) "0"%char ++ m in
      take (length m1 - f) m1 ++ "."%char :: drop (length m1 - f) m1
  end.

(** [x.toFixed(f)].  A number of absolute value 10^21 or more is printed
    by the method in exponent notation, from the digits of its binary
    representation: that text is not modelled, the result is [None]. *)
Definition toFixed (f : nat) (x : num) : option string :=
  match x with
  | NaN => Some "NaN"
  | PInf => Some "Infinity"
  | NInf => Some "-Infinity"
  | Fin q =>
      let s := if Qc_ltb q 0%Qc then "-" else "" in
      let a := if Qc_ltb q 0%Qc then (- q)%Qc else q in
      if Qc_ltb a (Qc_of_Z (10 ^ 21)) then
        let m := String.list_ascii_of_string (pretty (Z.to_N (nearest f a))) in
        Some (s +:+ String.string_of_list_ascii (point f m))
      else None
  end.

(** The number of digits at the head of a text *)
Fixpoint digit_run (s : list ascii) : nat :=
  match s with
  | c :: t => if is_digit c then S (digit_run t) else O
  | [] => O
  end.

(** [s.replace(/(\d)(?=(\d{3})+(?!\d))/g, '$1,')]: a comma is put after
    every digit that is followed by a positive multiple of three digits
    and then by no digit.  The look-ahead consumes nothing, so that every
    digit of the text is tested. *)
Fixpoint group_thousands (s : list ascii) : list ascii :=
  match s with
  | [] => []
  | c :: t =>
      if is_digit c && (0 <? digit_run t)%nat && (digit_run t mod 3 =? 0)%nat
      then c :: ","%char :: group_thousands t
      else c :: group_thousands t
  end.

End JS.

(** ** The host: log, spreadsheet and mail sinks *)

Module Host.
Import JS.

(** What the mail facility and the spreadsheet service do in a run: the
    error they raise, if any. *)
Record host := {
  sendEmail_error : option string;
  openByUrl_error : option string
}.

Section World.
Context {S B : Type}.

Record mail := { to : string; subject : string; htmlBody : B }.

(** The three sinks a script writes to: [Logger.log] / [console.error]
    lines, operations on the spreadsheet, and mails handed to [MailApp]. *)
Record world := { logs : list string; sheet : list S; outbox : list mail }.

Definition M (A : Type) : Type := world → result A * world.

Definition ret {A} (a : A) : M A := λ w, (Ok a, w).

Definition bind {A C} (m : M A) (k : A → M C) : M C :=
  λ w, match m w with
       | (Ok a, w') => k a w'
       | (Throw e, w') => (Throw e, w')
       end.

Definition throw {A} (e : string) : M A := λ w, (Throw e, w).

Definition lift {A} (r : result A) : M A := λ w, (r, w).

(** [try { m } catch (e) { h e }] *)
Definition try_catch {A} (m : M A) (h : string → M A) : M A :=
  λ w, match m w with
       | (Ok a, w') => (Ok a, w')
       | (Throw e, w') => h e w'
       end.

Definition log (msg : string) : M unit :=
  λ w, (Ok tt, {| logs := logs w ++ [msg]; sheet := sheet w; outbox := outbox w |}).

Definition write (op : S) : M unit :=
  λ w, (Ok tt, {| logs := logs w; sheet := sheet w ++ [op]; outbox := outbox w |}).

(** [MailApp.sendEmail(m)] *)
Definition sendEmail (h : host) (m : mail) : M unit :=
  λ w, match sendEmail_error h with
       | Some e => (Throw e, w)
       | None =>
           (Ok tt, {| logs := logs w; sheet := sheet w; outbox := outbox w ++ [m] |})
       end.
End World.
Arguments mail : clear implicits.
Arguments world : clear implicits.
Arguments M : clear implicits.

End Host.

#[global] Instance result_ret : MRet JS.result := @JS.Ok.
#[global] Instance result_bind : MBind JS.result := λ A B k r, JS.rbind r k.
#[global] Instance M_ret {S B} : MRet (Host.M S B) := @Host.ret S B.
#[global] Instance M_bind {S B} : MBind (Host.M S B) := λ A C k m, Host.bind m k.

(** ** daily-email-country-performance.js *)

Module Daily.
Import JS Host.

Record locationRow := { loc_CriteriaId : string; loc_CountryName : string }.

(** A row of CAMPAIGN_LOCATION_TARGET_REPORT *)
Record row := {
  CriteriaId : string;
  Clicks : option string;
  Impressions : option string;
  Cost : option string;
  Conversions : option string
}.

Record stats := {
  name : string;
  spend : num;
  impressions : num;
  clicks : num;
  conversions : num
}.

Record totals_t := {
  tot_spend : num;
  tot_impressions : num;
  tot_clicks : num;
  tot_conversions : num
}.

(** [{...country, ctr, cpc}] *)
Record country := { stat : stats; ctr : num; cpc : num }.

Record report := { countries : list country; totals : totals_t }.

Definition zero_totals : totals_t :=
  {| tot_spend := zero; tot_impressions := zero; tot_clicks := zero;
     tot_conversions := zero |}.

Definition empty_report : report :=
  {| countries := []; totals := zero_totals |}.

(** Lines 44-51: the map from criterion id to country name; a later row
    for an id replaces an earlier one. *)
Definition locationMap (locs : list locationRow) : gmap string string :=
  foldl (λ m r, <[loc_CriteriaId r := loc_CountryName r]> m) ∅ locs.

(** [locationMap.get(criteriaId) || 'Unknown'] *)
Definition countryName_of (lm : gmap string string) (criteriaId : string) : string :=
  match lm !! criteriaId with
  | Some n => if decide (n = "") then "Unknown" else n
  | None => "Unknown"
  end.

Definition new_stats (countryName : string) : stats :=
  {| name := countryName; spend := zero; impressions := zero; clicks := zero;
     conversions := zero |}.

Definition add_stats (sp im cl cv : num) (s : stats) : stats :=
  {| name := name s;
     spend := add (spend s) sp;
     impressions := add (impressions s) im;
     clicks := add (clicks s) cl;
     conversions := add (conversions s) cv |}.

Definition add_totals (sp im cl cv : num) (t : totals_t) : totals_t :=
  {| tot_spend := add (tot_spend t) sp;
     tot_impressions := add (tot_impressions t) im;
     tot_clicks := add (tot_clicks t) cl;
     tot_conversions := add (tot_conversions t) cv |}.

(** Lines 62-94: one turn of the loop over the report rows. *)
Definition loop_body (lm : gmap string string)
    (st : jmap stats * totals_t) (r : row) : result (jmap stats * totals_t) :=
  let '(countryData, tot) := st in
  let countryName := countryName_of lm (CriteriaId r) in
  cost ← replace_commas (Cost r);
  let sp := parseFloat cost in
  if gt sp zero then
    im_s ← replace_commas (Impressions r);
    let im := parseInt10 im_s in
    cl_s ← replace_commas (Clicks r);
    let cl := parseInt10 cl_s in
    cv_s ← replace_commas (Conversions r);
    let cv := parseFloat cv_s in
    let countryData1 :=
      if jhas countryName countryData then countryData
      else jset countryName (new_stats countryName) countryData in
    let countryData2 := jalter (add_stats sp im cl cv) countryName countryData1 in
    Ok (countryData2, add_totals sp im cl cv tot)
  else Ok st.

Fixpoint loop (lm : gmap string string) (st : jmap stats * totals_t)
    (rows : list row) : result (jmap stats * totals_t) :=
  match rows with
  | [] => Ok st
  | r :: rest => st' ← loop_body lm st r; loop lm st' rest
  end.

(** Lines 98-102 *)
Definition with_metrics (c : stats) : country :=
  {| stat := c;
     ctr := if gt (impressions c) zero then div (clicks c) (impressions c) else zero;
     cpc := if gt (clicks c) zero then div (spend c) (clicks c) else zero |}.

(** [(a, b) => b.spend - a.spend] *)
Definition by_spend_desc (a b : country) : num :=
  sub (spend (stat b)) (spend (stat a)).

(** Lines 31-110: the body of the [try] block. *)
Definition getCountryData_try (locs : list locationRow) (rows : list row)
    : result report :=
  st ← loop (locationMap locs) ([], zero_totals) rows;
  let countryReport := with_metrics <$> jvalues st.1 in
  Ok {| countries := sort by_spend_desc countryReport; totals := st.2 |}.

(** The script writes no spreadsheet: its world has no sheet operation. *)
(** The cells of one line of the mail's table, before they are printed
    ([toFixed] and [toLocaleString] print NaN as the text NaN). *)
Record table_row := {
  cell_label : string;
  cell_spend : num;
  cell_impressions : num;
  cell_clicks : num;
  cell_ctr : num;
  cell_cpc : num;
  cell_conversions : num
}.

Record email_html := {
  html_date : string;
  html_total_spend : num;
  html_rows : list table_row;
  html_total_row : table_row
}.

Definition getCountryData (locs : list locationRow) (rows : list row)
    : M Empty_set email_html report :=
  try_catch (lift (getCountryData_try locs rows))
    (λ e, log ("Error retrieving or processing data: " +:+ e);;
          ret empty_report).

Definition country_row (c : country) : table_row :=
  {| cell_label := name (stat c);
     cell_spend := spend (stat c);
     cell_impressions := impressions (stat c);
     cell_clicks := clicks (stat c);
     cell_ctr := ctr c;
     cell_cpc := cpc c;
     cell_conversions := conversions (stat c) |}.

(** Lines 203-212: the TOTAL line. *)
Definition total_row (t : totals_t) : table_row :=
  {| cell_label := "TOTAL";
     cell_spend := tot_spend t;
     cell_impressions := tot_impressions t;
     cell_clicks := tot_clicks t;
     cell_ctr := div (tot_clicks t) (tot_impressions t);
     cell_cpc := if gt (tot_clicks t) zero
                 then div (tot_spend t) (tot_clicks t) else zero;
     cell_conversions := tot_conversions t |}.

Definition generateEmailHtml (reportData : report) (date : string) : email_html :=
  {| html_date := date;
     html_total_spend := tot_spend (totals reportData);
     html_rows := country_row <$> countries reportData;
     html_total_row := total_row (totals reportData) |}.

Definition sendEmailReport (h : host) (reportData : report)
    (date recipient subject : string) : M Empty_set email_html unit :=
  let htmlBody := generateEmailHtml reportData date in
  try_catch
    (sendEmail h {| to := recipient; subject := subject; htmlBody := htmlBody |})
    (λ e, log ("Error sending email: " +:+ e)).

Definition EMAIL_RECIPIENT : string := "your-email@example.com".
Definition EMAIL_SUBJECT : string :=
  "Google Ads - Country Spend Report (Previous Day)".

(** [YESTERDAY] is the date string the host formats. *)
Definition main (h : host) (YESTERDAY : string)
    (locs : list locationRow) (rows : list row) : M Empty_set email_html unit :=
  reportData ← getCountryData locs rows;
  sendEmailReport h reportData YESTERDAY EMAIL_RECIPIENT EMAIL_SUBJECT.

(** Lines 224-226 *)
Definition formatAmount (amount : num) : option string := toFixed 2 amount.

(** Lines 232-234 *)
Definition formatPercentage (number : num) : option string :=
  toFixed 2 (mul number (of_Z 100)).

End Daily.

(** ** performance-dashboard-exporter.js: the country tab and the
       completion mail *)

Module Dashboard.
Import JS Host.

(** A row of the geo_target_constant report *)
Record nameRow := { geo_id : string; geo_name : string }.

(** A row of the geographic_view report *)
Record geoRow := {
  country_criterion_id : string;
  m_clicks : option string;
  m_impressions : option string;
  m_cost_micros : option string;
  m_conversions_value : option string;
  m_conversions : option string;
  m_all_conversions : option string
}.

Record bucket := {
  clicks : num;
  impressions : num;
  cost : num;
  convValue : num;
  conversions : num;
  allConversions : num
}.

(** One line of the sheet: the array pushed at line 426, column by column. *)
Record sheetRow := {
  col_country : string;
  col_clicks : num;
  col_impressions : num;
  col_ctr : num;
  col_avgCpc : num;
  col_cost : num;
  col_convValue : num;
  col_roas : num;
  col_conversions : num;
  col_costPerConv : num;
  col_convRate : num;
  col_allConversions : num
}.

(** [getCountryNames]: the object from criterion id to name (an empty
    list of rows when the report could not be read).  An id, like a label
    below, is taken not to be the name of a member of Object.prototype. *)
Definition getCountryNames (names : list nameRow) : gmap string string :=
  foldl (λ o r, <[geo_id r := geo_name r]> o) ∅ names.

(** [countryNames[id] || `Unknown (${id})`] *)
Definition countryName_of (countryNames : gmap string string) (id : string) : string :=
  match countryNames !! id with
  | Some n => if decide (n = "") then "Unknown (" +:+ id +:+ ")" else n
  | None => "Unknown (" +:+ id +:+ ")"
  end.

Definition new_bucket : bucket :=
  {| clicks := zero; impressions := zero; cost := zero; convValue := zero;
     conversions := zero; allConversions := zero |}.

(** Lines 411-416 *)
Definition add_row (r : geoRow) (b : bucket) : bucket :=
  {| clicks := add (clicks b) (or0 (parseInt (toString (m_clicks r))));
     impressions := add (impressions b) (or0 (parseInt (toString (m_impressions r))));
     cost := add (cost b)
               (div (or0 (parseFloat (toString (m_cost_micros r)))) (of_Z 1000000));
     convValue := add (convValue b) (or0 (parseFloat (toString (m_conversions_value r))));
     conversions := add (conversions b) (or0 (parseFloat (toString (m_conversions r))));
     allConversions := add (allConversions b)
                         (or0 (parseFloat (toString (m_all_conversions r)))) |}.

(** Lines 405-417: one turn of the loop.  The keys of [countryData] are
    country labels; a label is taken not to be the name of a member of
    Object.prototype. *)
Definition loop_body (countryNames : gmap string string)
    (countryData : jmap bucket) (r : geoRow) : jmap bucket :=
  let countryName := countryName_of countryNames (country_criterion_id r) in
  let countryData1 :=
    if jhas countryName countryData then countryData
    else jset countryName new_bucket countryData in
  jalter (add_row r) countryName countryData1.

(** A key is an array index when it is the canonical decimal text of an
    integer below 2^32 - 1. *)
Definition array_index (k : string) : option Z :=
  match String.list_ascii_of_string k with
  | [] => None
  | c :: t =>
      let '(v, _, rest) := digits digit 10 0 0 (c :: t) in
      if bool_decide (rest = [])
         && (bool_decide (c ≠ "0"%char) || bool_decide (t = []))
         && (v <? 2 ^ 32 - 1)%Z
      then Some v else None
  end.

Definition is_index (k : string) : bool :=
  match array_index k with Some _ => true | None => false end.

Definition by_index {V} (a b : string * V) : num :=
  of_Z (default 0%Z (array_index a.1) - default 0%Z (array_index b.1)).

(** [for (const k in o)] over an object with own properties only: the
    array-index keys in ascending numeric order, then the other keys in
    the order of their creation. *)
Definition for_in {V} (o : list (string * V)) : list (string * V) :=
  sort by_index (filter (λ kv, is_index kv.1 = true) o)
  ++ filter (λ kv, is_index kv.1 = false) o.

(** Lines 420-426 *)
Definition to_row (kv : string * bucket) : sheetRow :=
  let country := kv.1 in
  let data := kv.2 in
  {| col_country := country;
     col_clicks := clicks data;
     col_impressions := impressions data;
     col_ctr := if gt (impressions data) zero
                then div (clicks data) (impressions data) else zero;
     col_avgCpc := if gt (clicks data) zero
                   then div (cost data) (clicks data) else zero;
     col_cost := cost data;
     col_convValue := convValue data;
     col_roas := if gt (cost data) zero
                 then div (convValue data) (cost data) else zero;
     col_conversions := conversions data;
     col_costPerConv := if gt (conversions data) zero
                        then div (cost data) (conversions data) else zero;
     col_convRate := if gt (clicks data) zero
                     then div (conversions data) (clicks data) else zero;
     col_allConversions := allConversions data |}.

(** [(a, b) => b[5] - a[5]] *)
Definition by_cost_desc (a b : sheetRow) : num := sub (col_cost b) (col_cost a).

(** Lines 399-428 of [exportTopCountriesData]: the rows written to the
    Top Countries tab, in the order they are written. *)
Definition exportTopCountriesData (names : list nameRow) (report : list geoRow)
    : list sheetRow :=
  let countryNames := getCountryNames names in
  let countryData := foldl (loop_body countryNames) [] report in
  let rows := to_row <$> for_in countryData in
  sort by_cost_desc rows.

Record config := {
  SEND_EMAIL_ON_COMPLETE : bool;
  EMAIL_RECIPIENTS : string
}.

(** The subject and the two bodies of the completion mail, as lines
    482-565 print them from the summary data. *)
Record completion := {
  c_subject : string;
  c_plainTextBody : string;
  c_htmlBody : string
}.

Section Effects.
Context {S : Type}.

Definition sendCompletionEmail (h : host) (cfg : config) (c : completion)
    : M S (string * string) unit :=
  if bool_decide (EMAIL_RECIPIENTS cfg = "")
     || bool_decide (trim (EMAIL_RECIPIENTS cfg) = "")
     || bool_decide (EMAIL_RECIPIENTS cfg = "your-email@example.com")
  then
    log "Email notification is enabled but no valid recipient email address is configured."
  else
    try_catch
      (sendEmail h {| to := EMAIL_RECIPIENTS cfg; subject := c_subject c;
                      htmlBody := (c_plainTextBody c, c_htmlBody c) |};;
       log ("Completion email sent to " +:+ EMAIL_RECIPIENTS cfg))
      (λ e, log ("Failed to send email: " +:+ e)).

(** [main]: [exports] stands for lines 44-64 (opening the spreadsheet,
    reading the prior period, clearing and writing the six tabs), which
    yield what the completion mail prints. *)
Definition main (h : host) (cfg : config)
    (exports : M S (string * string) completion) : M S (string * string) unit :=
  try_catch
    (c ← exports;
     (if SEND_EMAIL_ON_COMPLETE cfg then sendCompletionEmail h cfg c else mret tt);;
     log "Export completed successfully!")
    (λ e, log ("Error in main function: " +:+ e);; throw e).
End Effects.


Section Prior.
Context {S : Type}.


End Prior.

(** Line 488: [formatCurrency] *)
Definition formatCurrency (n : num) : option string :=
  s ← toFixed 2 n;
  Some ("$" +:+ String.string_of_list_ascii
                  (group_thousands (String.list_ascii_of_string s))).

Inductive arrow := NoArrow | UpArrow | DownArrow.

(** What [getChangeHtml] returns: the badge that reads (New), or a span
    in a colour with an arrow, the size of the change and the percentage. *)
Inductive change_html :=
  | NewBadge
  | ChangeSpan (color : string) (a : arrow) (changeStr percent : option string).

(** What [getChangePlainText] returns: the text (New), the text
    0 (0.0%), or a sign with the size of the change and the percentage. *)
Inductive change_text :=
  | NewText
  | NoChangeText
  | ChangeText (sign : string) (changeStr percent : option string).

Section Change.
(** [x.toLocaleString()]: the host's way to print a number *)
Variable toLocaleString : num → string.

(** Lines 489-508 *)
Definition getChangeHtml (current prior : num) (isCurrency : bool) : change_html :=
  let change := sub current prior in
  let percent :=
    if gt prior zero then div change prior
    else if gt current zero then of_Z 1 else zero in
  let color :=
    if strict_eq change zero then "#333"
    else if isCurrency then (if gt change zero then "#c0392b" else "#27ae60")
    else (if gt change zero then "#27ae60" else "#c0392b") in
  let arrow :=
    if strict_eq change zero then NoArrow
    else if gt change zero then UpArrow else DownArrow in
  if strict_eq prior zero && gt current zero then NewBadge
  else
    let changeStr :=
      if isCurrency then formatCurrency (abs change)
      else Some (toLocaleString (abs change)) in
    ChangeSpan color arrow changeStr (toFixed 1 (mul percent (of_Z 100))).

(** Lines 542-550 *)
Definition getChangePlainText (current prior : num) (isCurrency : bool) : change_text :=
  if strict_eq prior zero && gt current zero then NewText
  else
    let change := sub current prior in
    if strict_eq change zero then NoChangeText
    else
      let percent := if gt prior zero then div change prior else of_Z 1 in
      let sign := if ge change zero then "+" else "-" in
      let changeStr :=
        if isCurrency then formatCurrency (abs change)
        else Some (toLocaleString (abs change)) in
      ChangeText sign changeStr (toFixed 1 (mul percent (of_Z 100))).
End Change.

End Dashboard.

(** ** The new-search-queries script *)

Module NewQueries.
Import JS Host.

(** A row of yesterday's search_term_view report *)
Record yrow := {
  search_term : string;
  m_impressions : option string;
  m_clicks : option string;
  m_cost_micros : option string;
  campaign_id : string;
  campaign_name : string;
  ad_group_id : string;
  ad_group_name : string
}.

(** An element of [yesterdayData]; [cost] is the number that line 716
    prints with two decimals. *)
Record item := {
  query : string;
  origQuery : string;
  impressions : num;
  clicks : num;
  cost : num;
  campaignId : string;
  campaignName : string;
  adGroupId : string;
  adGroupName : string
}.

#[global] Instance item_eq_dec : EqDecision item.
Proof. solve_decision. Defined.

Inductive sheet_op :=
  | CreateSpreadsheet (title : string)
  | OpenByUrl (url : string)
  | SelectSheet (sheetName : string)
  | ClearContents
  | AppendHeader
  | AppendRow (i : item)
  | AutoResizeColumns
  | SetFrozenRows.

Inductive body :=
  | NoClicksNote (date url : string)
  | GroupedTables (date : string) (tables : list (string * list item)) (url : string).

Record account := {
  accountName : string;
  accountId : string;
  yesterdayStr : string;
  createdUrl : string
}.

(** Lines 678-689 *)
Definition priorQueries (priorRows : list string) : gset string :=
  foldl (λ s t, s ∪ {[ toLowerCase t ]}) ∅ priorRows.

(** Lines 701-721 *)
Definition to_item (r : yrow) : item :=
  {| query := toLowerCase (search_term r);
     origQuery := search_term r;
     impressions := or0 (parseInt (toString (m_impressions r)));
     clicks := or0 (parseInt (toString (m_clicks r)));
     cost := div (or0 (parseInt (toString (m_cost_micros r)))) (of_Z 1000000);
     campaignId := campaign_id r;
     campaignName := campaign_name r;
     adGroupId := ad_group_id r;
     adGroupName := ad_group_name r |}.

(** Lines 725-727 *)
Definition newData (priorRows : list string) (yesterdayRows : list yrow) : list item :=
  filter (λ it, query it ∉ priorQueries priorRows) (to_item <$> yesterdayRows).

(** [(a, b) => b.clicks - a.clicks] *)
Definition by_clicks_desc (a b : item) : num := sub (clicks b) (clicks a).

(** Lines 736-738: [newData] after it is sorted in place *)
Definition sortedNewData (priorRows : list string) (yesterdayRows : list yrow)
    : list item :=
  sort by_clicks_desc (newData priorRows yesterdayRows).

(** Lines 771-773 *)
Definition emailData (priorRows : list string) (yesterdayRows : list yrow)
    : list item :=
  filter (λ it, gt (clicks it) zero = true) (sortedNewData priorRows yesterdayRows).

(** [m.get(k)] where a number is expected: [undefined + n] is NaN. *)
Definition get_num (k : string) (m : jmap num) : num := default NaN (jget k m).

(** Lines 794-802 *)
Definition group_step (st : jmap (list item) * jmap num) (it : item)
    : jmap (list item) * jmap num :=
  let key := campaignName it in
  let st1 :=
    if jhas key st.1 then st
    else (jset key [] st.1, jset key zero st.2) in
  (jalter (λ l, l ++ [it]) key st1.1,
   jset key (add (get_num key st1.2) (clicks it)) st1.2).

Section Main.
(** [a.localeCompare(b)]: the collation of the host *)
Variable localeCompare : string → string → Z.

(** Lines 805-808 *)
Definition by_total_then_name (campaignTotals : jmap num) (a b : string) : num :=
  let diff := sub (get_num b campaignTotals) (get_num a campaignTotals) in
  if bool_decide (diff ≠ zero) then diff else of_Z (localeCompare a b).

(** Lines 792-830: the campaigns in the order of the mail, each with
    its lines in the order of its table. *)
Definition grouped (emailData : list item) : list (string * list item) :=
  let st := foldl group_step ([], []) emailData in
  let sortedCampaigns := sort (by_total_then_name st.2) (jkeys st.1) in
  (λ camp, (camp, sort by_clicks_desc (default [] (jget camp st.1))))
    <$> sortedCampaigns.

Definition openByUrl (h : host) (url : string) : M sheet_op body unit :=
  λ w, match openByUrl_error h with
       | Some e => (Throw e, w)
       | None => write (OpenByUrl url) w
       end.

Fixpoint appendRows (l : list item) : M sheet_op body unit :=
  match l with
  | [] => mret tt
  | it :: rest => write (AppendRow it);; appendRows rest
  end.

Definition main (h : host) (acct : account) (SHEET_URL RECIPIENT_EMAIL : string)
    (priorRows : list string) (yesterdayRows : list yrow) : M sheet_op body unit :=
  if bool_decide (length (newData priorRows yesterdayRows) = 0) then
    log "No new search queries found."
  else
    let newData1 := sortedNewData priorRows yesterdayRows in
    let last4Id := slice_last 4 (accountId acct) in
    let SHEET_NAME :=
      accountName acct +:+ " - " +:+ last4Id +:+ " - " +:+ yesterdayStr acct in
    url ← (if bool_decide (SHEET_URL = "") || includes SHEET_URL "YOUR_SPREADSHEET_ID"
           then
             write (CreateSpreadsheet
                      ("Google Ads New Search Queries - " +:+ accountName acct
                       +:+ " - " +:+ last4Id));;
             log ("Created new spreadsheet: " +:+ createdUrl acct);;
             mret (createdUrl acct)
           else openByUrl h SHEET_URL;; mret SHEET_URL);
    write (SelectSheet SHEET_NAME);;
    write ClearContents;;
    write AppendHeader;;
    appendRows newData1;;
    write AutoResizeColumns;;
    write SetFrozenRows;;
    let emailData1 := emailData priorRows yesterdayRows in
    let emailSubject :=
      accountName acct +:+ " - New Search Queries - " +:+ yesterdayStr acct in
    if bool_decide (length emailData1 = 0) then
      sendEmail h {| to := RECIPIENT_EMAIL; subject := emailSubject;
                     htmlBody := NoClicksNote (yesterdayStr acct) url |};;
      log "Report generated and sent. No queries with >0 clicks."
    else
      sendEmail h {| to := RECIPIENT_EMAIL; subject := emailSubject;
                     htmlBody := GroupedTables (yesterdayStr acct)
                                   (grouped emailData1) url |};;
      log ("Report generated and sent. New queries: " +:+ pretty (length newData1)
           +:+ "; Email queries (>0 clicks): " +:+ pretty (length emailData1)).
End Main.

(** Line 656: the address that the script ships with *)
Definition SHEET_URL_shipped : string := "YOUR_GOOGLE_SHEET_URL_HERE".

End NewQueries.

(** ** Notions used to state the properties *)

Module Spec.
Import JS.

(** The sum of a list of numbers *)
Definition sum_nums (l : list num) : num := foldr add zero l.

(** The keys of a list in the order of their first appearance *)
Fixpoint first_occ (l : list string) : list string :=
  match l with
  | [] => []
  | k :: t => k :: filter (λ k', k' ≠ k) (first_occ t)
  end.

(** The sum of counter [f] over the records filed under key [k] *)
Definition key_sum {R} (key : R → string) (f : R → num) (k : string)
    (rs : list R) : num :=
  sum_nums (f <$> filter (λ r, key r = k) rs).

(** A list is in descending order of [f]. *)
Definition descending {A} (f : A → num) (l : list A) : Prop :=
  StronglySorted (λ a b, le (f b) (f a)) l.

(** Grouping by key, as the three scripts write it: a value is created
    for a key at its first record and updated by every record of the key. *)
Definition agg_step {R V} (key : R → string) (init : string → V)
    (upd : R → V → V) (m : jmap V) (r : R) : jmap V :=
  jalter (upd r) (key r)
    (if jhas (key r) m then m else jset (key r) (init (key r)) m).

Definition group_value {R V} (key : R → string) (init : string → V)
    (upd : R → V → V) (k : string) (rs : list R) : V :=
  foldl (λ v r, upd r v) (init k) (filter (λ r, key r = k) rs).

(** What one row of the daily report adds: nothing when its cost is not
    positive, and an exception when a cell that is read is missing. *)
Definition contribution (lm : gmap string string) (r : Daily.row)
    : result (option Daily.stats) :=
  cost ← replace_commas (Daily.Cost r);
  let sp := parseFloat cost in
  if gt sp zero then
    im_s ← replace_commas (Daily.Impressions r);
    cl_s ← replace_commas (Daily.Clicks r);
    cv_s ← replace_commas (Daily.Conversions r);
    Ok (Some {| Daily.name := Daily.countryName_of lm (Daily.CriteriaId r);
                Daily.spend := sp;
                Daily.impressions := parseInt10 im_s;
                Daily.clicks := parseInt10 cl_s;
                Daily.conversions := parseFloat cv_s |})
  else Ok None.

Fixpoint contributions (lm : gmap string string) (rows : list Daily.row)
    : result (list Daily.stats) :=
  match rows with
  | [] => Ok []
  | r :: rest =>
      c ← contribution lm r;
      cs ← contributions lm rest;
      Ok (match c with Some s => s :: cs | None => cs end)
  end.

(** What an accepted row adds to its bucket and to the totals *)
Definition upd_stats (s b : Daily.stats) : Daily.stats :=
  Daily.add_stats (Daily.spend s) (Daily.impressions s) (Daily.clicks s)
    (Daily.conversions s) b.

Definition tot_step (t : Daily.totals_t) (s : Daily.stats) : Daily.totals_t :=
  Daily.add_totals (Daily.spend s) (Daily.impressions s) (Daily.clicks s)
    (Daily.conversions s) t.

(** The bucket of country [k] after the accepted rows [cs] *)
Definition bucket_of (cs : list Daily.stats) (k : string) : Daily.stats :=
  group_value Daily.name Daily.new_stats upd_stats k cs.

(** The label under which the dashboard files a row *)
Definition label_of (names : list Dashboard.nameRow) (r : Dashboard.geoRow) : string :=
  Dashboard.countryName_of (Dashboard.getCountryNames names)
    (Dashboard.country_criterion_id r).

(** The items of the rows appended to the sheet, in order *)
Definition appended (ops : list NewQueries.sheet_op) : list NewQueries.item :=
  omap (λ op, match op with NewQueries.AppendRow it => Some it | _ => None end) ops.

(** The two maps of the grouping by campaign, each on its own *)
Definition items_step : jmap (list NewQueries.item) → NewQueries.item
    → jmap (list NewQueries.item) :=
  agg_step NewQueries.campaignName (λ _, []) (λ it l, l ++ [it]).

Definition totals_step : jmap num → NewQueries.item → jmap num :=
  agg_step NewQueries.campaignName (λ _, zero)
    (λ it v, add v (NewQueries.clicks it)).

(** The total of the clicks of campaign [c] among the items [E] *)
Definition campaign_total (E : list NewQueries.item) (c : string) : num :=
  key_sum NewQueries.campaignName NewQueries.clicks c E.


(** The address of the sheet the run writes to *)
Definition sheet_url (acct : NewQueries.account) (SHEET_URL : string) : string :=
  if bool_decide (SHEET_URL = "") || includes SHEET_URL "YOUR_SPREADSHEET_ID"
  then NewQueries.createdUrl acct else SHEET_URL.

(** Comparison of strings by character codes, a collation to run the
    examples with *)
Definition code_compare (a b : string) : Z :=
  match String.compare a b with Lt => (-1)%Z | Eq => 0%Z | Gt => 1%Z end.


(** A row of the daily report at which the loop ends with an exception:
    its Cost cell is missing, or its cost is greater than 0 and one of the
    three other cells that are then read is missing. *)
Definition unreadable (r : Daily.row) : bool :=
  match Daily.Cost r with
  | None => true
  | Some c =>
      gt (parseFloat (remove_commas c)) zero
      && match Daily.Impressions r, Daily.Clicks r, Daily.Conversions r with
         | Some _, Some _, Some _ => false
         | _, _, _ => true
         end
  end.

(** The number that a text of digits reads as, after the number [acc]
    that the digits before it read as *)
Definition digits_value (acc : Z) (l : list ascii) : Z :=
  foldl (λ a c, a * 10 + default 0 (digit c))%Z acc l.

(** The digits of a whole number, written from the last to the first,
    with a comma after every three digits that other digits follow *)
Fixpoint group3 (l : list ascii) : list ascii :=
  match l with
  | a :: b :: c :: ((_ :: _) as t) => a :: b :: c :: ","%char :: group3 t
  | _ => l
  end.

(** The digits of a whole number in groups of three counted from the
    right, with a comma between two groups *)
Definition thousands (l : list ascii) : list ascii := reverse (group3 (reverse l)).

End Spec.

(** ** Binary64 arithmetic

    The numbers of a script are the values of the binary64 format: every
    operation gives the value of the format that is nearest to its exact
    result, the one with the even significand when two are as near, and an
    infinity when that value would be [2^1024] or more in size.  The
    operations of [JS] are the exact ones; here each is followed by the
    rounding.  The sign of zero is not modelled: the divisions of the
    aggregations are guarded by a test [> 0], and a sum that starts from 0
    is never the negative zero. *)

Module F64.
Import JS.

(** [floor (log2 (a / d))], for [a >= d > 0] *)
Definition floor_log2 (a d : Z) : Z :=
  let mag := (Z.log2 a - Z.log2 d)%Z in
  if (d * 2 ^ mag <=? a)%Z then mag else (mag - 1)%Z.

(** The integer nearest to [N / D], the even one when two are as near *)
Definition rne (N D : Z) : Z :=
  let f := (N / D)%Z in
  let r := (2 * (N mod D))%Z in
  if (r <? D)%Z then f
  else if (D <? r)%Z then (f + 1)%Z
  else if Z.even f then f else (f + 1)%Z.

(** The values of the format are whole multiples of [2^-1074], the least
    positive one: below, a value is counted in these units.  Between
    [2^e] and [2^(e+1)] units two neighbouring values are [2^(e-52)] units
    apart, and 1 unit apart below [2^53] units.  [spacing a d] is the
    exponent of that distance at [a / d] units. *)
Definition spacing (a d : Z) : Z :=
  if (a <? d)%Z then 0%Z else Z.max (floor_log2 a d - 52) 0.

(** [N / d] units, rounded to the format *)
Definition round_units (N d : Z) : Z :=
  let E := spacing (Z.abs N) d in
  (rne N (d * 2 ^ E) * 2 ^ E)%Z.

Definition denom : Z := 2 ^ 1074.

(** [2^1024], in units *)
Definition huge : Z := 2 ^ 2098.

Definition of_units (K : Z) : Qc := Q2Qc (K # Z.to_pos denom).

Definition round (q : Qc) : num :=
  let K := round_units (Qnum q * denom) (Zpos (Qden q)) in
  if (huge <=? K)%Z then PInf
  else if (K <=? - huge)%Z then NInf
  else Fin (of_units K).

Definition rnd (x : num) : num :=
  match x with Fin q => round q | _ => x end.

(** [x + y], [x - y], [x * y], [x / y] *)
Definition add (x y : num) : num := rnd (JS.add x y).
Definition sub (x y : num) : num := rnd (JS.sub x y).
Definition mul (x y : num) : num := rnd (JS.mul x y).
Definition div (x y : num) : num := rnd (JS.div x y).

(** [parseFloat(s)], [parseInt(s)] and [parseInt(s, 10)]: the number of
    the format nearest to what the text reads as (for a text of more
    than 20 significant digits an engine may round what the first 20
    read as) *)
Definition parseFloat (s : string) : num := rnd (JS.parseFloat s).
Definition parseInt (s : string) : num := rnd (JS.parseInt s).
Definition parseInt10 (s : string) : num := rnd (JS.parseInt10 s).

End F64.

(** ** daily-email-country-performance.js, with the arithmetic of the
       engine and the failures of the reports *)

Module Daily64.
Import JS Host.

Definition add_stats (sp im cl cv : num) (s : Daily.stats) : Daily.stats :=
  {| Daily.name := Daily.name s;
     Daily.spend := F64.add (Daily.spend s) sp;
     Daily.impressions := F64.add (Daily.impressions s) im;
     Daily.clicks := F64.add (Daily.clicks s) cl;
     Daily.conversions := F64.add (Daily.conversions s) cv |}.

Definition add_totals (sp im cl cv : num) (t : Daily.totals_t) : Daily.totals_t :=
  {| Daily.tot_spend := F64.add (Daily.tot_spend t) sp;
     Daily.tot_impressions := F64.add (Daily.tot_impressions t) im;
     Daily.tot_clicks := F64.add (Daily.tot_clicks t) cl;
     Daily.tot_conversions := F64.add (Daily.tot_conversions t) cv |}.

(** Lines 62-94: one turn of the loop over the report rows. *)
Definition loop_body (lm : gmap string string)
    (st : jmap Daily.stats * Daily.totals_t) (r : Daily.row)
    : result (jmap Daily.stats * Daily.totals_t) :=
  let '(countryData, tot) := st in
  let countryName := Daily.countryName_of lm (Daily.CriteriaId r) in
  cost ← replace_commas (Daily.Cost r);
  let sp := F64.parseFloat cost in
  if gt sp zero then
    im_s ← replace_commas (Daily.Impressions r);
    let im := F64.parseInt10 im_s in
    cl_s ← replace_commas (Daily.Clicks r);
    let cl := F64.parseInt10 cl_s in
    cv_s ← replace_commas (Daily.Conversions r);
    let cv := F64.parseFloat cv_s in
    let countryData1 :=
      if jhas countryName countryData then countryData
      else jset countryName (Daily.new_stats countryName) countryData in
    let countryData2 := jalter (add_stats sp im cl cv) countryName countryData1 in
    Ok (countryData2, add_totals sp im cl cv tot)
  else Ok st.

Fixpoint loop (lm : gmap string string) (st : jmap Daily.stats * Daily.totals_t)
    (rows : list Daily.row) : result (jmap Daily.stats * Daily.totals_t) :=
  match rows with
  | [] => Ok st
  | r :: rest => st' ← loop_body lm st r; loop lm st' rest
  end.

(** Lines 98-102 *)
Definition with_metrics (c : Daily.stats) : Daily.country :=
  {| Daily.stat := c;
     Daily.ctr := if gt (Daily.impressions c) zero
                  then F64.div (Daily.clicks c) (Daily.impressions c) else zero;
     Daily.cpc := if gt (Daily.clicks c) zero
                  then F64.div (Daily.spend c) (Daily.clicks c) else zero |}.

(** [(a, b) => b.spend - a.spend] *)
Definition by_spend_desc (a b : Daily.country) : num :=
  F64.sub (Daily.spend (Daily.stat b)) (Daily.spend (Daily.stat a)).

(** Lines 31-110: the body of the [try] block.  [locationReport] and
    [report] are what the two calls of [AdsApp.report] give: the rows of the
    report, or the error that the call raises. *)
Definition getCountryData_try (locationReport : result (list Daily.locationRow))
    (report : result (list Daily.row)) : result Daily.report :=
  locationRows ← locationReport;
  let locationMap := Daily.locationMap locationRows in
  rows ← report;
  st ← loop locationMap ([], Daily.zero_totals) rows;
  let countryReport := with_metrics <$> jvalues st.1 in
  Ok {| Daily.countries := sort by_spend_desc countryReport; Daily.totals := st.2 |}.

(** Lines 29-123 *)
Definition getCountryData (locationReport : result (list Daily.locationRow))
    (report : result (list Daily.row)) : M Empty_set Daily.email_html Daily.report :=
  try_catch (lift (getCountryData_try locationReport report))
    (λ e, log ("Error retrieving or processing data: " +:+ e);;
          ret Daily.empty_report).

(** Lines 232-234 *)
Definition formatPercentage (number : num) : option string :=
  toFixed 2 (F64.mul number (of_Z 100)).

End Daily64.

(** ** The country tab of performance-dashboard-exporter.js, with the
       arithmetic of the engine *)

Module Dashboard64.
Import JS Host.

(** Lines 411-416 *)
Definition add_row (r : Dashboard.geoRow) (b : Dashboard.bucket) : Dashboard.bucket :=
  {| Dashboard.clicks :=
       F64.add (Dashboard.clicks b) (or0 (F64.parseInt (toString (Dashboard.m_clicks r))));
     Dashboard.impressions :=
       F64.add (Dashboard.impressions b)
         (or0 (F64.parseInt (toString (Dashboard.m_impressions r))));
     Dashboard.cost :=
       F64.add (Dashboard.cost b)
         (F64.div (or0 (F64.parseFloat (toString (Dashboard.m_cost_micros r))))
                  (of_Z 1000000));
     Dashboard.convValue :=
       F64.add (Dashboard.convValue b)
         (or0 (F64.parseFloat (toString (Dashboard.m_conversions_value r))));
     Dashboard.conversions :=
       F64.add (Dashboard.conversions b)
         (or0 (F64.parseFloat (toString (Dashboard.m_conversions r))));
     Dashboard.allConversions :=
       F64.add (Dashboard.allConversions b)
         (or0 (F64.parseFloat (toString (Dashboard.m_all_conversions r)))) |}.

(** The names of the members of Object.prototype: read on the object
    [countryData], which has no property of its own yet, such a name gives
    the inherited member. *)
Definition Object_prototype : list string :=
  [ "constructor"; "hasOwnProperty"; "isPrototypeOf"; "propertyIsEnumerable";
    "toLocaleString"; "toString"; "valueOf"; "__proto__"; "__defineGetter__";
    "__defineSetter__"; "__lookupGetter__"; "__lookupSetter__" ].

(** Lines 405-417: one turn of the loop, for a row whose label is none
    of these names. *)
Definition loop_body (countryNames : gmap string string)
    (countryData : jmap Dashboard.bucket) (r : Dashboard.geoRow)
    : jmap Dashboard.bucket :=
  let countryName :=
    Dashboard.countryName_of countryNames (Dashboard.country_criterion_id r) in
  let countryData1 :=
    if jhas countryName countryData then countryData
    else jset countryName Dashboard.new_bucket countryData in
  jalter (add_row r) countryName countryData1.

(** Lines 420-426 *)
Definition to_row (kv : string * Dashboard.bucket) : Dashboard.sheetRow :=
  let country := kv.1 in
  let data := kv.2 in
  {| Dashboard.col_country := country;
     Dashboard.col_clicks := Dashboard.clicks data;
     Dashboard.col_impressions := Dashboard.impressions data;
     Dashboard.col_ctr :=
       if gt (Dashboard.impressions data) zero
       then F64.div (Dashboard.clicks data) (Dashboard.impressions data) else zero;
     Dashboard.col_avgCpc :=
       if gt (Dashboard.clicks data) zero
       then F64.div (Dashboard.cost data) (Dashboard.clicks data) else zero;
     Dashboard.col_cost := Dashboard.cost data;
     Dashboard.col_convValue := Dashboard.convValue data;
     Dashboard.col_roas :=
       if gt (Dashboard.cost data) zero
       then F64.div (Dashboard.convValue data) (Dashboard.cost data) else zero;
     Dashboard.col_conversions := Dashboard.conversions data;
     Dashboard.col_costPerConv :=
       if gt (Dashboard.conversions data) zero
       then F64.div (Dashboard.cost data) (Dashboard.conversions data) else zero;
     Dashboard.col_convRate :=
       if gt (Dashboard.clicks data) zero
       then F64.div (Dashboard.conversions data) (Dashboard.clicks data) else zero;
     Dashboard.col_allConversions := Dashboard.allConversions data |}.

(** [(a, b) => b[5] - a[5]] *)
Definition by_cost_desc (a b : Dashboard.sheetRow) : num :=
  F64.sub (Dashboard.col_cost b) (Dashboard.col_cost a).

(** Lines 399-428 of [exportTopCountriesData]: the rows written to the
    Top Countries tab, in the order they are written. *)
Definition exportTopCountriesData (names : list Dashboard.nameRow)
    (report : list Dashboard.geoRow) : list Dashboard.sheetRow :=
  let countryNames := Dashboard.getCountryNames names in
  let countryData := foldl (loop_body countryNames) [] report in
  let rows := to_row <$> Dashboard.for_in countryData in
  sort by_cost_desc rows.

End Dashboard64.

(** ** The new-queries script, with the lower-casing of the host

    [toLowerCase] of the host folds every cased letter of Unicode; the
    function of that name in [JS] folds the letters A to Z and is the host's
    on texts of ASCII characters.  The detection of the new queries uses the
    lower-cased texts only through their equality, so it is given here for
    the lower-casing of the host, whatever it is. *)

Module NewQueries64.
Import JS Host.

Section Host.
(** [s.toLowerCase()] *)
Variable toLowerCase : string → string.

(** Lines 678-689 *)
Definition priorQueries (priorRows : list string) : gset string :=
  foldl (λ s t, s ∪ {[ toLowerCase t ]}) ∅ priorRows.

(** Lines 701-721 *)
Definition to_item (r : NewQueries.yrow) : NewQueries.item :=
  {| NewQueries.query := toLowerCase (NewQueries.search_term r);
     NewQueries.origQuery := NewQueries.search_term r;
     NewQueries.impressions :=
       or0 (F64.parseInt (toString (NewQueries.m_impressions r)));
     NewQueries.clicks := or0 (F64.parseInt (toString (NewQueries.m_clicks r)));
     NewQueries.cost :=
       F64.div (or0 (F64.parseInt (toString (NewQueries.m_cost_micros r))))
         (of_Z 1000000);
     NewQueries.campaignId := NewQueries.campaign_id r;
     NewQueries.campaignName := NewQueries.campaign_name r;
     NewQueries.adGroupId := NewQueries.ad_group_id r;
     NewQueries.adGroupName := NewQueries.ad_group_name r |}.

(** Lines 725-727 *)
Definition newData (priorRows : list string) (yesterdayRows : list NewQueries.yrow)
    : list NewQueries.item :=
  filter (λ it, NewQueries.query it ∉ priorQueries priorRows)
    (to_item <$> yesterdayRows).

End Host.
End NewQueries64.

(** ** Notions used to state the properties of the aggregations *)

Module Spec64.
Import JS Spec.

(** A number of the format is a whole multiple of the least positive
    one (NaN and the infinities are numbers of the format too). *)
Definition on_grid (x : num) : Prop :=
  match x with Fin q => ∃ K, q = F64.of_units K | _ => True end.

(** The sum of a list of numbers as a loop [s += x] computes it from 0:
    one addition after the other, each of them rounded *)
Definition fsum (l : list num) : num := foldl F64.add zero l.

(** That sum of counter [f] over the records filed under key [k], taken
    in their order *)
Definition key_fsum {R} (key : R → string) (f : R → num) (k : string)
    (rs : list R) : num :=
  fsum (f <$> filter (λ r, key r = k) rs).

(** What one row of the daily report adds: nothing when its cost is not
    positive, and an exception when a cell that is read is missing. *)
Definition contribution (lm : gmap string string) (r : Daily.row)
    : result (option Daily.stats) :=
  cost ← replace_commas (Daily.Cost r);
  let sp := F64.parseFloat cost in
  if gt sp zero then
    im_s ← replace_commas (Daily.Impressions r);
    cl_s ← replace_commas (Daily.Clicks r);
    cv_s ← replace_commas (Daily.Conversions r);
    Ok (Some {| Daily.name := Daily.countryName_of lm (Daily.CriteriaId r);
                Daily.spend := sp;
                Daily.impressions := F64.parseInt10 im_s;
                Daily.clicks := F64.parseInt10 cl_s;
                Daily.conversions := F64.parseFloat cv_s |})
  else Ok None.

(** The accepted rows of the daily report, each with the four numbers
    that it adds *)
Fixpoint contributions (lm : gmap string string) (rows : list Daily.row)
    : result (list Daily.stats) :=
  match rows with
  | [] => Ok []
  | r :: rest =>
      c ← contribution lm r;
      cs ← contributions lm rest;
      Ok (match c with Some s => s :: cs | None => cs end)
  end.

Definition upd_stats (s b : Daily.stats) : Daily.stats :=
  Daily64.add_stats (Daily.spend s) (Daily.impressions s) (Daily.clicks s)
    (Daily.conversions s) b.

Definition tot_step (t : Daily.totals_t) (s : Daily.stats) : Daily.totals_t :=
  Daily64.add_totals (Daily.spend s) (Daily.impressions s) (Daily.clicks s)
    (Daily.conversions s) t.

(** The bucket of country [k] after the accepted rows [cs] *)
Definition bucket_of (cs : list Daily.stats) (k : string) : Daily.stats :=
  group_value Daily.name Daily.new_stats upd_stats k cs.

(** A row of the daily report at which the loop ends with an exception:
    its Cost cell is missing, or its cost is greater than 0 and one of the
    three other cells that are then read is missing. *)
Definition unreadable (r : Daily.row) : bool :=
  match Daily.Cost r with
  | None => true
  | Some c =>
      gt (F64.parseFloat (remove_commas c)) zero
      && match Daily.Impressions r, Daily.Clicks r, Daily.Conversions r with
         | Some _, Some _, Some _ => false
         | _, _, _ => true
         end
  end.

(** What a row of the geographic report adds to the six counters of its
    bucket *)
Definition clicks_of (r : Dashboard.geoRow) : num :=
  or0 (F64.parseInt (toString (Dashboard.m_clicks r))).

Definition impressions_of (r : Dashboard.geoRow) : num :=
  or0 (F64.parseInt (toString (Dashboard.m_impressions r))).

Definition cost_of (r : Dashboard.geoRow) : num :=
  F64.div (or0 (F64.parseFloat (toString (Dashboard.m_cost_micros r)))) (of_Z 1000000).

Definition convValue_of (r : Dashboard.geoRow) : num :=
  or0 (F64.parseFloat (toString (Dashboard.m_conversions_value r))).

Definition conversions_of (r : Dashboard.geoRow) : num :=
  or0 (F64.parseFloat (toString (Dashboard.m_conversions r))).

Definition allConversions_of (r : Dashboard.geoRow) : num :=
  or0 (F64.parseFloat (toString (Dashboard.m_all_conversions r))).

(** The bucket of label [k] after the rows of the report *)
Definition dashboard_bucket (names : list Dashboard.nameRow)
    (report : list Dashboard.geoRow) (k : string) : Dashboard.bucket :=
  {| Dashboard.clicks := key_fsum (label_of names) clicks_of k report;
     Dashboard.impressions := key_fsum (label_of names) impressions_of k report;
     Dashboard.cost := key_fsum (label_of names) cost_of k report;
     Dashboard.convValue := key_fsum (label_of names) convValue_of k report;
     Dashboard.conversions := key_fsum (label_of names) conversions_of k report;
     Dashboard.allConversions := key_fsum (label_of names) allConversions_of k report |}.

(** The rows of the geographic report are ordinary when no criterion id
    and no label is the name of a member of Object.prototype. *)
Definition ordinary (names : list Dashboard.nameRow) (report : list Dashboard.geoRow)
    : Prop :=
  Forall (λ r, (Dashboard.country_criterion_id r ∉ Dashboard64.Object_prototype)
               ∧ (label_of names r ∉ Dashboard64.Object_prototype)) report.



(** The whole number that a number is, if it is one *)
Definition whole (x : num) : option Z :=
  match x with
  | Fin q => if decide (Qden q = 1%positive) then Some (Qnum q) else None
  | _ => None
  end.

(** The sum of the sizes of the numbers of a list, if they are whole *)
Fixpoint abs_total (l : list num) : option Z :=
  match l with
  | [] => Some 0%Z
  | x :: rest => z ← whole x; t ← abs_total rest; Some (Z.abs z + t)%Z
  end.

(** The counts of a list are small when they are whole numbers whose
    sizes add up to [2^53] at most: their sums are then exact. *)
Definition small_counts (l : list num) : bool :=
  match abs_total l with Some t => (t <=? 2 ^ 53)%Z | None => false end.

(** The relative error that [n] rounded additions can add up to:
    [(1 + 2^-53)^n - 1] *)
Definition rounding (n : nat) : Qc := ((1 + Q2Qc (1 # 2 ^ 53)) ^ n - 1)%Qc.

(** [x] and [y] differ by [t * a] at most. *)
Definition within (t : Qc) (a x y : num) : Prop :=
  le (abs (sub x y)) (mul (Fin t) a).

(** A total [t] that a loop computes over the numbers [l] and the sum [b]
    of the buckets agree up to rounding, over [n] additions: each is within
    [rounding n] times the sum of the sizes of the numbers of their exact
    sum, so that the two are within twice as much of each other. *)
Definition agree (n : nat) (l : list num) (t b : num) : Prop :=
  let a := sum_nums (abs <$> l) in
  within (rounding n) a t (sum_nums l)
  ∧ within (rounding n) a b (sum_nums l)
  ∧ within (rounding n) (add a a) b t.

(** The number of units of a finite number of the format *)
Definition to_units (x : num) : Z :=
  match x with
  | Fin q => (Qnum q * F64.denom / Zpos (Qden q))%Z
  | _ => 0%Z
  end.

(** The sum of a list of whole numbers *)
Definition zsum (l : list Z) : Z := foldr Z.add 0%Z l.

(** [e <= rounding n * a], for whole numbers [a] and [e] *)
Definition small (n : nat) (a e : Z) : Prop :=
  ((2 ^ 53) ^ Z.of_nat n * e
   ≤ ((2 ^ 53 + 1) ^ Z.of_nat n - (2 ^ 53) ^ Z.of_nat n) * a)%Z.

End Spec64.

(** * Properties *)

Import JS Host Spec.

(** ** Arithmetic of [num] *)

Lemma Qc_ltb_lt (a b : Qc) : Qc_ltb a b = true ↔ (a < b)%Qc.
Proof.
  unfold Qc_ltb. rewrite Qclt_alt.
  destruct (a ?= b)%Qc; split; congruence.
Qed.

Lemma Qc_ltb_nlt (a b : Qc) : Qc_ltb a b = false ↔ (b <= a)%Qc.
Proof.
  rewrite <- not_true_iff_false, Qc_ltb_lt. split.
  - apply Qcnot_lt_le.
  - apply Qcle_not_lt.
Qed.

Lemma Qc_ltb_irrefl (a : Qc) : Qc_ltb a a = false.
Proof. apply Qc_ltb_nlt, Qcle_refl. Qed.

Lemma add_comm (x y : num) : add x y = add y x.
Proof. destruct x, y; simpl; try reflexivity. f_equal. ring. Qed.

Lemma add_assoc (x y z : num) : add x (add y z) = add (add x y) z.
Proof. destruct x, y, z; simpl; try reflexivity. f_equal. ring. Qed.

Lemma add_zero_l (x : num) : add zero x = x.
Proof. destruct x; simpl; try reflexivity. f_equal. ring. Qed.

Lemma add_zero_r (x : num) : add x zero = x.
Proof. rewrite add_comm. apply add_zero_l. Qed.

(** The comparator [b - a] is positive exactly when [b > a]. *)
Lemma gt_sub_zero (x y : num) : gt (sub y x) zero = gt y x.
Proof.
  destruct x as [a| | |], y as [b| | |]; simpl; try reflexivity.
  apply eq_true_iff_eq. rewrite !Qc_ltb_lt.
  rewrite (Qclt_minus_iff a b). reflexivity.
Qed.

Lemma not_gt_le (x y : num) :
  is_nan x = false → is_nan y = false → gt x y = false → le x y.
Proof.
  destruct x, y; simpl; try done.
  intros _ _. apply Qc_ltb_nlt.
Qed.

Lemma le_not_gt (x y : num) : le x y → gt x y = false.
Proof.
  destruct x, y; simpl; try done.
  apply Qc_ltb_nlt.
Qed.

Lemma le_trans (x y z : num) : le x y → le y z → le x z.
Proof.
  destruct x, y, z; simpl; try done.
  apply Qcle_trans.
Qed.

Lemma gt_asym (x y : num) : gt x y = true → gt y x = false.
Proof.
  destruct x, y; simpl; try done.
  rewrite Qc_ltb_lt, Qc_ltb_nlt. apply Qclt_le_weak.
Qed.

Lemma gt_irrefl (x : num) : gt x x = false.
Proof. destruct x; simpl; try done. apply Qc_ltb_irrefl. Qed.

Lemma gt_le (x y : num) : gt x y = true → le y x.
Proof.
  destruct x, y; simpl; try done.
  rewrite Qc_ltb_lt. apply Qclt_le_weak.
Qed.


Lemma gt_zero_add (x y : num) :
  gt x zero = true → gt y zero = true → gt (add x y) zero = true.
Proof.
  destruct x as [a| | |], y as [b| | |]; simpl; try done.
  rewrite !Qc_ltb_lt. apply Qcplus_pos_pos.
Qed.


Lemma gt_total_fin (x y : num) :
  is_fin x = true → is_fin y = true → x ≠ y → gt x y = false → gt y x = true.
Proof.
  destruct x as [a| | |], y as [b| | |]; try done. intros _ _ Hne. simpl.
  rewrite Qc_ltb_nlt, Qc_ltb_lt. intros Hle.
  destruct (Qcle_lt_or_eq _ _ Hle) as [?| ->]; [done | congruence].
Qed.


Lemma sub_fin_zero (x y : num) :
  is_fin x = true → is_fin y = true → sub y x = zero ↔ x = y.
Proof.
  destruct x as [a| | |], y as [b| | |]; try done. intros _ _.
  unfold sub, zero. cbn [add neg]. split.
  - intros H.
    apply (f_equal (λ x, match x with Fin q => q | _ => 0%Qc end)) in H.
    cbv beta iota in H. f_equal.
    transitivity ((b + - a) + a)%Qc; [rewrite H|]; ring.
  - intros H.
    apply (f_equal (λ x, match x with Fin q => q | _ => 0%Qc end)) in H.
    cbv beta iota in H. subst. f_equal. ring.
Qed.



Lemma sum_nums_app (l1 l2 : list num) :
  sum_nums (l1 ++ l2) = add (sum_nums l1) (sum_nums l2).
Proof.
  unfold sum_nums. induction l1 as [|x l1 IH]; cbn [foldr app].
  - by rewrite add_zero_l.
  - by rewrite IH, add_assoc.
Qed.

Lemma sum_nums_perm (l1 l2 : list num) : l1 ≡ₚ l2 → sum_nums l1 = sum_nums l2.
Proof.
  induction 1 as [|x l1 l2 _ IH|x y l|l1 l2 l3 _ IH1 _ IH2];
    unfold sum_nums in *; cbn [foldr].
  - done.
  - by rewrite IH.
  - by rewrite !add_assoc, (add_comm x y).
  - by rewrite IH1.
Qed.

Lemma is_fin_not_nan (x : num) : is_fin x = true → is_nan x = false.
Proof. by destruct x. Qed.


Lemma sum_nums_positive (l : list num) :
  l ≠ [] → Forall (λ x, gt x zero = true) l → gt (sum_nums l) zero = true.
Proof.
  intros Hne Hl. induction Hl as [|x l Hx Hl IH]; [done|].
  unfold sum_nums. cbn [foldr]. destruct l as [|y l].
  - cbn [foldr]. by rewrite add_zero_r.
  - apply gt_zero_add; [done|]. by apply IH.
Qed.

(** ** Insertion-ordered maps *)

Section JmapFacts.
Context {V : Type}.
Implicit Types (m : jmap V) (k : string) (ks : list string).

Lemma jget_None k m : jget k m = None ↔ k ∉ jkeys m.
Proof.
  unfold jkeys. induction m as [|[k' v] m IH]; simpl.
  - split; [intros _; apply not_elem_of_nil | done].
  - rewrite not_elem_of_cons. destruct (decide (k' = k)) as [->|Hne].
    + split; [done | intros [? _]; done].
    + rewrite IH. split; [intros ?; split; [congruence | done] | by intros [_ ?]].
Qed.

Lemma jhas_keys k m : jhas k m = true ↔ k ∈ jkeys m.
Proof.
  unfold jhas. destruct (jget k m) eqn:E.
  - split; [intros _ | done].
    destruct (decide (k ∈ jkeys m)) as [|Hn]; [done|].
    apply jget_None in Hn. congruence.
  - apply jget_None in E. split; [done | intros; done].
Qed.

Lemma jhas_false k m : jhas k m = false ↔ k ∉ jkeys m.
Proof. rewrite <- jhas_keys. by destruct (jhas k m). Qed.

Lemma jkeys_jalter f k m : jkeys (jalter f k m) = jkeys m.
Proof.
  unfold jkeys. induction m as [|[k' v] m IH]; simpl; [done|].
  destruct (decide (k' = k)); simpl; [done | by f_equal].
Qed.

Lemma jalter_app_notin f k m1 m2 :
  k ∉ jkeys m1 → jalter f k (m1 ++ m2) = m1 ++ jalter f k m2.
Proof.
  unfold jkeys. induction m1 as [|[k' v] m1 IH]; simpl; [done|].
  rewrite not_elem_of_cons. intros [Hne Hn].
  destruct (decide (k' = k)); [congruence | by rewrite IH].
Qed.

Lemma jkeys_fmap (g : string → V) ks : jkeys ((λ k, (k, g k)) <$> ks) = ks.
Proof.
  unfold jkeys. rewrite <- list_fmap_compose. simpl.
  induction ks; simpl; [done | by f_equal].
Qed.

Lemma jalter_fmap (g : string → V) f k0 ks :
  NoDup ks →
  jalter f k0 ((λ k, (k, g k)) <$> ks)
  = (λ k, (k, if decide (k = k0) then f (g k) else g k)) <$> ks.
Proof.
  induction 1 as [|k ks Hk _ IH]; simpl; [done|].
  destruct (decide (k = k0)) as [Heq|Hne].
  - f_equal. apply list_fmap_ext. intros i k' Hin.
    destruct (decide (k' = k0)) as [Heq'|]; [|done].
    exfalso. apply Hk. subst. by eapply list_elem_of_lookup_2.
  - f_equal. apply IH.
Qed.

Lemma jget_fmap (g : string → V) k ks :
  jget k ((λ k, (k, g k)) <$> ks) = if decide (k ∈ ks) then Some (g k) else None.
Proof.
  induction ks as [|k' ks IH]; csimpl; [done|].
  destruct (decide (k' = k)) as [->|Hne].
  - rewrite decide_True; [done | left].
  - rewrite IH. destruct (decide (k ∈ ks)).
    + rewrite decide_True; [done | by right].
    + rewrite decide_False; [done|]. rewrite not_elem_of_cons. split; [congruence|done].
Qed.
End JmapFacts.


Lemma jhas_jset {V} k (v : V) (m : jmap V) : jhas k (jset k v m) = true.
Proof.
  apply jhas_keys. unfold jset. destruct (jhas k m) eqn:E.
  - rewrite jkeys_jalter. by apply jhas_keys.
  - unfold jkeys. rewrite fmap_app. apply elem_of_app. right. by left.
Qed.

(** ** Keys in the order of their first appearance *)

Lemma first_occ_elem (k : string) (l : list string) : k ∈ first_occ l ↔ k ∈ l.
Proof.
  induction l as [|a l IH]; simpl; [done|].
  rewrite !elem_of_cons, list_elem_of_filter, IH.
  destruct (decide (k = a)); tauto.
Qed.

Lemma first_occ_NoDup (l : list string) : NoDup (first_occ l).
Proof.
  induction l as [|a l IH]; simpl; [constructor|].
  constructor.
  - rewrite list_elem_of_filter. intros [? _]. done.
  - by apply NoDup_filter.
Qed.

Lemma first_occ_snoc (l : list string) (k : string) :
  first_occ (l ++ [k]) = if decide (k ∈ l) then first_occ l else first_occ l ++ [k].
Proof.
  induction l as [|a l IH]; simpl; [done|].
  rewrite IH.
  destruct (decide (k ∈ l)) as [Hl|Hl]; destruct (decide (k ∈ a :: l)) as [Hal|Hal].
  - done.
  - exfalso. apply Hal. by right.
  - apply elem_of_cons in Hal as [->|?]; [|done].
    rewrite filter_app, filter_cons_False, filter_nil, app_nil_r; [done | intros ?; done].
  - rewrite not_elem_of_cons in Hal. destruct Hal.
    by rewrite filter_app, filter_cons_True, filter_nil.
Qed.


(** ** Grouping by key *)

Section Grouping.
Context {R V : Type} (key : R → string) (init : string → V) (upd : R → V → V).

Lemma group_value_snoc k rs r :
  group_value key init upd k (rs ++ [r])
  = if decide (key r = k) then upd r (group_value key init upd k rs)
    else group_value key init upd k rs.
Proof.
  unfold group_value. rewrite filter_app.
  destruct (decide (key r = k)).
  - by rewrite filter_cons_True, filter_nil, foldl_snoc.
  - by rewrite filter_cons_False, filter_nil, app_nil_r.
Qed.

Lemma group_value_absent k rs :
  k ∉ key <$> rs → group_value key init upd k rs = init k.
Proof.
  intros Hk. unfold group_value.
  replace (filter (λ r, key r = k) rs) with (@nil R); [done|].
  symmetry. induction rs as [|r rs IH]; [done|].
  rewrite fmap_cons, not_elem_of_cons in Hk. destruct Hk as [Hne Hk].
  rewrite filter_cons_False by congruence. by apply IH.
Qed.

(** The map built by the loop, in closed form: one entry per key, in the
    order of first appearance, holding the fold of the key's records. *)
Lemma agg_closed_form (rs : list R) :
  foldl (agg_step key init upd) [] rs
  = (λ k, (k, group_value key init upd k rs)) <$> first_occ (key <$> rs).
Proof.
  induction rs as [|r rs IH] using rev_ind; [done|].
  rewrite foldl_snoc, IH, fmap_app. simpl. rewrite first_occ_snoc.
  unfold agg_step.
  destruct (decide (key r ∈ key <$> rs)) as [Hin|Hin].
  - rewrite (proj2 (jhas_keys _ _)) by (rewrite jkeys_fmap; by apply first_occ_elem).
    rewrite jalter_fmap by apply first_occ_NoDup.
    apply list_fmap_ext. intros i k _. f_equal.
    rewrite group_value_snoc.
    destruct (decide (k = key r)) as [->|]; [by rewrite decide_True|].
    by rewrite decide_False.
  - assert (key r ∉ first_occ (key <$> rs)) as Hin' by (by rewrite first_occ_elem).
    rewrite (proj2 (jhas_false _ _)) by (by rewrite jkeys_fmap).
    unfold jset. rewrite (proj2 (jhas_false _ _)) by (by rewrite jkeys_fmap).
    rewrite jalter_app_notin by (by rewrite jkeys_fmap). simpl.
    rewrite decide_True by done. rewrite fmap_app. simpl. f_equal.
    + apply list_fmap_ext. intros i k Hk. f_equal.
      rewrite group_value_snoc, decide_False; [done|].
      intros Heq. apply Hin'. rewrite Heq. by eapply list_elem_of_lookup_2.
    + rewrite group_value_snoc, decide_True by done.
      by rewrite group_value_absent.
Qed.
End Grouping.

Lemma agg_step_keys {R V} (key : R → string) (init : string → V)
    (upd : R → V → V) (m : jmap V) (r : R) :
  jkeys (agg_step key init upd m r)
  = if jhas (key r) m then jkeys m else jkeys m ++ [key r].
Proof.
  unfold agg_step. rewrite jkeys_jalter.
  destruct (jhas (key r) m) eqn:E; [done|].
  unfold jset. rewrite E. unfold jkeys. by rewrite fmap_app.
Qed.

(** ** Sorting *)

Section SortFacts.
Context {A : Type} (cmp : A → A → num).

Lemma insert_perm x l : insert cmp x l ≡ₚ x :: l.
Proof.
  induction l as [|y l IH]; simpl; [done|].
  destruct (after cmp x y); [|done].
  by rewrite IH, Permutation_swap.
Qed.

Lemma sort_perm l : sort cmp l ≡ₚ l.
Proof.
  induction l as [|x l IH]; simpl; [done|].
  by rewrite insert_perm, IH.
Qed.

Lemma sort_elem x l : x ∈ sort cmp l ↔ x ∈ l.
Proof. by rewrite sort_perm. Qed.

Lemma sort_nil_inv l : sort cmp l = [] → l = [].
Proof. intros H. apply Permutation_nil_r. by rewrite <- H, sort_perm. Qed.


(** An element is never moved past one it is tied with. *)
Lemma insert_filter (P : A → Prop) `{!∀ x, Decision (P x)} x l :
  (P x → ∀ y, y ∈ l → P y → after cmp x y = false) →
  filter P (insert cmp x l) = filter P (x :: l).
Proof.
  induction l as [|y l IH]; intros Hx; simpl; [done|].
  destruct (after cmp x y) eqn:E; [|done].
  rewrite filter_cons, IH by (intros ? z ? ?; apply Hx; [done | by right | done]).
  rewrite !(filter_cons _ x), !(filter_cons _ y).
  destruct (decide (P x)) as [Px|]; [|done].
  destruct (decide (P y)) as [Py|]; [|done].
  rewrite Hx in E; [done | done | left | done].
Qed.

(** Stability: the elements of a class whose members are tied with one
    another keep their order. *)
Lemma sort_stable (P : A → Prop) `{!∀ x, Decision (P x)} l :
  (∀ x y, x ∈ l → y ∈ l → P x → P y → after cmp x y = false) →
  filter P (sort cmp l) = filter P l.
Proof.
  induction l as [|x l IH]; intros Hl; simpl; [done|].
  rewrite insert_filter.
  - rewrite !(filter_cons _ x), IH; [done|].
    intros a b ? ?. apply Hl; by right.
  - intros Px y Hy Py. apply Hl; [left | right; by apply sort_elem | done | done].
Qed.

Section Sorted.
Context (R : relation A) (dom : A → Prop).
Hypothesis R_trans : ∀ a b c, R a b → R b c → R a c.
Hypothesis R_stay : ∀ a b, dom a → dom b → after cmp a b = false → R a b.
Hypothesis R_move : ∀ a b, dom a → dom b → after cmp a b = true → R b a.

Lemma insert_sorted x l :
  dom x → Forall dom l → StronglySorted R l → StronglySorted R (insert cmp x l).
Proof.
  intros Hx Hd Hs. induction Hs as [|y l Hs IH Hy]; simpl.
  - repeat constructor.
  - apply Forall_cons in Hd as [Hdy Hd].
    destruct (after cmp x y) eqn:E.
    + constructor; [by apply IH|].
      rewrite insert_perm. constructor; [by apply R_move | done].
    + constructor; [by constructor|].
      constructor; [by apply R_stay|].
      eapply Forall_impl; [exact Hy|]. intros z Hz. simpl in Hz.
      eapply R_trans; [|exact Hz]. by apply R_stay.
Qed.

Lemma sort_sorted l : Forall dom l → StronglySorted R (sort cmp l).
Proof.
  induction 1 as [|x l Hx Hl IH]; simpl; [constructor|].
  apply insert_sorted; [done | by rewrite sort_perm | done].
Qed.
End Sorted.
End SortFacts.

(** Sorting with [(a, b) => key(b) - key(a)] puts a list whose keys are
    numbers in descending order of the key. *)
Lemma sort_desc_sorted {A} (key : A → num) (l : list A) :
  Forall (λ a, is_nan (key a) = false) l →
  descending key (sort (λ a b, sub (key b) (key a)) l).
Proof.
  intros Hl. unfold descending.
  apply (sort_sorted _ _ (λ a, is_nan (key a) = false)); [| | |done].
  - intros a b c Hab Hbc. by eapply le_trans.
  - intros a b Ha Hb. unfold after. rewrite gt_sub_zero. by apply not_gt_le.
  - intros a b Ha Hb. unfold after. rewrite gt_sub_zero. apply gt_le.
Qed.

(** ... and leaves the elements that have the same key in their order. *)
Lemma sort_desc_stable {A} (key : A → num) (v : num) (l : list A) :
  filter (λ a, key a = v) (sort (λ a b, sub (key b) (key a)) l)
  = filter (λ a, key a = v) l.
Proof.
  apply sort_stable. intros x y _ _ Hx Hy.
  unfold after. rewrite gt_sub_zero, Hx, Hy. apply gt_irrefl.
Qed.

(** Sums over the values of a map built by grouping *)

Section GroupSums.
Context {R V : Type} (key : R → string) (init : string → V) (upd : R → V → V).
Context (p : V → num) (f : R → num).
Hypothesis p_init : ∀ k, p (init k) = zero.
Hypothesis p_upd : ∀ r v, p (upd r v) = add (p v) (f r).

Lemma group_value_sum k rs :
  p (group_value key init upd k rs) = key_sum key f k rs.
Proof.
  unfold group_value, key_sum.
  generalize (filter (λ r, key r = k) rs). intros l.
  rewrite <- (add_zero_l (sum_nums (f <$> l))), <- (p_init k).
  generalize (init k). induction l as [|r l IH]; intros v; cbn [foldl].
  - by rewrite add_zero_r.
  - rewrite IH, p_upd, fmap_cons. unfold sum_nums. cbn [foldr].
    by rewrite add_assoc.
Qed.

End GroupSums.

(** Sums of the records of one key *)

Lemma key_sum_positive {R} (key : R → string) (f : R → num) k rs :
  Forall (λ r, gt (f r) zero = true) rs → k ∈ key <$> rs →
  gt (key_sum key f k rs) zero = true.
Proof.
  intros Hpos Hk. unfold key_sum. apply sum_nums_positive.
  - apply list_elem_of_fmap in Hk as (r & -> & Hr).
    intros Hnil. apply fmap_nil_inv in Hnil.
    assert (r ∈ filter (λ r0, key r0 = key r) rs) as Hin
      by (by apply list_elem_of_filter).
    rewrite Hnil in Hin. by apply elem_of_nil in Hin.
  - apply Forall_fmap. apply Forall_forall. intros r Hr%list_elem_of_filter.
    rewrite Forall_forall in Hpos. apply Hpos, Hr.
Qed.


(** ** The daily country mail *)

Lemma daily_loop_spec lm cd tot rows :
  Daily.loop lm (cd, tot) rows
  = cs ← contributions lm rows;
    Ok (foldl (agg_step Daily.name Daily.new_stats upd_stats) cd cs,
        foldl tot_step tot cs).
Proof.
  revert cd tot. induction rows as [|r rows IH]; intros cd tot; [done|].
  cbn [Daily.loop contributions].
  unfold Daily.loop_body, contribution.
  destruct (Daily.Cost r) as [c|]; [|done]. cbn.
  destruct (gt (parseFloat (remove_commas c)) zero); cbn.
  - destruct (Daily.Impressions r) as [im|]; [|done]. cbn.
    destruct (Daily.Clicks r) as [cl|]; [|done]. cbn.
    destruct (Daily.Conversions r) as [cv|]; [|done]. cbn.
    rewrite IH. by destruct (contributions lm rows).
  - rewrite IH. by destruct (contributions lm rows).
Qed.

Lemma bucket_of_spend cs k :
  Daily.spend (bucket_of cs k) = key_sum Daily.name Daily.spend k cs.
Proof. by apply group_value_sum. Qed.

(** What [getCountryData] computes, in terms of the accepted rows *)
Lemma daily_try_spec locs rows :
  Daily.getCountryData_try locs rows
  = cs ← contributions (Daily.locationMap locs) rows;
    Ok {| Daily.countries :=
            sort Daily.by_spend_desc
              (Daily.with_metrics <$> (bucket_of cs <$> first_occ (Daily.name <$> cs)));
          Daily.totals := foldl tot_step Daily.zero_totals cs |}.
Proof.
  unfold Daily.getCountryData_try. rewrite daily_loop_spec.
  destruct (contributions _ rows) as [cs|e]; [|done]. cbn.
  rewrite agg_closed_form. unfold jvalues.
  rewrite <- !list_fmap_compose. done.
Qed.

Lemma daily_run locs rows (w : world Empty_set Daily.email_html) :
  Daily.getCountryData locs rows w
  = match Daily.getCountryData_try locs rows with
    | Ok rep => (Ok rep, w)
    | Throw e =>
        (Ok Daily.empty_report,
         {| logs := logs w ++ ["Error retrieving or processing data: " +:+ e];
            sheet := sheet w; outbox := outbox w |})
    end.
Proof.
  unfold Daily.getCountryData, try_catch, lift.
  by destruct (Daily.getCountryData_try locs rows).
Qed.

Lemma contribution_positive lm r s :
  contribution lm r = Ok (Some s) → gt (Daily.spend s) zero = true.
Proof.
  unfold contribution. destruct (Daily.Cost r) as [c|]; [|done]. cbn.
  destruct (gt (parseFloat (remove_commas c)) zero) eqn:E; [|done]. cbn.
  destruct (Daily.Impressions r); [|done]. cbn.
  destruct (Daily.Clicks r); [|done]. cbn.
  destruct (Daily.Conversions r); [|done]. cbn.
  by intros [= <-].
Qed.

Lemma contributions_positive lm rows cs :
  contributions lm rows = Ok cs →
  Forall (λ s, gt (Daily.spend s) zero = true) cs.
Proof.
  revert cs. induction rows as [|r rows IH]; intros cs; cbn [contributions].
  - intros [= <-]. constructor.
  - destruct (contribution lm r) as [o|] eqn:Er; [|done]. cbn.
    destruct (contributions lm rows) as [cs'|]; [|done]. cbn.
    intros [= <-]. destruct o as [s|]; [|by apply IH].
    constructor; [by eapply contribution_positive | by apply IH].
Qed.

Lemma contributions_app lm l1 l2 :
  contributions lm (l1 ++ l2)
  = cs1 ← contributions lm l1; cs2 ← contributions lm l2; Ok (cs1 ++ cs2).
Proof.
  induction l1 as [|r l1 IH]; cbn [contributions app].
  - cbn. by destruct (contributions lm l2).
  - rewrite IH. destruct (contribution lm r) as [o|]; [|done]. cbn.
    destruct (contributions lm l1); [|done]. cbn.
    destruct (contributions lm l2); [|done]. cbn. by destruct o.
Qed.

Lemma daily_buckets_positive cs k :
  Forall (λ s, gt (Daily.spend s) zero = true) cs →
  k ∈ first_occ (Daily.name <$> cs) →
  gt (Daily.spend (bucket_of cs k)) zero = true.
Proof.
  intros Hpos Hk. rewrite bucket_of_spend.
  apply key_sum_positive; [done | by apply first_occ_elem].
Qed.

(** ** The country tab of the dashboard *)

Lemma for_in_perm {V} (o : list (string * V)) : Dashboard.for_in o ≡ₚ o.
Proof.
  unfold Dashboard.for_in. rewrite sort_perm.
  rewrite <- (filter_app_complement (λ kv, Dashboard.is_index kv.1 = true) o) at 3.
  apply Permutation_app; [done|].
  erewrite list_filter_iff; [done|].
  intros kv. cbn. destruct (Dashboard.is_index kv.1); split; congruence.
Qed.




Lemma or0_parseInt_fin (auto : bool) (s : string) :
  is_fin (or0 (parseInt_radix auto s)) = true.
Proof.
  unfold parseInt_radix.
  destruct (take_sign _) as [sgn s2].
  destruct (if auto then strip_0x s2 else (false, s2)) as [hex s3].
  destruct (if hex then _ else _) as [[v n] rest].
  destruct n; [done|].
  unfold or0, of_Z. by destruct (truthy _).
Qed.

(** ** The new-search-queries script *)

Lemma clicks_fin (r : NewQueries.yrow) :
  is_fin (NewQueries.clicks (NewQueries.to_item r)) = true.
Proof. apply or0_parseInt_fin. Qed.

Lemma newData_clicks_fin prior rows it :
  it ∈ NewQueries.newData prior rows → is_fin (NewQueries.clicks it) = true.
Proof.
  unfold NewQueries.newData. intros [_ Hit]%list_elem_of_filter.
  apply list_elem_of_fmap in Hit as (r & -> & _). apply clicks_fin.
Qed.

Lemma sortedNewData_perm prior rows :
  NewQueries.sortedNewData prior rows ≡ₚ NewQueries.newData prior rows.
Proof. apply sort_perm. Qed.

Lemma emailData_elem prior rows it :
  it ∈ NewQueries.emailData prior rows
  ↔ it ∈ NewQueries.newData prior rows ∧ gt (NewQueries.clicks it) zero = true.
Proof.
  unfold NewQueries.emailData.
  rewrite list_elem_of_filter, sortedNewData_perm. tauto.
Qed.


(** *** The grouping by campaign *)

Lemma jset_get_alter (F : num → num) k (m : jmap num) :
  jhas k m = true → jset k (F (NewQueries.get_num k m)) m = jalter F k m.
Proof.
  intros Hhas. unfold jset. rewrite Hhas. unfold NewQueries.get_num.
  clear Hhas. induction m as [|[k' v] m IH]; simpl; [done|].
  destruct (decide (k' = k)); [done|]. by rewrite <- IH.
Qed.

Lemma group_step_agg (a : jmap (list NewQueries.item)) (t : jmap num) it :
  jkeys a = jkeys t →
  NewQueries.group_step (a, t) it = (items_step a it, totals_step t it).
Proof.
  intros Hk. unfold NewQueries.group_step, items_step, totals_step, agg_step.
  cbn [fst snd].
  assert (jhas (NewQueries.campaignName it) t = jhas (NewQueries.campaignName it) a)
    as Hhas.
  { apply eq_true_iff_eq. rewrite !jhas_keys. by rewrite Hk. }
  rewrite Hhas.
  destruct (jhas (NewQueries.campaignName it) a) eqn:E; cbn [fst snd]; f_equal.
  - apply (jset_get_alter (λ v, add v (NewQueries.clicks it))). by rewrite Hhas.
  - apply (jset_get_alter (λ v, add v (NewQueries.clicks it))). apply jhas_jset.
Qed.

Lemma group_fold (E : list NewQueries.item) a t :
  jkeys a = jkeys t →
  foldl NewQueries.group_step (a, t) E = (foldl items_step a E, foldl totals_step t E).
Proof.
  revert a t. induction E as [|it E IH]; intros a t Hk; [done|].
  cbn [foldl]. rewrite group_step_agg by done. apply IH.
  unfold items_step, totals_step. rewrite !agg_step_keys.
  assert (jhas (NewQueries.campaignName it) t = jhas (NewQueries.campaignName it) a)
    as ->.
  { apply eq_true_iff_eq. rewrite !jhas_keys. by rewrite Hk. }
  by rewrite Hk.
Qed.

Lemma foldl_snoc_id {A} (acc l : list A) : foldl (λ l x, l ++ [x]) acc l = acc ++ l.
Proof.
  revert acc. induction l as [|x l IH]; intros acc; cbn [foldl].
  - by rewrite app_nil_r.
  - by rewrite IH, <- app_assoc.
Qed.

Lemma items_closed_form (E : list NewQueries.item) :
  foldl items_step [] E
  = (λ c, (c, filter (λ it, NewQueries.campaignName it = c) E))
      <$> first_occ (NewQueries.campaignName <$> E).
Proof.
  unfold items_step. rewrite agg_closed_form.
  apply list_fmap_ext. intros i c _. f_equal.
  unfold group_value. apply (foldl_snoc_id []).
Qed.


Lemma grouped_spec lc (E : list NewQueries.item) :
  NewQueries.grouped lc E
  = (λ c, (c, sort NewQueries.by_clicks_desc
                (filter (λ it, NewQueries.campaignName it = c) E)))
      <$> sort (NewQueries.by_total_then_name lc (foldl totals_step [] E))
            (first_occ (NewQueries.campaignName <$> E)).
Proof.
  unfold NewQueries.grouped. rewrite group_fold by done. cbn [fst snd].
  rewrite items_closed_form, jkeys_fmap.
  apply list_fmap_ext. intros i c Hc. f_equal. f_equal.
  rewrite jget_fmap, decide_True; [done|].
  apply list_elem_of_lookup_2 in Hc. by apply sort_elem in Hc.
Qed.


Lemma grouped_items lc (E : list NewQueries.item) it :
  it ∈ mjoin (NewQueries.grouped lc E).*2 ↔ it ∈ E.
Proof.
  rewrite grouped_spec, <- list_fmap_compose, list_elem_of_join. split.
  - intros (l & Hit & Hl). apply list_elem_of_fmap in Hl as (c & -> & _).
    cbn in Hit. apply sort_elem, list_elem_of_filter in Hit. tauto.
  - intros Hit.
    exists (sort NewQueries.by_clicks_desc
              (filter (λ it', NewQueries.campaignName it' = NewQueries.campaignName it) E)).
    split.
    + apply sort_elem, list_elem_of_filter. split; [reflexivity | done].
    + apply list_elem_of_fmap. exists (NewQueries.campaignName it). split; [done|].
      apply sort_elem, first_occ_elem, list_elem_of_fmap. by exists it.
Qed.

(** *** The order of the campaigns *)

Section Campaigns.
Variable lc : string → string → Z.
Hypothesis lc_asym : ∀ a b, (0 < lc a b)%Z → (lc b a ≤ 0)%Z.
Hypothesis lc_trans : ∀ a b c, (lc a b ≤ 0)%Z → (lc b c ≤ 0)%Z → (lc a c ≤ 0)%Z.

Variable E : list NewQueries.item.
Hypothesis E_fin : Forall (λ it, is_fin (NewQueries.clicks it) = true) E.




End Campaigns.

(** *** The run of the script *)

Lemma appendRows_run (l : list NewQueries.item) (w : world NewQueries.sheet_op NewQueries.body) :
  NewQueries.appendRows l w
  = (Ok tt, {| logs := logs w; sheet := sheet w ++ (NewQueries.AppendRow <$> l);
               outbox := outbox w |}).
Proof.
  revert w. induction l as [|it l IH]; intros w; cbn [NewQueries.appendRows].
  - destruct w. cbn. by rewrite app_nil_r.
  - unfold mbind, M_bind, bind, write. rewrite IH. cbn.
    by rewrite <- app_assoc.
Qed.

Lemma appended_app ops1 ops2 : appended (ops1 ++ ops2) = appended ops1 ++ appended ops2.
Proof. unfold appended. apply omap_app. Qed.

Lemma appended_rows l : appended (NewQueries.AppendRow <$> l) = l.
Proof. unfold appended. induction l as [|it l IH]; csimpl; [done | by rewrite IH]. Qed.

Lemma newData_length_nonzero prior rows :
  NewQueries.newData prior rows ≠ [] →
  bool_decide (length (NewQueries.newData prior rows) = 0) = false.
Proof.
  intros Hne. apply bool_decide_eq_false_2. by intros ?%length_zero_iff_nil.
Qed.

(** The mail that a run with new queries hands to the mail facility *)
Lemma main_run lc h acct SHEET_URL RECIPIENT_EMAIL prior rows
    (w : world NewQueries.sheet_op NewQueries.body) :
  NewQueries.newData prior rows ≠ [] →
  openByUrl_error h = None →
  ∃ w1 msg,
    NewQueries.main lc h acct SHEET_URL RECIPIENT_EMAIL prior rows w
      = match sendEmail_error h with
        | Some e => (Throw e, w1)
        | None =>
            (Ok tt,
             {| logs := logs w1 ++ [msg]; sheet := sheet w1;
                outbox := outbox w1 ++
                  [ {| to := RECIPIENT_EMAIL;
                       subject := NewQueries.accountName acct
                                  +:+ " - New Search Queries - "
                                  +:+ NewQueries.yesterdayStr acct;
                       htmlBody :=
                         if bool_decide (NewQueries.emailData prior rows = [])
                         then NewQueries.NoClicksNote (NewQueries.yesterdayStr acct)
                                (sheet_url acct SHEET_URL)
                         else NewQueries.GroupedTables (NewQueries.yesterdayStr acct)
                                (NewQueries.grouped lc (NewQueries.emailData prior rows))
                                (sheet_url acct SHEET_URL) |} ] |})
        end
    ∧ appended (sheet w1) = appended (sheet w) ++ NewQueries.sortedNewData prior rows
    ∧ outbox w1 = outbox w.
Proof.
  intros Hne Hopen. unfold NewQueries.main.
  rewrite newData_length_nonzero by done.
  unfold sheet_url, NewQueries.openByUrl. rewrite Hopen.
  unfold mbind, M_bind, mret, M_ret, bind, ret, write, log, sendEmail.
  destruct (bool_decide (SHEET_URL = "") || includes SHEET_URL "YOUR_SPREADSHEET_ID");
    cbn [logs sheet outbox]; rewrite appendRows_run; cbn [logs sheet outbox].
  all: destruct (NewQueries.emailData prior rows) as [|it E] eqn:HE;
    cbn [length bool_decide]; 
    [rewrite (bool_decide_eq_true_2 (0 = 0)) by done
    |rewrite (bool_decide_eq_false_2 (S _ = 0)) by done];
    [rewrite (bool_decide_eq_true_2 (@nil NewQueries.item = [])) by done
    |rewrite (bool_decide_eq_false_2 (it :: E = [])) by done].
  all: destruct (sendEmail_error h) as [e|]; cbn [logs sheet outbox].
  all: eexists {| logs := _; sheet := _; outbox := _ |}, _;
    cbn [logs sheet outbox]; split; [reflexivity|]; split; [|done];
    rewrite !appended_app, appended_rows; cbn; by rewrite ?app_nil_r.
  Unshelve. all: exact "".
Qed.

(** ** Mail failures in the daily script and in the dashboard *)

Lemma sendEmailReport_run h rep date recipient subject
    (w : world Empty_set Daily.email_html) :
  Daily.sendEmailReport h rep date recipient subject w
  = match sendEmail_error h with
    | Some e =>
        (Ok tt, {| logs := logs w ++ ["Error sending email: " +:+ e];
                   sheet := sheet w; outbox := outbox w |})
    | None =>
        (Ok tt, {| logs := logs w; sheet := sheet w;
                   outbox := outbox w ++
                     [ {| to := recipient; subject := subject;
                          htmlBody := Daily.generateEmailHtml rep date |} ] |})
    end.
Proof.
  unfold Daily.sendEmailReport, try_catch, sendEmail, log.
  by destruct (sendEmail_error h).
Qed.

Lemma sendCompletionEmail_returns {S} h cfg c (w : world S (string * string)) :
  ∃ w', Dashboard.sendCompletionEmail h cfg c w = (Ok tt, w')
    ∧ sheet w' = sheet w
    ∧ (∀ e, sendEmail_error h = Some e → outbox w' = outbox w).
Proof.
  unfold Dashboard.sendCompletionEmail.
  destruct (_ || _ || _).
  - eexists. split; [reflexivity|]. by split.
  - unfold try_catch, mbind, M_bind, bind, sendEmail, log.
    destruct (sendEmail_error h) as [e|]; cbn [logs sheet outbox].
    + eexists. split; [reflexivity|]. by split.
    + eexists. split; [reflexivity|]. split; [done|]. by intros e [=].
Qed.

(** ** The collation by character codes is an order *)




(** ** The guarded ratios *)

(** The ratios of the country rows of both scripts, and the CPC of the
    TOTAL line of the daily mail, are 0 when their denominator is 0. *)
Lemma ratios_guarded (c : Daily.stats) (t : Daily.totals_t)
    (kv : string * Dashboard.bucket) :
  (Daily.impressions c = zero → Daily.ctr (Daily.with_metrics c) = zero)
  ∧ (Daily.clicks c = zero → Daily.cpc (Daily.with_metrics c) = zero)
  ∧ (Daily.tot_clicks t = zero → Daily.cell_cpc (Daily.total_row t) = zero)
  ∧ (Dashboard.impressions kv.2 = zero → Dashboard.col_ctr (Dashboard.to_row kv) = zero)
  ∧ (Dashboard.clicks kv.2 = zero →
     Dashboard.col_avgCpc (Dashboard.to_row kv) = zero
     ∧ Dashboard.col_convRate (Dashboard.to_row kv) = zero)
  ∧ (Dashboard.cost kv.2 = zero → Dashboard.col_roas (Dashboard.to_row kv) = zero)
  ∧ (Dashboard.conversions kv.2 = zero →
     Dashboard.col_costPerConv (Dashboard.to_row kv) = zero).
Proof.
  unfold Daily.with_metrics, Daily.total_row, Dashboard.to_row.
  cbn [Daily.ctr Daily.cpc Daily.cell_cpc Dashboard.col_ctr Dashboard.col_avgCpc
       Dashboard.col_convRate Dashboard.col_roas Dashboard.col_costPerConv].
  split_and!; intros ->; by rewrite gt_irrefl.
Qed.

(** * Further lemmas *)

(** ** Lists *)

Lemma filter_all {A} (P : A → Prop) `{!∀ x, Decision (P x)} (l : list A) :
  Forall P l → filter P l = l.
Proof.
  induction 1 as [|x l Hx _ IH]; [done|]. by rewrite filter_cons_True, IH.
Qed.

(** ** Sorting a list that is in order *)

Lemma sort_in_order {A} (cmp : A → A → num) (l : list A) :
  StronglySorted (λ a b, after cmp a b = false) l → sort cmp l = l.
Proof.
  induction 1 as [|x l Hl IH Hx]; [done|].
  cbn [sort foldr]. change (foldr (insert cmp) [] l) with (sort cmp l).
  rewrite IH. destruct l as [|y t]; [done|].
  cbn [insert]. apply Forall_inv in Hx. by rewrite Hx.
Qed.

Lemma StronglySorted_filter {A} (R : relation A) (P : A → Prop)
    `{!∀ x, Decision (P x)} (l : list A) :
  StronglySorted R l → StronglySorted R (filter P l).
Proof.
  induction 1 as [|x l Hl IH Hx]; [constructor|].
  rewrite filter_cons. destruct (decide (P x)); [|done].
  constructor; [done|]. apply Forall_forall. intros y [_ Hy]%list_elem_of_filter.
  rewrite Forall_forall in Hx. by apply Hx.
Qed.

Lemma StronglySorted_weaken {A} (R1 R2 : relation A) (l : list A) :
  (∀ a b, R1 a b → R2 a b) → StronglySorted R1 l → StronglySorted R2 l.
Proof.
  intros HR. induction 1 as [|x l Hl IH Hx]; constructor; [done|].
  eapply Forall_impl; [done|]. intros b. apply HR.
Qed.

Lemma sort_desc_in_order {A} (key : A → num) (l : list A) :
  descending key l → sort (λ a b, sub (key b) (key a)) l = l.
Proof.
  intros Hd. apply sort_in_order.
  eapply StronglySorted_weaken; [|exact Hd].
  intros a b Hle. cbn beta in Hle. unfold after. rewrite gt_sub_zero.
  by apply le_not_gt.
Qed.

(** ** The rows of the sheet and the tables of the mail of the new queries *)

Lemma sortedNewData_descending prior rows :
  descending NewQueries.clicks (NewQueries.sortedNewData prior rows).
Proof.
  apply (sort_desc_sorted NewQueries.clicks), Forall_forall.
  intros it Hit. by apply is_fin_not_nan, (newData_clicks_fin prior rows).
Qed.

Lemma emailData_descending prior rows :
  descending NewQueries.clicks (NewQueries.emailData prior rows).
Proof. apply StronglySorted_filter, sortedNewData_descending. Qed.

(** ** Counting the keys of a list *)





(** ** The daily report, row by row *)

Lemma first_occ_perm (l1 l2 : list string) :
  l1 ≡ₚ l2 → first_occ l1 ≡ₚ first_occ l2.
Proof.
  intros Hp. apply NoDup_Permutation; [apply first_occ_NoDup..|].
  intros k. by rewrite !first_occ_elem, Hp.
Qed.

(** The loop ends with an exception exactly when a row is unreadable. *)
Lemma contributions_unreadable lm rows :
  match contributions lm rows with
  | Ok _ => existsb unreadable rows = false
  | Throw e =>
      existsb unreadable rows = true
      ∧ e = "TypeError: Cannot read properties of undefined (reading 'replace')"
  end.
Proof.
  induction rows as [|r rows IH]; [done|].
  cbn [contributions existsb]. unfold contribution, unreadable, replace_commas.
  destruct (Daily.Cost r) as [c|]; cbn; [|done].
  destruct (gt (parseFloat (remove_commas c)) zero); cbn.
  - destruct (Daily.Impressions r); cbn; [|done].
    destruct (Daily.Clicks r); cbn; [|done].
    destruct (Daily.Conversions r); cbn; [|done].
    destruct (contributions lm rows); cbn; done.
  - destruct (contributions lm rows); cbn; done.
Qed.

(** ** The change between two periods *)

Lemma strict_eq_fin (x y : num) :
  is_fin x = true → strict_eq x y = bool_decide (x = y).
Proof. by destruct x, y. Qed.

Lemma ge_sub_zero (x y : num) :
  is_fin x = true → is_fin y = true → ge (sub y x) zero = negb (gt x y).
Proof.
  destruct x as [a| | |], y as [b| | |]; try done. intros _ _. cbn.
  f_equal. apply eq_true_iff_eq. rewrite !Qc_ltb_lt.
  rewrite (Qclt_minus_iff (b + - a) 0), (Qclt_minus_iff b a).
  by replace (0 + - (b + - a))%Qc with (a + - b)%Qc by ring.
Qed.

Lemma sub_fin (x y : num) :
  is_fin x = true → is_fin y = true → is_fin (sub y x) = true.
Proof. by destruct x, y. Qed.

Lemma div_zero_pos (p : num) :
  is_fin p = true → gt p zero = true → div zero p = zero.
Proof.
  destruct p as [p| | |]; try done. intros _ Hp. cbn in *.
  destruct (decide (p = 0%Qc)) as [->|Hne]; [by rewrite Qc_ltb_irrefl in Hp|].
  unfold zero. f_equal. unfold Qcdiv. ring.
Qed.

Lemma nonneg_zero_or_pos (x : num) :
  is_fin x = true → gt zero x = false → x = zero ∨ gt x zero = true.
Proof.
  intros Hfin Hge. destruct (decide (x = zero)) as [|Hne]; [by left|].
  right. by apply gt_total_fin.
Qed.

(** ** Printing a number and reading it back *)

Lemma chars_app (a b : string) :
  String.list_ascii_of_string (a +:+ b)
  = String.list_ascii_of_string a ++ String.list_ascii_of_string b.
Proof. induction a as [|c a IH]; [done|]. simpl. f_equal. apply IH. Qed.

Lemma is_digit_value (c : ascii) :
  is_digit c = true → ∃ d, digit c = Some d ∧ (0 ≤ d < 10)%Z.
Proof.
  unfold is_digit, digit.
  destruct ((48 <=? code c)%Z && (code c <=? 57)%Z) eqn:E; [|done].
  intros _. eexists. split; [done|]. lia.
Qed.

Lemma digits_value_app (acc : Z) (l1 l2 : list ascii) :
  digits_value acc (l1 ++ l2) = digits_value (digits_value acc l1) l2.
Proof. apply foldl_app. Qed.

Lemma digits_value_cons (acc : Z) (c : ascii) (l : list ascii) :
  digits_value acc (c :: l) = digits_value (acc * 10 + default 0 (digit c))%Z l.
Proof. done. Qed.

Lemma digits_value_shift (acc : Z) (l : list ascii) :
  digits_value acc l = (acc * 10 ^ Z.of_nat (length l) + digits_value 0 l)%Z.
Proof.
  revert acc. induction l as [|c l IH]; intros acc.
  - cbn. lia.
  - rewrite !digits_value_cons, IH, (IH (0 * 10 + _)%Z). cbn [length].
    rewrite Nat2Z.inj_succ, Z.pow_succ_r by lia. lia.
Qed.

(** Reading a run of digits *)
Lemma digits_run (l rest : list ascii) (acc : Z) (n : nat) :
  Forall (λ c, is_digit c = true) l →
  digits digit 10 acc n (l ++ rest)
  = digits digit 10 (digits_value acc l) (n + length l) rest.
Proof.
  intros Hl. revert acc n. induction Hl as [|c l Hc _ IH]; intros acc n.
  - cbn. by rewrite Nat.add_0_r.
  - cbn [app digits]. destruct (is_digit_value c Hc) as (d & Hd & _).
    rewrite Hd, IH, digits_value_cons, Hd.
    change (default 0 (Some d))%Z with d. cbn [length]. f_equal. lia.
Qed.

Lemma digits_stop (rest : list ascii) (acc : Z) (n : nat) :
  match rest with c :: _ => is_digit c = false | [] => True end →
  digits digit 10 acc n rest = (acc, n, rest).
Proof.
  destruct rest as [|c t]; [done|]. unfold is_digit. cbn.
  by destruct (digit c).
Qed.

Lemma pretty_N_char_digit (d : N) :
  (d < 10)%N → digit (pretty_N_char d) = Some (Z.of_N d).
Proof.
  intros Hd.
  assert (d = 0 ∨ d = 1 ∨ d = 2 ∨ d = 3 ∨ d = 4 ∨ d = 5 ∨ d = 6 ∨ d = 7 ∨ d = 8
          ∨ d = 9)%N as Hcases by lia.
  repeat (destruct Hcases as [->|Hcases]; [done|]). by subst.
Qed.

(** The digits that [pretty] prints *)
Lemma pretty_N_go_digits (x : N) :
  (∀ s, String.list_ascii_of_string (pretty_N_go x s)
        = String.list_ascii_of_string (pretty_N_go x "")
          ++ String.list_ascii_of_string s)
  ∧ Forall (λ c, is_digit c = true) (String.list_ascii_of_string (pretty_N_go x ""))
  ∧ digits_value 0 (String.list_ascii_of_string (pretty_N_go x "")) = Z.of_N x.
Proof.
  induction (N.lt_wf_0 x) as [x _ IH].
  destruct (decide (x = 0%N)) as [->|Hx].
  { split_and!; [done | constructor | done]. }
  assert (0 < x)%N as Hpos by lia.
  destruct (IH (x `div` 10)%N) as (Happ & Hdig & Hval); [by apply N.div_lt|].
  assert (String.list_ascii_of_string (pretty_N_go x "")
          = String.list_ascii_of_string (pretty_N_go (x `div` 10) "")
            ++ [pretty_N_char (x `mod` 10)]) as Hx0.
  { by rewrite pretty_N_go_step, Happ by done. }
  assert (x `mod` 10 < 10)%N as Hmod by (by apply N.mod_lt).
  split_and!.
  - intros s. rewrite pretty_N_go_step, Happ, Hx0 by done.
    by rewrite <- app_assoc.
  - rewrite Hx0. apply Forall_app. split; [done|].
    constructor; [|constructor]. unfold is_digit.
    by rewrite pretty_N_char_digit.
  - rewrite Hx0, digits_value_app, Hval. unfold digits_value at 1. cbn [foldl].
    rewrite pretty_N_char_digit by done.
    change (default 0 (Some ?d))%Z with d.
    rewrite (N.div_mod x 10) at 3 by done. lia.
Qed.

Lemma pretty_N_digits (x : N) :
  let m := String.list_ascii_of_string (pretty x) in
  m ≠ [] ∧ Forall (λ c, is_digit c = true) m ∧ digits_value 0 m = Z.of_N x.
Proof.
  unfold pretty, pretty_N. destruct (decide (x = 0%N)) as [->|Hx].
  { split_and!; [done | by repeat constructor | done]. }
  destruct (pretty_N_go_digits x) as (_ & Hdig & Hval).
  split_and!; [|done..].
  intros Hnil. rewrite Hnil in Hval. cbn in Hval. lia.
Qed.

(** A digit is no white space, no sign, no point, no comma and not the
    first letter of Infinity. *)
Lemma digit_char (c : ascii) (t : list ascii) :
  is_digit c = true →
  is_ws c = false
  ∧ take_sign (c :: t) = (1%Z, c :: t)
  ∧ starts_with (String.list_ascii_of_string "Infinity") (c :: t) = false
  ∧ c ≠ "."%char ∧ c ≠ ","%char.
Proof.
  destruct c as [[] [] [] [] [] [] [] []]; intros Hc; try discriminate Hc;
    by split_and!.
Qed.

Lemma digits_value_zeros (k : nat) (acc : Z) :
  digits_value acc (replicate k "0"%char) = (acc * 10 ^ Z.of_nat k)%Z.
Proof.
  revert acc. induction k as [|k IH]; intros acc; [cbn; lia|].
  cbn [replicate]. rewrite digits_value_cons, IH.
  change (default 0 (digit "0"))%Z with 0%Z.
  rewrite Nat2Z.inj_succ, Z.pow_succ_r by lia. lia.
Qed.

(** The shape of what [point] returns *)
Lemma point_shape (f : nat) (m : list ascii) :
  Forall (λ c, is_digit c = true) m →
  ∃ a b, point (S f) m = a ++ "."%char :: b
    ∧ a ≠ [] ∧ Forall (λ c, is_digit c = true) a
    ∧ Forall (λ c, is_digit c = true) b ∧ length b = S f
    ∧ digits_value 0 (a ++ b) = digits_value 0 m.
Proof.
  intros Hm. cbn [point].
  set (m1 := replicate (S (S f) - length m) "0"%char ++ m).
  assert (S f < length m1) as Hlen.
  { unfold m1. rewrite length_app, length_replicate. lia. }
  assert (Forall (λ c, is_digit c = true) m1) as Hm1.
  { apply Forall_app. split; [|done]. by apply Forall_replicate. }
  exists (take (length m1 - S f) m1), (drop (length m1 - S f) m1).
  split_and!.
  - done.
  - intros Hnil. apply (f_equal length) in Hnil.
    rewrite length_take in Hnil. cbn in Hnil. lia.
  - by apply Forall_take.
  - by apply Forall_drop.
  - rewrite length_drop. lia.
  - rewrite take_drop. unfold m1.
    rewrite digits_value_app, digits_value_zeros. done.
Qed.

Lemma nearest_nonneg (f : nat) (a : Qc) : (0 <= a)%Qc → (0 ≤ nearest f a)%Z.
Proof.
  intros Ha. unfold nearest. apply Z.div_pos; [|lia].
  assert (0 ≤ Qnum a)%Z as Hn.
  { unfold Qcle, Qle in Ha. simpl in Ha. lia. }
  assert (0 < 10 ^ Z.of_nat f)%Z by (apply Z.pow_pos_nonneg; lia). nia.
Qed.

(** Reading a decimal text with digits on both sides of the point *)
Lemma parseFloat_decimal (neg : bool) (a b : list ascii) :
  a ≠ [] → b ≠ [] →
  Forall (λ c, is_digit c = true) a → Forall (λ c, is_digit c = true) b →
  parseFloat (String.string_of_list_ascii
                (String.list_ascii_of_string (if neg then "-" else "")
                 ++ a ++ "."%char :: b))
  = Fin (Q2Qc (Qmake ((if neg then -1 else 1) * digits_value 0 (a ++ b))
                     (Z.to_pos (10 ^ Z.of_nat (length b))))).
Proof.
  intros Ha Hb Hda Hdb. unfold parseFloat.
  rewrite String.list_ascii_of_string_of_list_ascii.
  destruct a as [|c a]; [done|]. clear Ha.
  apply Forall_cons in Hda as [Hc Hda].
  destruct (digit_char c (a ++ "."%char :: b) Hc) as (Hws & Hsign & Hinf & _).
  assert (drop_ws (String.list_ascii_of_string (if neg then "-" else "")
                   ++ (c :: a) ++ "."%char :: b)
          = String.list_ascii_of_string (if neg then "-" else "")
            ++ (c :: a) ++ "."%char :: b) as ->.
  { destruct neg; [done|]. cbn [String.list_ascii_of_string app drop_ws].
    by rewrite Hws. }
  assert (take_sign (String.list_ascii_of_string (if neg then "-" else "")
                     ++ (c :: a) ++ "."%char :: b)
          = ((if neg then -1 else 1)%Z, (c :: a) ++ "."%char :: b)) as ->.
  { destruct neg; [done|]. exact Hsign. }
  cbn [app]. rewrite Hinf.
  change (c :: a ++ "."%char :: b) with ((c :: a) ++ "."%char :: b).
  rewrite digits_run by (by constructor).
  rewrite digits_stop by done.
  rewrite <- (app_nil_r b) at 1. rewrite digits_run, digits_stop by done.
  assert (0 < length b) as Hlen by (destruct b; [done | cbn; lia]).
  cbn [Nat.add length exponent]. unfold scale10.
  rewrite (proj2 (Z.leb_gt _ _)) by lia.
  f_equal. f_equal. f_equal.
  - f_equal. change (c :: a ++ b) with ((c :: a) ++ b).
    by rewrite digits_value_app, (digits_value_shift (digits_value 0 (c :: a))).
  - f_equal. f_equal. lia.
Qed.

Lemma str_app (s : string) (l : list ascii) :
  s +:+ String.string_of_list_ascii l
  = String.string_of_list_ascii (String.list_ascii_of_string s ++ l).
Proof.
  rewrite <- (String.string_of_list_ascii_of_string (s +:+ _)).
  by rewrite chars_app, String.list_ascii_of_string_of_list_ascii.
Qed.

Lemma Qc_abs_nonneg (q : Qc) : (0 <= (if Qc_ltb q 0 then - q else q))%Qc.
Proof.
  destruct (Qc_ltb q 0) eqn:E.
  - apply Qc_ltb_lt in E. apply Qclt_le_weak.
    apply (Qclt_minus_iff q 0) in E. by replace (0 + - q)%Qc with (- q)%Qc in E by ring.
  - by apply Qc_ltb_nlt.
Qed.

(** What [toFixed] prints for a number that is not too large *)
Lemma toFixed_fin (f : nat) (q : Qc) :
  let a := (if Qc_ltb q 0 then - q else q)%Qc in
  Qc_ltb a (Qc_of_Z (10 ^ 21)) = true →
  ∃ ip fp,
    toFixed (S f) (Fin q)
    = Some (String.string_of_list_ascii
              (String.list_ascii_of_string (if Qc_ltb q 0 then "-" else "")
               ++ ip ++ "."%char :: fp))
    ∧ ip ≠ [] ∧ Forall (λ c, is_digit c = true) ip
    ∧ Forall (λ c, is_digit c = true) fp ∧ length fp = S f
    ∧ digits_value 0 (ip ++ fp) = nearest (S f) a.
Proof.
  intros a Ha. unfold toFixed. fold a. rewrite Ha.
  destruct (pretty_N_digits (Z.to_N (nearest (S f) a))) as (Hne & Hdig & Hval).
  destruct (point_shape f _ Hdig) as (ip & fp & Hpt & Hip & Hdip & Hdfp & Hlen & Hv).
  exists ip, fp. rewrite Hpt, str_app. split_and!; try done.
  rewrite Hv, Hval, Z2N.id; [done|]. apply nearest_nonneg, Qc_abs_nonneg.
Qed.

Lemma nearest_bracket (f : nat) (a : Qc) :
  let n := nearest f a in
  let d := Zpos (Qden a) in
  (2 * d * n ≤ 2 * Qnum a * 10 ^ Z.of_nat f + d < 2 * d * n + 2 * d)%Z.
Proof.
  intros n d. unfold n, nearest. fold d.
  pose proof (Z.mul_div_le (2 * Qnum a * 10 ^ Z.of_nat f + d) (2 * d)) as H1.
  pose proof (Z.mul_succ_div_gt (2 * Qnum a * 10 ^ Z.of_nat f + d) (2 * d)) as H2.
  lia.
Qed.

Lemma Qc_abs_this (q : Qc) :
  let a := (if Qc_ltb q 0 then - q else q)%Qc in
  Qnum a = ((if Qc_ltb q 0 then -1 else 1) * Qnum q)%Z ∧ Qden a = Qden q.
Proof.
  destruct (Qc_ltb q 0); cbn zeta.
  - unfold Qcopp, Q2Qc. cbn [this]. rewrite Qred_opp, (canon q).
    destruct q as [[nq dq] Hq]. cbn. split; [lia | done].
  - split; [lia | done].
Qed.

Lemma Qcle_Q2Qc (x y : Q) : (x <= y)%Q → (Q2Qc x <= Q2Qc y)%Qc.
Proof. intros H. unfold Qcle. cbn [this Q2Qc]. by rewrite !Qred_correct. Qed.

(** Reading back what [toFixed] prints: the number read is within half a
    unit of the last decimal of the number printed. *)
Lemma toFixed_reads_back (f : nat) (q : Qc) :
  Qc_ltb (if Qc_ltb q 0 then - q else q)%Qc (Qc_of_Z (10 ^ 21)) = true →
  ∃ s, toFixed (S f) (Fin q) = Some s
    ∧ le (abs (sub (parseFloat s) (Fin q)))
         (Fin (Q2Qc (1 # Z.to_pos (2 * 10 ^ Z.of_nat (S f))))).
Proof.
  intros Ha.
  destruct (toFixed_fin f q Ha) as (ip & fp & Hs & Hip & Hdip & Hdfp & Hlen & Hv).
  eexists. split; [exact Hs|].
  rewrite parseFloat_decimal; [|done | by destruct fp | done | done].
  rewrite Hv, Hlen.
  pose proof (nearest_bracket (S f) (if Qc_ltb q 0 then - q else q)%Qc) as Hb.
  destruct (Qc_abs_this q) as [Hnum Hden]. cbn zeta in Hb, Hnum, Hden.
  rewrite Hnum, Hden in Hb.
  set (n := nearest (S f) _) in *.
  assert (0 < 10 ^ Z.of_nat (S f))%Z as HT by (apply Z.pow_pos_nonneg; lia).
  set (T := (10 ^ Z.of_nat (S f))%Z) in *.
  destruct q as [[nq dq] Hq]. cbn [Qnum Qden this] in Hb.
  unfold sub, add, neg, abs, le. clear Hnum Hden.
  assert (∀ t : Qc,
    (t <= Q2Qc (1 # Z.to_pos (2 * T)))%Qc → (- t <= Q2Qc (1 # Z.to_pos (2 * T)))%Qc →
    ((if Qc_ltb t 0 then - t else t) <= Q2Qc (1 # Z.to_pos (2 * T)))%Qc) as Habs.
  { intros t H1 H2. by destruct (Qc_ltb t 0). }
  set (s := if Qc_ltb _ _ then (-1)%Z else 1%Z) in *.
  assert (s = 1 ∨ s = -1)%Z as Hs'. { unfold s. case_match; [right | left]; reflexivity. }
  clearbody s n.
  apply Habs.
  - unfold Qcplus, Qcopp. apply Qcle_Q2Qc. cbn [this Q2Qc].
    rewrite !Qred_correct. unfold Qle, Qplus, Qopp. cbn [Qnum Qden].
    rewrite !Pos2Z.inj_mul, !Z2Pos.id by lia.
    assert (2 * (s * n * Z.pos dq + - nq * T) ≤ Z.pos dq)%Z by (destruct Hs' as [-> | ->]; lia).
    nia.
  - unfold Qcplus, Qcopp. apply Qcle_Q2Qc. cbn [this Q2Qc].
    rewrite !Qred_correct. unfold Qle, Qplus, Qopp. cbn [Qnum Qden].
    rewrite !Pos2Z.inj_mul, !Z2Pos.id by lia.
    assert (2 * - (s * n * Z.pos dq + - nq * T) ≤ Z.pos dq)%Z by (destruct Hs' as [-> | ->]; lia).
    nia.
Qed.

(** ** The separators of thousands *)

Lemma group3_step (a b c x : ascii) (t : list ascii) :
  group3 (a :: b :: c :: x :: t) = a :: b :: c :: ","%char :: group3 (x :: t).
Proof. done. Qed.

Lemma group3_snoc (l : list ascii) (c : ascii) :
  group3 (l ++ [c])
  = if (0 <? length l)%nat && (length l mod 3 =? 0)%nat
    then group3 l ++ [","%char; c] else group3 l ++ [c].
Proof.
  remember (length l) as n eqn:Hn. revert l Hn.
  induction (lt_wf n) as [n _ IH]. intros l Hn.
  destruct l as [|a [|b [|c0 [|x t]]]]; subst n; try done.
  change ((a :: b :: c0 :: x :: t) ++ [c]) with (a :: b :: c0 :: x :: (t ++ [c])).
  rewrite !group3_step. change (x :: t ++ [c]) with ((x :: t) ++ [c]).
  rewrite (IH (length (x :: t)) ltac:(cbn; lia) (x :: t) eq_refl).
  change (length (a :: b :: c0 :: x :: t)) with (3 + length (x :: t)).
  change (0 <? 3 + length (x :: t))%nat with true.
  change (0 <? length (x :: t))%nat with true.
  replace (3 + length (x :: t)) with (length (x :: t) + 1 * 3) by lia.
  rewrite Nat.Div0.mod_add.
  by destruct (true && (length (x :: t) mod 3 =? 0)%nat).
Qed.

Lemma thousands_cons (c : ascii) (l : list ascii) :
  thousands (c :: l)
  = if (0 <? length l)%nat && (length l mod 3 =? 0)%nat
    then c :: ","%char :: thousands l else c :: thousands l.
Proof.
  unfold thousands. rewrite reverse_cons, group3_snoc, length_reverse.
  destruct (_ && _).
  - by rewrite reverse_app.
  - by rewrite reverse_app.
Qed.

Lemma digit_run_digits (l rest : list ascii) :
  Forall (λ c, is_digit c = true) l →
  match rest with c :: _ => is_digit c = false | [] => True end →
  digit_run (l ++ rest) = length l.
Proof.
  intros Hl Hrest. induction Hl as [|c l Hc _ IH].
  - destruct rest as [|c t]; [done|]. cbn. by rewrite Hrest.
  - cbn [app digit_run length]. by rewrite Hc, IH.
Qed.

(** The commas that the regular expression puts in a run of digits *)
Lemma group_thousands_digits (l rest : list ascii) :
  Forall (λ c, is_digit c = true) l →
  match rest with c :: _ => is_digit c = false | [] => True end →
  group_thousands (l ++ rest) = thousands l ++ group_thousands rest.
Proof.
  intros Hl Hrest. induction Hl as [|c l Hc Hl IH]; [done|].
  cbn [app group_thousands]. rewrite Hc, digit_run_digits by done.
  rewrite thousands_cons, IH. cbn [andb].
  by destruct ((0 <? length l)%nat && (length l mod 3 =? 0)%nat).
Qed.

Lemma group_thousands_decimals (d1 d2 : ascii) :
  group_thousands ["."%char; d1; d2] = ["."%char; d1; d2].
Proof.
  cbn. destruct (is_digit d1) eqn:E1, (is_digit d2) eqn:E2; cbn; done.
Qed.

(** Taking the commas out again *)
Lemma group_thousands_commas (l : list ascii) :
  filter (λ c, c ≠ ","%char) (group_thousands l) = filter (λ c, c ≠ ","%char) l.
Proof.
  induction l as [|c l IH]; [done|]. cbn [group_thousands].
  destruct (_ && _ && _).
  - rewrite !filter_cons, IH.
    rewrite (decide_False (P:=(","%char ≠ ","%char))) by (by intros ?). done.
  - by rewrite !filter_cons, IH.
Qed.

Lemma filter_no_comma (l : list ascii) :
  Forall (λ c, c ≠ ","%char) l → filter (λ c, c ≠ ","%char) l = l.
Proof. apply filter_all. Qed.

Lemma digits_no_comma (l : list ascii) :
  Forall (λ c, is_digit c = true) l → Forall (λ c, c ≠ ","%char) l.
Proof.
  intros Hl. eapply Forall_impl; [exact Hl|]. intros c Hc.
  by destruct (digit_char c [] Hc) as (_ & _ & _ & _ & ?).
Qed.

(** ** The numbers that [parseInt] reads *)

Lemma of_Z_0 : of_Z 0 = zero.
Proof. unfold of_Z, zero. f_equal. apply Z2Qc_inj_0. Qed.

(** ** The label of a criterion id *)


(** ** The tables of the mail as a partition of the items *)

Lemma filter_disjoint_app {A} (P Q : A → Prop)
    `{!∀ x, Decision (P x), !∀ x, Decision (Q x)} (l : list A) :
  (∀ x, P x → Q x → False) →
  filter P l ++ filter Q l ≡ₚ filter (λ x, P x ∨ Q x) l.
Proof.
  intros Hdis. induction l as [|x l IH]; [done|].
  rewrite !filter_cons.
  destruct (decide (P x)) as [HP|HP], (decide (Q x)) as [HQ|HQ].
  - by destruct (Hdis x).
  - rewrite decide_True by (by left). cbn [app]. by rewrite IH.
  - rewrite decide_True by (by right).
    rewrite <- Permutation_middle. by rewrite IH.
  - rewrite decide_False by (by intros [?|?]). done.
Qed.

Lemma filters_by_key {A} (key : A → string) (ks : list string) (l : list A) :
  NoDup ks →
  mjoin ((λ k, filter (λ x, key x = k) l) <$> ks) ≡ₚ filter (λ x, key x ∈ ks) l.
Proof.
  induction 1 as [|k ks Hk Hks IH].
  - cbn. induction l as [|x l IHl]; [done|].
    rewrite filter_cons_False; [done|]. apply not_elem_of_nil.
  - rewrite fmap_cons. cbn [mjoin list_join]. rewrite IH.
    rewrite filter_disjoint_app.
    + apply reflexive_eq, list_filter_iff. intros x. rewrite elem_of_cons. tauto.
    + intros x <- Hin. done.
Qed.

(** * The aggregations with the arithmetic of the engine *)

(** ** Binary64 arithmetic *)

Section Binary64.
Local Open Scope Z_scope.

Lemma floor_log2_spec (a d : Z) :
  0 < d ≤ a →
  0 ≤ F64.floor_log2 a d
  ∧ d * 2 ^ F64.floor_log2 a d ≤ a < d * 2 ^ (F64.floor_log2 a d + 1).
Proof.
  intros [Hd Ha]. unfold F64.floor_log2.
  pose proof (Z.log2_spec a ltac:(lia)) as [Ha1 Ha2].
  pose proof (Z.log2_spec d Hd) as [Hd1 Hd2].
  pose proof (Z.log2_le_mono d a Ha) as Hmono.
  pose proof (Z.log2_nonneg d) as Hld.
  set (la := Z.log2 a) in *. set (ld := Z.log2 d) in *.
  assert (2 ^ la = 2 ^ ld * 2 ^ (la - ld)) as Hpow.
  { rewrite <- Z.pow_add_r by lia. f_equal. lia. }
  assert (0 < 2 ^ (la - ld)) by (apply Z.pow_pos_nonneg; lia).
  assert (0 < 2 ^ ld) by (apply Z.pow_pos_nonneg; lia).
  rewrite Z.pow_succ_r in Ha2, Hd2 by lia.
  destruct (Z.leb_spec (d * 2 ^ (la - ld)) a) as [Hle|Hgt].
  - split; [lia|]. split; [done|].
    rewrite Z.pow_add_r by lia. nia.
  - assert (la - ld ≠ 0) as Hnz. { intros Hz. rewrite Hz in Hgt. simpl in Hgt. lia. }
    split; [lia|].
    replace (la - ld - 1 + 1) with (la - ld) by lia. split; [|lia].
    assert (2 ^ (la - ld) = 2 * 2 ^ (la - ld - 1)) as Hp2.
    { rewrite <- Z.pow_succ_r by lia. f_equal. lia. }
    assert (0 < 2 ^ (la - ld - 1)) by (apply Z.pow_pos_nonneg; lia).
    nia.
Qed.

Lemma spacing_spec (a d : Z) :
  0 < d →
  0 ≤ F64.spacing a d ∧ (0 < F64.spacing a d → d * 2 ^ (F64.spacing a d + 52) ≤ a).
Proof.
  intros Hd. unfold F64.spacing.
  destruct (Z.ltb_spec a d) as [Hlt|Hge]; [lia|].
  destruct (floor_log2_spec a d ltac:(lia)) as (Hfl & Hlo & _).
  split; [lia|]. intros HE.
  replace (Z.max (F64.floor_log2 a d - 52) 0 + 52) with (F64.floor_log2 a d) by lia.
  done.
Qed.

Lemma rne_bounds (N D : Z) : 0 < D → N / D ≤ F64.rne N D ≤ N / D + 1.
Proof.
  intros HD. unfold F64.rne.
  repeat (case_match; try lia).
Qed.

Lemma rne_error (N D : Z) : 0 < D → 2 * Z.abs (F64.rne N D * D - N) ≤ D.
Proof.
  intros HD. unfold F64.rne.
  pose proof (Z.div_mod N D ltac:(lia)) as Hdm.
  pose proof (Z.mod_pos_bound N D HD) as Hr.
  destruct (Z.ltb_spec (2 * (N mod D)) D); [nia|].
  destruct (Z.ltb_spec D (2 * (N mod D))); [nia|].
  destruct (Z.even (N / D)); nia.
Qed.

Lemma rne_exact (k D : Z) : 0 < D → F64.rne (k * D) D = k.
Proof.
  intros HD. unfold F64.rne.
  rewrite Z.mod_mul, Z.div_mul by lia.
  destruct (Z.ltb_spec (2 * 0) D); [done | lia].
Qed.

Lemma rne_pos (N D : Z) : 0 < D → D ≤ N → 1 ≤ F64.rne N D.
Proof.
  intros HD HN. pose proof (rne_bounds N D HD).
  assert (1 ≤ N / D) by (apply Z.div_le_lower_bound; lia). lia.
Qed.

Lemma rne_nonneg (N D : Z) : 0 < D → 0 ≤ N → 0 ≤ F64.rne N D.
Proof.
  intros HD HN. pose proof (rne_bounds N D HD).
  assert (0 ≤ N / D) by (apply Z.div_pos; lia). lia.
Qed.

Lemma rne_opp (N D : Z) : 0 < D → F64.rne (- N) D = - F64.rne N D.
Proof.
  intros HD. unfold F64.rne.
  pose proof (Z.div_mod N D ltac:(lia)) as Hdm.
  pose proof (Z.mod_pos_bound N D HD) as Hr.
  destruct (Z.eq_dec (N mod D) 0) as [Hz|Hz].
  - rewrite Z.mod_opp_l_z, Z.div_opp_l_z by lia. rewrite Hz.
    destruct (Z.ltb_spec (2 * 0) D); lia.
  - rewrite Z.mod_opp_l_nz, Z.div_opp_l_nz by lia.
    destruct (Z.ltb_spec (2 * (N mod D)) D), (Z.ltb_spec (2 * (D - N mod D)) D);
      try lia;
      destruct (Z.ltb_spec D (2 * (N mod D))), (Z.ltb_spec D (2 * (D - N mod D)));
      try lia.
    replace (- (N / D) - 1) with (- (N / D + 1)) by lia.
    rewrite Z.even_opp.
    replace (N / D + 1) with (Z.succ (N / D)) by lia. rewrite Z.even_succ.
    rewrite <- Z.negb_even. destruct (Z.even (N / D)); simpl; lia.
Qed.

Lemma round_units_opp (N d : Z) :
  0 < d → F64.round_units (- N) d = - F64.round_units N d.
Proof.
  intros Hd. unfold F64.round_units. rewrite Z.abs_opp.
  destruct (spacing_spec (Z.abs N) d Hd) as [HE _].
  rewrite rne_opp; [lia|].
  apply Z.mul_pos_pos; [done|]. by apply Z.pow_pos_nonneg.
Qed.

Lemma round_units_pos (N d : Z) : 0 < d → d ≤ N → 1 ≤ F64.round_units N d.
Proof.
  intros Hd HN. unfold F64.round_units.
  destruct (spacing_spec (Z.abs N) d Hd) as [HE Hlo].
  set (E := F64.spacing (Z.abs N) d) in *.
  assert (0 < 2 ^ E) as HpE by (by apply Z.pow_pos_nonneg).
  assert (d * 2 ^ E ≤ N) as HD.
  { destruct (Z.eq_dec E 0) as [->|Hnz]; [simpl; lia|].
    specialize (Hlo ltac:(lia)). rewrite Z.pow_add_r in Hlo by lia.
    assert (1 ≤ 2 ^ 52) by done. nia. }
  pose proof (rne_pos N (d * 2 ^ E) ltac:(nia) HD). nia.
Qed.

Lemma round_units_nonneg (N d : Z) : 0 < d → 0 ≤ N → 0 ≤ F64.round_units N d.
Proof.
  intros Hd HN. unfold F64.round_units.
  destruct (spacing_spec (Z.abs N) d Hd) as [HE _].
  set (E := F64.spacing (Z.abs N) d) in *.
  assert (0 < 2 ^ E) as HpE by (by apply Z.pow_pos_nonneg).
  pose proof (rne_nonneg N (d * 2 ^ E) ltac:(nia) HN). nia.
Qed.

Lemma round_units_neg (N d : Z) : 0 < d → N ≤ - d → F64.round_units N d ≤ -1.
Proof.
  intros Hd HN. pose proof (round_units_pos (- N) d Hd ltac:(lia)) as H.
  rewrite round_units_opp in H by done. lia.
Qed.

Lemma round_units_nonpos (N d : Z) : 0 < d → N ≤ 0 → F64.round_units N d ≤ 0.
Proof.
  intros Hd HN. pose proof (round_units_nonneg (- N) d Hd ltac:(lia)) as H.
  rewrite round_units_opp in H by done. lia.
Qed.

(** The result is off by at most half the spacing. *)
Lemma round_units_near (N d : Z) :
  0 < d →
  2 * Z.abs (F64.round_units N d * d - N) ≤ d * 2 ^ F64.spacing (Z.abs N) d.
Proof.
  intros Hd. unfold F64.round_units.
  destruct (spacing_spec (Z.abs N) d Hd) as [HE _].
  set (E := F64.spacing (Z.abs N) d) in *.
  assert (0 < 2 ^ E) as HpE by (by apply Z.pow_pos_nonneg).
  pose proof (rne_error N (d * 2 ^ E) ltac:(nia)) as Herr.
  replace (F64.rne N (d * 2 ^ E) * 2 ^ E * d)
    with (F64.rne N (d * 2 ^ E) * (d * 2 ^ E)) by ring.
  done.
Qed.

Lemma round_units_exact (N d : Z) :
  0 < d → (d * 2 ^ F64.spacing (Z.abs N) d | N) → F64.round_units N d * d = N.
Proof.
  intros Hd [k Hk]. unfold F64.round_units.
  destruct (spacing_spec (Z.abs N) d Hd) as [HE _].
  set (E := F64.spacing (Z.abs N) d) in *.
  assert (0 < 2 ^ E) as HpE by (by apply Z.pow_pos_nonneg).
  rewrite Hk at 1. rewrite rne_exact by nia. rewrite Hk. ring.
Qed.

(** A multiple of the least positive value is rounded with a relative
    error of at most [2^-53]. *)
Lemma round_units_error (K d : Z) :
  0 < d → 2 ^ 53 * Z.abs (F64.round_units (K * d) d - K) ≤ Z.abs K.
Proof.
  intros Hd.
  destruct (spacing_spec (Z.abs (K * d)) d Hd) as [HE Hlo].
  destruct (Z.eq_dec (F64.spacing (Z.abs (K * d)) d) 0) as [Hz|Hnz].
  - pose proof (round_units_exact (K * d) d Hd) as Hex.
    rewrite Hz in Hex. rewrite Z.mul_1_r in Hex.
    specialize (Hex ltac:(by exists K)).
    assert (F64.round_units (K * d) d = K) as -> by nia.
    rewrite Z.sub_diag. simpl. lia.
  - specialize (Hlo ltac:(lia)).
    pose proof (round_units_near (K * d) d Hd) as Hnear.
    set (E := F64.spacing (Z.abs (K * d)) d) in *.
    set (R := F64.round_units (K * d) d) in *.
    assert (0 < 2 ^ E) as HpE by (by apply Z.pow_pos_nonneg).
    rewrite Z.pow_add_r in Hlo by lia.
    replace (R * d - K * d) with ((R - K) * d) in Hnear by ring.
    rewrite Z.abs_mul in Hnear, Hlo.
    rewrite (Z.abs_eq d) in Hnear, Hlo by lia.
    assert (2 ^ 53 = 2 * 2 ^ 52) as -> by done.
    set (P := 2 ^ 52) in *. assert (0 < P) by done.
    nia.
Qed.

Lemma denom_pos : 0 < F64.denom.
Proof. unfold F64.denom. by apply Z.pow_pos_nonneg. Qed.


(** Whole numbers up to [2^53] are numbers of the format. *)
Lemma round_units_int (z : Z) :
  Z.abs z ≤ 2 ^ 53 → F64.round_units (z * F64.denom) 1 = z * F64.denom.
Proof.
  intros Hz. rewrite <- (Z.mul_1_r (F64.round_units _ _)).
  apply round_units_exact; [done|]. rewrite Z.mul_1_l.
  unfold F64.spacing.
  pose proof denom_pos as HG.
  destruct (Z.ltb_spec (Z.abs (z * F64.denom)) 1) as [|Hge]; [apply Z.divide_1_l|].
  destruct (floor_log2_spec (Z.abs (z * F64.denom)) 1 ltac:(lia)) as (Hfl & Hlo & _).
  set (fl := F64.floor_log2 _ _) in *.
  rewrite Z.mul_1_l, Z.abs_mul, (Z.abs_eq F64.denom) in Hlo by lia.
  assert (2 ^ fl ≤ 2 ^ 1127) as Hp.
  { etrans; [exact Hlo|]. change (2 ^ 1127) with (2 ^ 53 * F64.denom). nia. }
  apply Z.pow_le_mono_r_iff in Hp; [|lia..].
  destruct (Z.le_gt_cases (fl - 52) 1074) as [Hsmall|Hbig].
  - exists (z * 2 ^ (1074 - Z.max (fl - 52) 0)).
    rewrite <- Z.mul_assoc, <- Z.pow_add_r by lia.
    unfold F64.denom. do 2 f_equal. lia.
  - assert (fl = 1127) as Hfl' by lia. rewrite Hfl' in *.
    change (2 ^ 1127) with (2 ^ 53 * F64.denom) in Hlo.
    assert (Z.abs z = 2 ^ 53) as Habs by nia.
    change (Z.max (1127 - 52) 0) with 1075.
    change (2 ^ 1075) with (2 * F64.denom).
    destruct (Z.abs_eq_or_opp z) as [Hz'|Hz']; rewrite Habs in Hz'.
    + exists (2 ^ 52). rewrite <- Hz'. change (2 ^ 53) with (2 ^ 52 * 2). ring.
    + exists (- 2 ^ 52). replace z with (- 2 ^ 53) by lia.
      change (2 ^ 53) with (2 ^ 52 * 2). ring.
Qed.

Lemma int_below_huge (z : Z) :
  Z.abs z ≤ 2 ^ 53 → - F64.huge < z * F64.denom < F64.huge.
Proof.
  intros Hz. pose proof denom_pos.
  assert (2 ^ 53 * F64.denom < F64.huge) by done.
  nia.
Qed.

#[local] Opaque F64.denom F64.huge.

Lemma Zpos_denom : Z.pos (Z.to_pos F64.denom) = F64.denom.
Proof. apply Z2Pos.id, denom_pos. Qed.

Lemma of_units_this (K : Z) : (this (F64.of_units K) == K # Z.to_pos F64.denom)%Q.
Proof. apply Qred_correct. Qed.

Lemma units_of (K : Z) :
  Qnum (F64.of_units K) * F64.denom = K * Z.pos (Qden (F64.of_units K)).
Proof.
  pose proof (of_units_this K) as H. unfold Qeq in H. cbn [Qnum Qden] in H.
  by rewrite Zpos_denom in H.
Qed.

Lemma of_units_lt (K1 K2 : Z) : (F64.of_units K1 < F64.of_units K2)%Qc ↔ K1 < K2.
Proof.
  unfold Qclt. rewrite !of_units_this. unfold Qlt. cbn [Qnum Qden].
  rewrite Zpos_denom. pose proof denom_pos. nia.
Qed.

Lemma of_units_le (K1 K2 : Z) : (F64.of_units K1 <= F64.of_units K2)%Qc ↔ K1 ≤ K2.
Proof.
  unfold Qcle. rewrite !of_units_this. unfold Qle. cbn [Qnum Qden].
  rewrite Zpos_denom. pose proof denom_pos. nia.
Qed.


Lemma of_units_0 : F64.of_units 0 = 0%Qc.
Proof. apply Qc_is_canon. rewrite of_units_this. done. Qed.

Lemma of_units_add (K1 K2 : Z) :
  (F64.of_units K1 + F64.of_units K2)%Qc = F64.of_units (K1 + K2).
Proof.
  apply Qc_is_canon. unfold Qcplus. cbn [this Q2Qc].
  rewrite Qred_correct, !of_units_this.
  unfold Qeq, Qplus. cbn [Qnum Qden]. rewrite Pos2Z.inj_mul. ring.
Qed.

Lemma of_units_opp (K : Z) : (- F64.of_units K)%Qc = F64.of_units (- K).
Proof.
  apply Qc_is_canon. unfold Qcopp. cbn [this Q2Qc].
  rewrite Qred_correct, !of_units_this. done.
Qed.

Lemma of_units_Z (z : Z) : F64.of_units (z * F64.denom) = Qc_of_Z z.
Proof.
  apply Qc_is_canon. rewrite of_units_this.
  change (this (Qc_of_Z z)) with (inject_Z z).
  unfold Qeq, inject_Z. cbn [Qnum Qden]. rewrite Zpos_denom. ring.
Qed.

(** *** Rounding a multiple of the least positive value *)

Lemma round_of_units (K : Z) :
  ∃ K', 2 ^ 53 * Z.abs (K' - K) ≤ Z.abs K
      ∧ (0 < K ↔ 0 < K') ∧ (K < 0 ↔ K' < 0)
      ∧ F64.round (F64.of_units K)
        = if F64.huge <=? K' then PInf
          else if K' <=? - F64.huge then NInf
          else Fin (F64.of_units K').
Proof.
  set (d := Z.pos (Qden (F64.of_units K))).
  assert (0 < d) as Hd by done.
  exists (F64.round_units (K * d) d). split_and!.
  - by apply round_units_error.
  - split; intros HK.
    + pose proof (round_units_pos (K * d) d Hd ltac:(nia)). lia.
    + destruct (Z.le_gt_cases K 0) as [Hle|]; [|done].
      pose proof (round_units_nonpos (K * d) d Hd ltac:(nia)). lia.
  - split; intros HK.
    + pose proof (round_units_neg (K * d) d Hd ltac:(nia)). lia.
    + destruct (Z.le_gt_cases 0 K) as [Hle|]; [|done].
      pose proof (round_units_nonneg (K * d) d Hd ltac:(nia)). lia.
  - unfold F64.round. by rewrite units_of.
Qed.

Lemma round_on_grid (q : Qc) : Spec64.on_grid (F64.round q).
Proof.
  unfold F64.round. repeat case_match; try done. by eexists.
Qed.

Lemma rnd_on_grid (x : num) : Spec64.on_grid (F64.rnd x).
Proof. destruct x; [apply round_on_grid | done..]. Qed.

Lemma zero_on_grid : Spec64.on_grid zero.
Proof. exists 0. by rewrite of_units_0. Qed.





Lemma round_int (z : Z) :
  Z.abs z ≤ 2 ^ 53 → F64.round (Qc_of_Z z) = of_Z z.
Proof.
  intros Hz. unfold F64.round.
  change (Qnum (Qc_of_Z z)) with z. change (Z.pos (Qden (Qc_of_Z z))) with 1.
  rewrite round_units_int by done.
  pose proof (int_below_huge z Hz).
  destruct (Z.leb_spec F64.huge (z * F64.denom)); [lia|].
  destruct (Z.leb_spec (z * F64.denom) (- F64.huge)); [lia|].
  by rewrite of_units_Z.
Qed.

Lemma fadd_int (a b : Z) :
  Z.abs (a + b) ≤ 2 ^ 53 → F64.add (of_Z a) (of_Z b) = of_Z (a + b).
Proof.
  intros H. unfold F64.add, of_Z. cbn [JS.add F64.rnd].
  rewrite <- Z2Qc_inj_add. by apply round_int.
Qed.

Lemma rnd_not_nan (x : num) : is_nan (F64.rnd x) = is_nan x.
Proof.
  destruct x; try done. cbn [F64.rnd is_nan]. unfold F64.round.
  by repeat case_match.
Qed.

Lemma rnd_fin (x : num) : is_fin (F64.rnd x) = true → is_fin x = true.
Proof. by destruct x. Qed.


Lemma fadd_fin (x y : num) :
  is_fin (F64.add x y) = true → is_fin x = true ∧ is_fin y = true.
Proof.
  unfold F64.add. intros H%rnd_fin. by destruct x, y.
Qed.


End Binary64.

(** ** Sums that a loop computes *)

Lemma fsum_snoc (l : list num) (x : num) :
  Spec64.fsum (l ++ [x]) = F64.add (Spec64.fsum l) x.
Proof. unfold Spec64.fsum. by rewrite foldl_snoc. Qed.




(** The sums of small counts are exact. *)
Lemma whole_of_Z (x : num) (z : Z) : Spec64.whole x = Some z → x = of_Z z.
Proof.
  destruct x as [q| | |]; try done. cbn [Spec64.whole].
  destruct (decide (Qden q = 1%positive)) as [Hd|]; [|done].
  intros [= <-]. unfold of_Z. f_equal. apply Qc_is_canon.
  change (this (Qc_of_Z (Qnum q))) with (inject_Z (Qnum q)).
  unfold Qeq, inject_Z. cbn [Qnum Qden]. by rewrite Hd.
Qed.

Lemma add_of_Z (a b : Z) : JS.add (of_Z a) (of_Z b) = of_Z (a + b).
Proof. unfold of_Z. cbn [JS.add]. by rewrite Z2Qc_inj_add. Qed.

Lemma abs_total_nonneg (l : list num) (t : Z) :
  Spec64.abs_total l = Some t → (0 ≤ t)%Z.
Proof.
  revert t. induction l as [|x l IH]; intros t; cbn [Spec64.abs_total].
  - intros [= <-]. done.
  - destruct (Spec64.whole x) as [zx|]; [|done]. cbn.
    destruct (Spec64.abs_total l) as [t'|]; [|done]. cbn.
    intros [= <-]. specialize (IH t' eq_refl). lia.
Qed.

Lemma foldl_fadd_small (l : list num) (a t : Z) :
  Spec64.abs_total l = Some t → (Z.abs a + t ≤ 2 ^ 53)%Z →
  ∃ z, foldl F64.add (of_Z a) l = of_Z (a + z) ∧ sum_nums l = of_Z z.
Proof.
  revert a t. induction l as [|x l IH]; intros a t; cbn [Spec64.abs_total].
  - intros _ _. exists 0%Z. split; [by rewrite Z.add_0_r | by rewrite of_Z_0].
  - destruct (Spec64.whole x) as [zx|] eqn:Hx; [|done]. cbn.
    destruct (Spec64.abs_total l) as [t'|] eqn:Hl; [|done]. cbn.
    intros [= <-] Hb. apply whole_of_Z in Hx as ->.
    pose proof (abs_total_nonneg l t' Hl).
    cbn [foldl]. rewrite fadd_int by lia.
    destruct (IH (a + zx)%Z t' eq_refl ltac:(lia)) as (z & -> & Hz).
    exists (zx + z)%Z. split; [f_equal; lia|].
    unfold sum_nums in *. cbn [foldr]. by rewrite Hz, add_of_Z.
Qed.

Lemma fsum_small (l : list num) :
  Spec64.small_counts l = true → Spec64.fsum l = sum_nums l.
Proof.
  unfold Spec64.small_counts.
  destruct (Spec64.abs_total l) as [t|] eqn:Hl; [|done].
  intros Ht%Z.leb_le.
  destruct (foldl_fadd_small l 0 t Hl ltac:(lia)) as (z & Hf & ->).
  unfold Spec64.fsum. by rewrite <- of_Z_0, Hf.
Qed.

Lemma small_counts_filter {R} (f : R → num) (P : R → Prop)
    `{!∀ r, Decision (P r)} (rs : list R) :
  Spec64.small_counts (f <$> rs) = true →
  Spec64.small_counts (f <$> filter P rs) = true.
Proof.
  unfold Spec64.small_counts.
  assert (∀ t, Spec64.abs_total (f <$> rs) = Some t →
    ∃ t', Spec64.abs_total (f <$> filter P rs) = Some t' ∧ (0 ≤ t' ≤ t)%Z) as Hsub.
  { induction rs as [|r rs IH]; intros t.
    - intros [= <-]. by exists 0%Z.
    - rewrite fmap_cons, filter_cons. cbn [Spec64.abs_total].
      destruct (Spec64.whole (f r)) as [z|] eqn:Hz; [|done].
      destruct (Spec64.abs_total (f <$> rs)) as [t0|]; [|done].
      cbn [mbind option_bind].
      intros [= <-]. destruct (IH t0 eq_refl) as (t' & Ht' & Hle).
      destruct (decide (P r)).
      + rewrite fmap_cons. cbn [Spec64.abs_total]. rewrite Hz, Ht'.
        cbn [mbind option_bind]. eexists. split; [done|]. lia.
      + exists t'. split; [done|]. lia. }
  destruct (Spec64.abs_total (f <$> rs)) as [t|]; [|done].
  intros Ht%Z.leb_le. destruct (Hsub t eq_refl) as (t' & -> & Hle).
  apply Z.leb_le. lia.
Qed.

(** ** Grouping with the sums of the loop *)

Section GroupFsums.
Context {R V : Type} (key : R → string) (init : string → V) (upd : R → V → V).
Context (p : V → num) (f : R → num).
Hypothesis p_init : ∀ k, p (init k) = zero.
Hypothesis p_upd : ∀ r v, p (upd r v) = F64.add (p v) (f r).

Lemma group_value_fsum k rs :
  p (group_value key init upd k rs) = Spec64.key_fsum key f k rs.
Proof.
  unfold group_value, Spec64.key_fsum, Spec64.fsum.
  generalize (filter (λ r, key r = k) rs). intros l.
  rewrite <- (p_init k). generalize (init k).
  induction l as [|r l IH]; intros v; [done|].
  rewrite fmap_cons. cbn [foldl]. by rewrite IH, p_upd.
Qed.
End GroupFsums.



(** ** The daily report, with the arithmetic of the engine *)

Lemma daily64_loop_spec lm cd tot rows :
  Daily64.loop lm (cd, tot) rows
  = cs ← Spec64.contributions lm rows;
    Ok (foldl (agg_step Daily.name Daily.new_stats Spec64.upd_stats) cd cs,
        foldl Spec64.tot_step tot cs).
Proof.
  revert cd tot. induction rows as [|r rows IH]; intros cd tot; [done|].
  cbn [Daily64.loop Spec64.contributions].
  unfold Daily64.loop_body, Spec64.contribution.
  destruct (Daily.Cost r) as [c|]; [|done]. cbn.
  destruct (gt (F64.parseFloat (remove_commas c)) zero); cbn.
  - destruct (Daily.Impressions r) as [im|]; [|done]. cbn.
    destruct (Daily.Clicks r) as [cl|]; [|done]. cbn.
    destruct (Daily.Conversions r) as [cv|]; [|done]. cbn.
    rewrite IH. by destruct (Spec64.contributions lm rows).
  - rewrite IH. by destruct (Spec64.contributions lm rows).
Qed.

Lemma tot_step64_sums cs :
  foldl Spec64.tot_step Daily.zero_totals cs
  = {| Daily.tot_spend := Spec64.fsum (Daily.spend <$> cs);
       Daily.tot_impressions := Spec64.fsum (Daily.impressions <$> cs);
       Daily.tot_clicks := Spec64.fsum (Daily.clicks <$> cs);
       Daily.tot_conversions := Spec64.fsum (Daily.conversions <$> cs) |}.
Proof.
  induction cs as [|s cs IH] using rev_ind; [done|].
  rewrite foldl_snoc, IH, !fmap_app. csimpl. by rewrite !fsum_snoc.
Qed.

Lemma bucket64_spec cs k :
  Spec64.bucket_of cs k
  = {| Daily.name := k;
       Daily.spend := Spec64.key_fsum Daily.name Daily.spend k cs;
       Daily.impressions := Spec64.key_fsum Daily.name Daily.impressions k cs;
       Daily.clicks := Spec64.key_fsum Daily.name Daily.clicks k cs;
       Daily.conversions := Spec64.key_fsum Daily.name Daily.conversions k cs |}.
Proof.
  assert (Daily.name (Spec64.bucket_of cs k) = k) as Hname.
  { unfold Spec64.bucket_of, group_value.
    generalize (filter (λ r, Daily.name r = k) cs). intros l.
    change k with (Daily.name (Daily.new_stats k)) at 2.
    generalize (Daily.new_stats k). induction l as [|s l IH]; intros b; [done|].
    cbn [foldl]. by rewrite IH. }
  pose proof (group_value_fsum Daily.name Daily.new_stats Spec64.upd_stats
                Daily.spend Daily.spend (λ _, eq_refl) (λ _ _, eq_refl) k cs) as H1.
  pose proof (group_value_fsum Daily.name Daily.new_stats Spec64.upd_stats
                Daily.impressions Daily.impressions (λ _, eq_refl) (λ _ _, eq_refl) k cs)
    as H2.
  pose proof (group_value_fsum Daily.name Daily.new_stats Spec64.upd_stats
                Daily.clicks Daily.clicks (λ _, eq_refl) (λ _ _, eq_refl) k cs) as H3.
  pose proof (group_value_fsum Daily.name Daily.new_stats Spec64.upd_stats
                Daily.conversions Daily.conversions (λ _, eq_refl) (λ _ _, eq_refl) k cs)
    as H4.
  fold (Spec64.bucket_of cs k) in H1, H2, H3, H4.
  destruct (Spec64.bucket_of cs k). cbn in *. by subst.
Qed.

(** What [getCountryData] computes, in terms of the accepted rows *)
Lemma daily64_try_spec locs rows :
  Daily64.getCountryData_try (Ok locs) (Ok rows)
  = cs ← Spec64.contributions (Daily.locationMap locs) rows;
    Ok {| Daily.countries :=
            sort Daily64.by_spend_desc
              (Daily64.with_metrics
                 <$> (Spec64.bucket_of cs <$> first_occ (Daily.name <$> cs)));
          Daily.totals := foldl Spec64.tot_step Daily.zero_totals cs |}.
Proof.
  unfold Daily64.getCountryData_try. cbn. rewrite daily64_loop_spec.
  destruct (Spec64.contributions _ rows) as [cs|e]; [|done]. cbn.
  rewrite agg_closed_form. unfold jvalues.
  rewrite <- !list_fmap_compose. done.
Qed.

Lemma daily64_run locationReport report (w : world Empty_set Daily.email_html) :
  Daily64.getCountryData locationReport report w
  = match Daily64.getCountryData_try locationReport report with
    | Ok rep => (Ok rep, w)
    | Throw e =>
        (Ok Daily.empty_report,
         {| logs := logs w ++ ["Error retrieving or processing data: " +:+ e];
            sheet := sheet w; outbox := outbox w |})
    end.
Proof.
  unfold Daily64.getCountryData, try_catch, lift.
  by destruct (Daily64.getCountryData_try locationReport report).
Qed.

(** The numbers of an accepted row, and its cost, which is greater
    than 0 *)
Lemma contributions64_rows lm rows cs :
  Spec64.contributions lm rows = Ok cs →
  Forall (λ s, gt (Daily.spend s) zero = true
               ∧ Spec64.on_grid (Daily.spend s)
               ∧ Spec64.on_grid (Daily.impressions s)
               ∧ Spec64.on_grid (Daily.clicks s)
               ∧ Spec64.on_grid (Daily.conversions s)) cs.
Proof.
  revert cs. induction rows as [|r rows IH]; intros cs; cbn [Spec64.contributions].
  - intros [= <-]. constructor.
  - destruct (Spec64.contribution lm r) as [o|] eqn:Er; [|done]. cbn.
    destruct (Spec64.contributions lm rows) as [cs'|]; [|done]. cbn.
    intros [= <-]. destruct o as [s|]; [|by apply IH].
    constructor; [|by apply IH].
    unfold Spec64.contribution in Er.
    destruct (Daily.Cost r) as [c|]; [|done]. cbn in Er.
    destruct (gt (F64.parseFloat (remove_commas c)) zero) eqn:E; [|done]. cbn in Er.
    destruct (Daily.Impressions r); [|done]. cbn in Er.
    destruct (Daily.Clicks r); [|done]. cbn in Er.
    destruct (Daily.Conversions r); [|done]. cbn in Er.
    injection Er as <-. cbn. split_and!; [done|apply rnd_on_grid..].
Qed.

Lemma contributions64_unreadable lm rows :
  match Spec64.contributions lm rows with
  | Ok _ => existsb Spec64.unreadable rows = false
  | Throw _ => existsb Spec64.unreadable rows = true
  end.
Proof.
  induction rows as [|r rows IH]; [done|].
  cbn [Spec64.contributions existsb].
  unfold Spec64.contribution, Spec64.unreadable at 1 3.
  destruct (Daily.Cost r) as [c|]; [|done]. cbn.
  destruct (gt (F64.parseFloat (remove_commas c)) zero); cbn.
  - destruct (Daily.Impressions r); [|done]. cbn.
    destruct (Daily.Clicks r); [|done]. cbn.
    destruct (Daily.Conversions r); [|done]. cbn.
    by destruct (Spec64.contributions lm rows).
  - by destruct (Spec64.contributions lm rows).
Qed.




(** ** The country tab, with the arithmetic of the engine *)

Lemma dashboard64_bucket names report k :
  group_value (label_of names) (λ _, Dashboard.new_bucket) Dashboard64.add_row k report
  = Spec64.dashboard_bucket names report k.
Proof.
  set (b := group_value _ _ _ k report).
  pose proof (group_value_fsum (label_of names) (λ _, Dashboard.new_bucket)
                Dashboard64.add_row Dashboard.clicks Spec64.clicks_of
                (λ _, eq_refl) (λ _ _, eq_refl) k report) as H1.
  pose proof (group_value_fsum (label_of names) (λ _, Dashboard.new_bucket)
                Dashboard64.add_row Dashboard.impressions Spec64.impressions_of
                (λ _, eq_refl) (λ _ _, eq_refl) k report) as H2.
  pose proof (group_value_fsum (label_of names) (λ _, Dashboard.new_bucket)
                Dashboard64.add_row Dashboard.cost Spec64.cost_of
                (λ _, eq_refl) (λ _ _, eq_refl) k report) as H3.
  pose proof (group_value_fsum (label_of names) (λ _, Dashboard.new_bucket)
                Dashboard64.add_row Dashboard.convValue Spec64.convValue_of
                (λ _, eq_refl) (λ _ _, eq_refl) k report) as H4.
  pose proof (group_value_fsum (label_of names) (λ _, Dashboard.new_bucket)
                Dashboard64.add_row Dashboard.conversions Spec64.conversions_of
                (λ _, eq_refl) (λ _ _, eq_refl) k report) as H5.
  pose proof (group_value_fsum (label_of names) (λ _, Dashboard.new_bucket)
                Dashboard64.add_row Dashboard.allConversions Spec64.allConversions_of
                (λ _, eq_refl) (λ _ _, eq_refl) k report) as H6.
  fold b in H1, H2, H3, H4, H5, H6.
  unfold Spec64.dashboard_bucket. destruct b. cbn in *. by subst.
Qed.

Lemma dashboard64_rows_spec names report :
  Dashboard64.exportTopCountriesData names report
  = sort Dashboard64.by_cost_desc
      (Dashboard64.to_row <$>
        Dashboard.for_in
          ((λ k, (k, Spec64.dashboard_bucket names report k))
           <$> first_occ (label_of names <$> report))).
Proof.
  unfold Dashboard64.exportTopCountriesData.
  change (foldl (Dashboard64.loop_body (Dashboard.getCountryNames names)) [] report)
    with (foldl (agg_step (label_of names) (λ _, Dashboard.new_bucket)
                   Dashboard64.add_row) [] report).
  rewrite agg_closed_form. do 3 f_equal.
  apply list_fmap_ext. intros i k _. by rewrite dashboard64_bucket.
Qed.

Lemma dashboard64_rows_perm names report :
  Dashboard64.exportTopCountriesData names report
  ≡ₚ (λ k, Dashboard64.to_row (k, Spec64.dashboard_bucket names report k))
       <$> first_occ (label_of names <$> report).
Proof.
  rewrite dashboard64_rows_spec, sort_perm, for_in_perm.
  by rewrite <- list_fmap_compose.
Qed.





(** ** The error of a sum of rounded additions *)

Section Tolerance.
Local Open Scope Z_scope.

Lemma tol_step (P b c A S K K' x : Z) :
  0 < P → 0 < b ≤ c → Z.abs S ≤ A →
  b * Z.abs (K - S) ≤ (c - b) * A →
  P * Z.abs (K' - (K + x)) ≤ Z.abs (K + x) →
  P * b * Z.abs (K' - (S + x)) ≤ ((P + 1) * c - P * b) * (A + Z.abs x).
Proof.
  intros HP Hb HS H0 H1.
  set (e0 := Z.abs (K - S)) in *. set (e1 := Z.abs (K' - (K + x))) in *.
  assert (Z.abs (K' - (S + x)) ≤ e1 + e0) as Ht by lia.
  assert (Z.abs (K + x) ≤ e0 + A + Z.abs x) as Hk by lia.
  assert (0 ≤ e0) as He0 by lia. assert (0 ≤ e1) as He1 by lia.
  set (ax := Z.abs x) in *. assert (0 ≤ ax) as Hax by lia.
  set (E := Z.abs (K' - (S + x))) in *.
  assert (b * (P * e1) ≤ b * (e0 + A + ax)) as G2 by nia.
  assert (P * (b * e0) ≤ P * ((c - b) * A)) as G3 by nia.
  assert (P * b * E ≤ b * (P * e1) + P * (b * e0)) as G4 by nia.
  assert (0 ≤ (c - b) * ax) as G5 by nia.
  assert (0 ≤ P * ((c - b) * ax)) as G6 by nia.
  nia.
Qed.

Lemma pow_succ_nat (P : Z) (n : nat) : P ^ Z.of_nat (S n) = P * P ^ Z.of_nat n.
Proof. rewrite Nat2Z.inj_succ. apply Z.pow_succ_r. lia. Qed.

Lemma pow_bounds (n : nat) :
  0 < (2 ^ 53) ^ Z.of_nat n ≤ (2 ^ 53 + 1) ^ Z.of_nat n.
Proof.
  split.
  - apply Z.pow_pos_nonneg; lia.
  - apply Z.pow_le_mono_l. lia.
Qed.

Lemma small_step (n : nat) (A S K K' x : Z) :
  Z.abs S ≤ A →
  Spec64.small n A (Z.abs (K - S)) →
  2 ^ 53 * Z.abs (K' - (K + x)) ≤ Z.abs (K + x) →
  Spec64.small (Datatypes.S n) (A + Z.abs x) (Z.abs (K' - (S + x))).
Proof.
  unfold Spec64.small. intros HS H0 H1. rewrite !pow_succ_nat.
  pose proof (pow_bounds n).
  apply (tol_step _ _ _ A S K K' x); [lia | done | done | done | done].
Qed.

Lemma small_succ (n : nat) (a e : Z) :
  0 ≤ a → Spec64.small n a e → Spec64.small (S n) a e.
Proof.
  unfold Spec64.small. intros Ha H. rewrite !pow_succ_nat.
  pose proof (pow_bounds n) as [Hb Hc].
  set (b := (2 ^ 53) ^ Z.of_nat n) in *. set (c := (2 ^ 53 + 1) ^ Z.of_nat n) in *.
  set (P := 2 ^ 53). assert (0 < P) by done.
  assert (P * (b * e) ≤ P * ((c - b) * a)) by nia.
  assert (0 ≤ c * a) by nia. nia.
Qed.

Lemma small_le (m n : nat) (a e : Z) :
  (m ≤ n)%nat → 0 ≤ a → Spec64.small m a e → Spec64.small n a e.
Proof.
  intros Hmn Ha H. induction Hmn as [|n _ IH]; [done|]. by apply small_succ.
Qed.

Lemma small_add (n : nat) (a1 a2 e1 e2 E : Z) :
  Spec64.small n a1 e1 → Spec64.small n a2 e2 → E ≤ e1 + e2 →
  Spec64.small n (a1 + a2) E.
Proof.
  unfold Spec64.small. intros H1 H2 HE.
  pose proof (pow_bounds n) as [Hb Hc].
  set (b := (2 ^ 53) ^ Z.of_nat n) in *. set (c := (2 ^ 53 + 1) ^ Z.of_nat n) in *.
  nia.
Qed.

Lemma small_zero (n : nat) (a : Z) : 0 ≤ a → Spec64.small n a 0.
Proof.
  unfold Spec64.small. intros Ha. pose proof (pow_bounds n). nia.
Qed.

(** *** Numbers and their units *)

Lemma to_units_of_units (K : Z) : Spec64.to_units (Fin (F64.of_units K)) = K.
Proof.
  cbn [Spec64.to_units]. rewrite units_of. by apply Z.div_mul.
Qed.

Lemma fin_on_grid (x : num) :
  is_fin x = true → Spec64.on_grid x → x = Fin (F64.of_units (Spec64.to_units x)).
Proof.
  destruct x as [q| | |]; try done. intros _ [K ->]. by rewrite to_units_of_units.
Qed.

Lemma zsum_app (l1 l2 : list Z) :
  Spec64.zsum (l1 ++ l2) = Spec64.zsum l1 + Spec64.zsum l2.
Proof.
  unfold Spec64.zsum. induction l1 as [|x l1 IH]; cbn [foldr app]; lia.
Qed.

Lemma zsum_perm (l1 l2 : list Z) : l1 ≡ₚ l2 → Spec64.zsum l1 = Spec64.zsum l2.
Proof.
  unfold Spec64.zsum.
  induction 1 as [|x l1 l2 _ IH|x y l|l1 l2 l3 _ IH1 _ IH2]; cbn [foldr]; lia.
Qed.

Lemma zsum_abs (l : list Z) : Z.abs (Spec64.zsum l) ≤ Spec64.zsum (Z.abs <$> l).
Proof.
  unfold Spec64.zsum. induction l as [|x l IH]; [done|].
  rewrite fmap_cons. cbn [foldr]. lia.
Qed.

Lemma zsum_abs_nonneg (l : list Z) : 0 ≤ Spec64.zsum (Z.abs <$> l).
Proof. pose proof (zsum_abs l). lia. Qed.

Lemma sum_nums_units (l : list num) :
  Forall (λ x, is_fin x = true ∧ Spec64.on_grid x) l →
  sum_nums l = Fin (F64.of_units (Spec64.zsum (Spec64.to_units <$> l))).
Proof.
  induction 1 as [|x l [Hx Hg] _ IH].
  - unfold sum_nums, Spec64.zsum. cbn. by rewrite of_units_0.
  - rewrite fmap_cons. unfold sum_nums, Spec64.zsum in *. cbn [foldr].
    rewrite IH. rewrite (fin_on_grid x Hx Hg) at 1. cbn [JS.add].
    by rewrite of_units_add.
Qed.

Lemma abs_units (K : Z) : abs (Fin (F64.of_units K)) = Fin (F64.of_units (Z.abs K)).
Proof.
  cbn [abs]. f_equal. rewrite <- of_units_0.
  destruct (Qc_ltb (F64.of_units K) (F64.of_units 0)) eqn:E.
  - apply Qc_ltb_lt in E. apply (proj1 (of_units_lt _ _)) in E.
    rewrite of_units_opp. f_equal. lia.
  - apply Qc_ltb_nlt in E. apply (proj1 (of_units_le _ _)) in E. f_equal. lia.
Qed.

Lemma sum_abs_units (l : list num) :
  Forall (λ x, is_fin x = true ∧ Spec64.on_grid x) l →
  sum_nums (abs <$> l)
  = Fin (F64.of_units (Spec64.zsum (Z.abs <$> (Spec64.to_units <$> l)))).
Proof.
  induction 1 as [|x l [Hx Hg] _ IH].
  - unfold sum_nums, Spec64.zsum. cbn. by rewrite of_units_0.
  - rewrite !fmap_cons. unfold sum_nums, Spec64.zsum in *. cbn [foldr].
    rewrite IH. rewrite (fin_on_grid x Hx Hg) at 1. rewrite abs_units. cbn [JS.add].
    by rewrite of_units_add.
Qed.

(** The sum that a loop computes, in units *)
Lemma fsum_units (l : list num) :
  is_fin (Spec64.fsum l) = true → Forall Spec64.on_grid l →
  Forall (λ x, is_fin x = true ∧ Spec64.on_grid x) l
  ∧ ∃ K, Spec64.fsum l = Fin (F64.of_units K)
      ∧ Spec64.small (length l) (Spec64.zsum (Z.abs <$> (Spec64.to_units <$> l)))
          (Z.abs (K - Spec64.zsum (Spec64.to_units <$> l))).
Proof.
  induction l as [|x l IH] using rev_ind.
  - intros _ _. split; [constructor|]. exists 0. split.
    + unfold Spec64.fsum. cbn. unfold zero. by rewrite of_units_0.
    + by apply small_zero.
  - rewrite fsum_snoc. intros Hl' [Hgl Hgx%Forall_inv]%Forall_app.
    pose proof (fadd_fin _ _ Hl') as [Hl Hx].
    destruct (IH Hl Hgl) as (Hall & K & HK & Hsmall).
    split; [apply Forall_app; split; [done | by constructor]|].
    rewrite (fin_on_grid x Hx Hgx) in *. set (Kx := Spec64.to_units x) in *.
    rewrite !fmap_app, !zsum_app, length_app. cbn [fmap list_fmap length].
    rewrite to_units_of_units. unfold Spec64.zsum at 2 4. cbn [foldr].
    rewrite !Z.add_0_r, HK. unfold F64.add. cbn [JS.add F64.rnd].
    rewrite of_units_add.
    assert (is_fin (F64.round (F64.of_units (K + Kx))) = true) as Hfin.
    { rewrite <- of_units_add. by rewrite HK in Hl'. }
    destruct (round_of_units (K + Kx)) as (K' & Herr & _ & _ & Hr).
    rewrite Hr in *.
    exists K'. split.
    + by repeat case_match.
    + replace (length l + 1)%nat with (S (length l)) by lia.
      apply (small_step _ _ _ K K' Kx); [apply zsum_abs | done | done].
Qed.

(** *** From units to numbers *)

Lemma pow_onehalf_this (n : nat) :
  (this ((1 + Q2Qc (1 # 2 ^ 53)) ^ n)%Qc
   == (2 ^ 53 + 1) ^ Z.of_nat n # Z.to_pos ((2 ^ 53) ^ Z.of_nat n))%Q.
Proof.
  induction n as [|n IH].
  - done.
  - pose proof (pow_bounds n) as [Hb Hc].
    pose proof (pow_bounds (S n)) as [Hb' Hc'].
    cbn [Qcpower]. unfold Qcmult at 1. cbn [this Q2Qc].
    rewrite Qred_correct, IH.
    unfold Qcplus. cbn [this Q2Qc]. rewrite !Qred_correct.
    unfold Qeq, Qmult, Qplus. cbn [Qnum Qden].
    rewrite !Pos2Z.inj_mul, !Z2Pos.id by done.
    change (Z.pos (2 ^ 53)) with (2 ^ 53).
    rewrite !pow_succ_nat. ring.
Qed.

Lemma rounding_this (n : nat) :
  (this (Spec64.rounding n)
   == (2 ^ 53 + 1) ^ Z.of_nat n - (2 ^ 53) ^ Z.of_nat n
      # Z.to_pos ((2 ^ 53) ^ Z.of_nat n))%Q.
Proof.
  pose proof (pow_bounds n) as [Hb Hc].
  unfold Spec64.rounding, Qcminus, Qcplus, Qcopp. cbn [this Q2Qc].
  rewrite !Qred_correct, pow_onehalf_this.
  unfold Qeq, Qplus, Qopp. cbn [Qnum Qden].
  rewrite !Pos2Z.inj_mul, !Z2Pos.id by done.
  change (Qred (- Qnum (Qred 1) # Qden (Qred 1))) with (-1 # 1)%Q.
  cbn [Qnum Qden]. ring.
Qed.

Lemma within_units (n : nat) (A X Y : Z) :
  Spec64.small n A (Z.abs (X - Y)) →
  Spec64.within (Spec64.rounding n) (Fin (F64.of_units A)) (Fin (F64.of_units X))
    (Fin (F64.of_units Y)).
Proof.
  unfold Spec64.small, Spec64.within. intros H.
  pose proof (pow_bounds n) as [Hb Hc]. pose proof denom_pos as HG.
  unfold sub. cbn [neg JS.add]. rewrite of_units_opp, of_units_add, abs_units.
  cbn [mul le]. unfold Qcle, Qcmult. cbn [this Q2Qc].
  rewrite Qred_correct, rounding_this, !of_units_this.
  unfold Qle, Qmult. cbn [Qnum Qden].
  rewrite !Pos2Z.inj_mul, !Z2Pos.id by done.
  replace (X + - Y) with (X - Y) by lia.
  set (b := (2 ^ 53) ^ Z.of_nat n) in *. set (c := (2 ^ 53 + 1) ^ Z.of_nat n) in *.
  set (e := Z.abs (X - Y)) in *. set (G := F64.denom) in *.
  nia.
Qed.

End Tolerance.

(** The buckets of a grouping add up to the exact sum of all the
    records, up to the rounding of the additions. *)
Section GroupedTolerance.
Context {R : Type} (key : R → string) (f : R → num) (rs : list R).
Hypothesis f_grid : Forall (λ r, Spec64.on_grid (f r)) rs.

Lemma bucket_units (k : string) :
  is_fin (Spec64.key_fsum key f k rs) = true →
  let l := f <$> filter (λ r, key r = k) rs in
  Forall (λ x, is_fin x = true ∧ Spec64.on_grid x) l
  ∧ ∃ K, Spec64.key_fsum key f k rs = Fin (F64.of_units K)
      ∧ Spec64.small (length rs) (Spec64.zsum (Z.abs <$> (Spec64.to_units <$> l)))
          (Z.abs (K - Spec64.zsum (Spec64.to_units <$> l))).
Proof.
  intros Hfin l.
  assert (Forall Spec64.on_grid l) as Hg.
  { apply Forall_fmap, Forall_forall. intros r [_ Hr]%list_elem_of_filter.
    rewrite Forall_forall in f_grid. by apply f_grid. }
  destruct (fsum_units l Hfin Hg) as (Hall & K & HK & Hsmall).
  split; [done|]. exists K. split; [done|].
  eapply small_le; [|apply zsum_abs_nonneg|exact Hsmall].
  unfold l. rewrite length_fmap. apply length_filter.
Qed.

Lemma abs_sub_add (a b c d : Z) :
  (Z.abs (a + b - (c + d)) ≤ Z.abs (a - c) + Z.abs (b - d))%Z.
Proof. lia. Qed.

Lemma buckets_units (ks : list string) :
  Forall (λ k, is_fin (Spec64.key_fsum key f k rs) = true) ks →
  let l := f <$> mjoin ((λ k, filter (λ r, key r = k) rs) <$> ks) in
  Forall (λ x, is_fin x = true ∧ Spec64.on_grid x) l
  ∧ ∃ K, sum_nums ((λ k, Spec64.key_fsum key f k rs) <$> ks) = Fin (F64.of_units K)
      ∧ Spec64.small (length rs) (Spec64.zsum (Z.abs <$> (Spec64.to_units <$> l)))
          (Z.abs (K - Spec64.zsum (Spec64.to_units <$> l))).
Proof.
  induction 1 as [|k ks Hk _ IH]; intros l.
  - split; [constructor|]. exists 0%Z. split.
    + unfold sum_nums. cbn. unfold zero. by rewrite of_units_0.
    + by apply small_zero.
  - destruct (bucket_units k Hk) as (Hall1 & K1 & HK1 & Hs1).
    destruct IH as (Hall2 & K2 & HK2 & Hs2).
    unfold l. rewrite !fmap_cons. cbn [mjoin list_join]. rewrite !fmap_app.
    split; [by apply Forall_app|]. exists (K1 + K2)%Z. split.
    + unfold sum_nums in *. cbn [foldr]. rewrite HK1, HK2. cbn [JS.add].
      by rewrite of_units_add.
    + rewrite !zsum_app. eapply small_add; [exact Hs1 | exact Hs2 |].
      apply abs_sub_add.
Qed.

Lemma grouped_units :
  Forall (λ k, is_fin (Spec64.key_fsum key f k rs) = true) (first_occ (key <$> rs)) →
  Forall (λ x, is_fin x = true ∧ Spec64.on_grid x) (f <$> rs)
  ∧ ∃ K, sum_nums ((λ k, Spec64.key_fsum key f k rs) <$> first_occ (key <$> rs))
         = Fin (F64.of_units K)
      ∧ Spec64.small (length rs)
          (Spec64.zsum (Z.abs <$> (Spec64.to_units <$> (f <$> rs))))
          (Z.abs (K - Spec64.zsum (Spec64.to_units <$> (f <$> rs)))).
Proof.
  intros Hfin. destruct (buckets_units _ Hfin) as (Hall & K & HK & Hsmall).
  assert (mjoin ((λ k, filter (λ r, key r = k) rs) <$> first_occ (key <$> rs)) ≡ₚ rs)
    as Hperm.
  { rewrite filters_by_key by apply first_occ_NoDup.
    apply reflexive_eq, filter_all, Forall_forall. intros r Hr.
    apply first_occ_elem, list_elem_of_fmap. by exists r. }
  split; [by rewrite <- Hperm|]. exists K. split; [done|].
  rewrite <- (zsum_perm _ _ (fmap_Permutation Spec64.to_units _ _
                              (fmap_Permutation f _ _ Hperm))).
  rewrite <- (zsum_perm _ _ (fmap_Permutation Z.abs _ _
                              (fmap_Permutation Spec64.to_units _ _
                                 (fmap_Permutation f _ _ Hperm)))).
  done.
Qed.

Lemma grouped_within :
  Forall (λ k, is_fin (Spec64.key_fsum key f k rs) = true) (first_occ (key <$> rs)) →
  Spec64.within (Spec64.rounding (length rs)) (sum_nums (abs <$> (f <$> rs)))
    (sum_nums ((λ k, Spec64.key_fsum key f k rs) <$> first_occ (key <$> rs)))
    (sum_nums (f <$> rs)).
Proof.
  intros Hfin. destruct (grouped_units Hfin) as (Hall & K & -> & Hsmall).
  rewrite (sum_nums_units (f <$> rs)), (sum_abs_units (f <$> rs)) by done.
  by apply within_units.
Qed.

(** The total that the loop computes and the sum of the buckets *)
Lemma grouped_agree :
  is_fin (Spec64.fsum (f <$> rs)) = true →
  Forall (λ k, is_fin (Spec64.key_fsum key f k rs) = true) (first_occ (key <$> rs)) →
  Spec64.agree (length rs) (f <$> rs) (Spec64.fsum (f <$> rs))
    (sum_nums ((λ k, Spec64.key_fsum key f k rs) <$> first_occ (key <$> rs))).
Proof.
  intros Htot Hfin. destruct (grouped_units Hfin) as (Hall & K & -> & Hsmall).
  destruct (fsum_units (f <$> rs) Htot) as (_ & T & -> & Hsmall').
  { by apply Forall_fmap. }
  rewrite length_fmap in Hsmall'.
  unfold Spec64.agree. cbv zeta.
  rewrite (sum_nums_units (f <$> rs)), (sum_abs_units (f <$> rs)) by done.
  cbn [JS.add]. rewrite of_units_add.
  split_and!; apply within_units; [done..|].
  eapply small_add; [exact Hsmall | exact Hsmall' |]. lia.
Qed.

(** Small counts: the buckets add up to the total, exactly. *)
Lemma sum_nums_mjoin (ls : list (list R)) :
  sum_nums (f <$> mjoin ls) = sum_nums ((λ l, sum_nums (f <$> l)) <$> ls).
Proof.
  induction ls as [|l ls IH]; [done|].
  rewrite fmap_cons. change (mjoin (l :: ls)) with (l ++ mjoin ls).
  rewrite fmap_app, sum_nums_app, IH. done.
Qed.

Lemma key_sums_regroup :
  sum_nums ((λ k, key_sum key f k rs) <$> first_occ (key <$> rs)) = sum_nums (f <$> rs).
Proof.
  transitivity (sum_nums (f <$> mjoin ((λ k, filter (λ r, key r = k) rs)
                                        <$> first_occ (key <$> rs)))).
  - by rewrite sum_nums_mjoin, <- list_fmap_compose.
  - apply sum_nums_perm, fmap_Permutation.
    rewrite filters_by_key by apply first_occ_NoDup.
    apply reflexive_eq, filter_all, Forall_forall. intros r Hr.
    apply first_occ_elem, list_elem_of_fmap. by exists r.
Qed.

Lemma grouped_small :
  Spec64.small_counts (f <$> rs) = true →
  sum_nums ((λ k, Spec64.key_fsum key f k rs) <$> first_occ (key <$> rs))
  = Spec64.fsum (f <$> rs).
Proof.
  intros Hs. rewrite fsum_small by done. rewrite <- key_sums_regroup. f_equal.
  apply list_fmap_ext. intros i k _. unfold Spec64.key_fsum, key_sum.
  apply fsum_small. by apply small_counts_filter.
Qed.
End GroupedTolerance.

(** ** The columns of the two reports, as sums over the keys *)

Lemma daily64_column (p : Daily.stats → num) (cs : list Daily.stats) :
  (∀ k, p (Spec64.bucket_of cs k) = Spec64.key_fsum Daily.name p k cs) →
  (p ∘ Daily.stat)
    <$> sort Daily64.by_spend_desc
          (Daily64.with_metrics
             <$> (Spec64.bucket_of cs <$> first_occ (Daily.name <$> cs)))
  ≡ₚ (λ k, Spec64.key_fsum Daily.name p k cs) <$> first_occ (Daily.name <$> cs).
Proof.
  intros Hp. rewrite sort_perm, <- !list_fmap_compose.
  apply reflexive_eq, list_fmap_ext. intros i k _. cbn. apply Hp.
Qed.

Lemma dashboard64_column (q : Dashboard.sheetRow → num) (f : Dashboard.geoRow → num)
    names report :
  (∀ k, q (Dashboard64.to_row (k, Spec64.dashboard_bucket names report k))
        = Spec64.key_fsum (label_of names) f k report) →
  q <$> Dashboard64.exportTopCountriesData names report
  ≡ₚ (λ k, Spec64.key_fsum (label_of names) f k report)
       <$> first_occ (label_of names <$> report).
Proof.
  intros Hq. rewrite dashboard64_rows_perm, <- list_fmap_compose.
  apply reflexive_eq, list_fmap_ext. intros i k _. cbn. apply Hq.
Qed.

Lemma or0_on_grid (x : num) : Spec64.on_grid x → Spec64.on_grid (or0 x).
Proof. unfold or0. destruct (truthy x); [done|]. intros _. apply zero_on_grid. Qed.

(** A column of small counts adds up to the sum over all the records. *)
Lemma column_small {R A} (key : R → string) (f : R → num) (rs : list R)
    (q : A → num) (tab : list A) :
  q <$> tab ≡ₚ (λ k, Spec64.key_fsum key f k rs) <$> first_occ (key <$> rs) →
  Spec64.small_counts (f <$> rs) = true →
  sum_nums (q <$> tab) = Spec64.fsum (f <$> rs).
Proof.
  intros Hperm Hs. rewrite (sum_nums_perm _ _ Hperm). by apply grouped_small.
Qed.

(** A column of finite sums is within the rounding of the sum over all
    the records. *)
Lemma column_within {R A} (key : R → string) (f : R → num) (rs : list R)
    (q : A → num) (tab : list A) :
  q <$> tab ≡ₚ (λ k, Spec64.key_fsum key f k rs) <$> first_occ (key <$> rs) →
  Forall (λ r, Spec64.on_grid (f r)) rs →
  Forall (λ x, is_fin (q x) = true) tab →
  Spec64.within (Spec64.rounding (length rs)) (sum_nums (abs <$> (f <$> rs)))
    (sum_nums (q <$> tab)) (sum_nums (f <$> rs)).
Proof.
  intros Hperm Hg Hfin. rewrite (sum_nums_perm _ _ Hperm).
  apply grouped_within; [done|].
  apply (Forall_fmap (λ k, Spec64.key_fsum key f k rs) (λ x, is_fin x = true)).
  rewrite <- Hperm. by apply Forall_fmap.
Qed.

Lemma column_agree {R A} (key : R → string) (f : R → num) (rs : list R)
    (q : A → num) (tab : list A) :
  q <$> tab ≡ₚ (λ k, Spec64.key_fsum key f k rs) <$> first_occ (key <$> rs) →
  Forall (λ r, Spec64.on_grid (f r)) rs →
  is_fin (Spec64.fsum (f <$> rs)) = true →
  Forall (λ x, is_fin (q x) = true) tab →
  Spec64.agree (length rs) (f <$> rs) (Spec64.fsum (f <$> rs)) (sum_nums (q <$> tab)).
Proof.
  intros Hperm Hg Htot Hfin. rewrite (sum_nums_perm _ _ Hperm).
  apply grouped_agree; [done..|].
  apply (Forall_fmap (λ k, Spec64.key_fsum key f k rs) (λ x, is_fin x = true)).
  rewrite <- Hperm. by apply Forall_fmap.
Qed.

(** ** The reports and the order of the rows *)

(** The accepted rows of a report read in another order *)
Lemma contributions64_perm lm rows rows' :
  rows ≡ₚ rows' →
  match Spec64.contributions lm rows, Spec64.contributions lm rows' with
  | Ok cs, Ok cs' => cs ≡ₚ cs'
  | Throw e, Throw e' => e = e'
  | _, _ => False
  end.
Proof.
  assert (∀ r e, Spec64.contribution lm r = Throw e →
            e = "TypeError: Cannot read properties of undefined (reading 'replace')")
    as Hmsg.
  { intros r e. unfold Spec64.contribution, replace_commas.
    destruct (Daily.Cost r); cbn; [|by intros [= <-]].
    destruct (gt _ _); [|done].
    destruct (Daily.Impressions r); cbn; [|by intros [= <-]].
    destruct (Daily.Clicks r); cbn; [|by intros [= <-]].
    destruct (Daily.Conversions r); cbn; [done | by intros [= <-]]. }
  induction 1 as [|r l l' Hp IH|r1 r2 l|l1 l2 l3 Hp1 IH1 Hp2 IH2].
  - by cbn.
  - cbn [Spec64.contributions].
    destruct (Spec64.contribution lm r) as [o|e0]; cbn; [|done].
    destruct (Spec64.contributions lm l) as [cs|e],
             (Spec64.contributions lm l') as [cs'|e']; cbn; try done.
    destruct o; [by constructor | done].
  - cbn [Spec64.contributions].
    destruct (Spec64.contribution lm r1) as [o1|e1] eqn:E1,
             (Spec64.contribution lm r2) as [o2|e2] eqn:E2; cbn.
    + destruct (Spec64.contributions lm l) as [cs|e]; cbn; [|done].
      destruct o1, o2; try done. apply perm_swap.
    + done.
    + done.
    + by rewrite (Hmsg _ _ E1), (Hmsg _ _ E2).
  - destruct (Spec64.contributions lm l1) as [c1|e1],
             (Spec64.contributions lm l2) as [c2|e2],
             (Spec64.contributions lm l3) as [c3|e3]; try done.
    + by etrans.
    + by etrans.
Qed.

Lemma abs_total_perm (l1 l2 : list num) :
  l1 ≡ₚ l2 → Spec64.abs_total l1 = Spec64.abs_total l2.
Proof.
  induction 1 as [|x l1 l2 _ IH|x y l|l1 l2 l3 _ IH1 _ IH2];
    cbn [Spec64.abs_total].
  - done.
  - by rewrite IH.
  - destruct (Spec64.whole x) as [zx|], (Spec64.whole y) as [zy|],
             (Spec64.abs_total l) as [t|]; cbn; try done.
    f_equal. lia.
  - by rewrite IH1.
Qed.

Lemma small_counts_perm (l1 l2 : list num) :
  l1 ≡ₚ l2 → Spec64.small_counts l1 = Spec64.small_counts l2.
Proof. intros Hp. unfold Spec64.small_counts. by rewrite (abs_total_perm _ _ Hp). Qed.

(** The sums of small counts do not depend on the order. *)
Lemma fsum_small_perm (l1 l2 : list num) :
  l1 ≡ₚ l2 → Spec64.small_counts l1 = true → Spec64.fsum l1 = Spec64.fsum l2.
Proof.
  intros Hp Hs. rewrite !fsum_small; [by apply sum_nums_perm | | done].
  by rewrite <- (small_counts_perm _ _ Hp).
Qed.

Lemma key_fsum_small_perm {R} (key : R → string) (f : R → num) k (l1 l2 : list R) :
  l1 ≡ₚ l2 → Spec64.small_counts (f <$> l1) = true →
  Spec64.key_fsum key f k l1 = Spec64.key_fsum key f k l2.
Proof.
  intros Hp Hs. unfold Spec64.key_fsum. apply fsum_small_perm.
  - by rewrite Hp.
  - by apply small_counts_filter.
Qed.

(** A column of small counts, with the keys of its lines *)
Lemma keyed_column_perm {R} (key : R → string) (f : R → num) (l1 l2 : list R) :
  l1 ≡ₚ l2 → Spec64.small_counts (f <$> l1) = true →
  (λ k, (k, Spec64.key_fsum key f k l1)) <$> first_occ (key <$> l1)
  ≡ₚ (λ k, (k, Spec64.key_fsum key f k l2)) <$> first_occ (key <$> l2).
Proof.
  intros Hp Hs.
  rewrite (first_occ_perm (key <$> l1) (key <$> l2)) by (by apply fmap_Permutation).
  apply reflexive_eq, list_fmap_ext. intros i k _.
  by rewrite (key_fsum_small_perm key f k l1 l2).
Qed.

(** ** The new queries, with the lower-casing of the host *)

Section HostLowerCase.
Variable toLowerCase : string → string.

Lemma priorQueries64_elem (prior : list string) (q : string) :
  q ∈ NewQueries64.priorQueries toLowerCase prior ↔ ∃ t, t ∈ prior ∧ toLowerCase t = q.
Proof.
  unfold NewQueries64.priorQueries.
  assert (∀ s : gset string,
    q ∈ foldl (λ s t, s ∪ {[ toLowerCase t ]}) s prior
    ↔ q ∈ s ∨ ∃ t, t ∈ prior ∧ toLowerCase t = q) as H.
  { induction prior as [|t prior IH]; intros s; cbn [foldl].
    - split; [by left | intros [? | (t & Ht & _)]; [done | by apply elem_of_nil in Ht]].
    - rewrite IH, elem_of_union, elem_of_singleton. split.
      + intros [[? | ->] | (t' & Ht' & Heq)].
        * by left.
        * right. exists t. split; [left | done].
        * right. exists t'. split; [by right | done].
      + intros [? | (t' & Ht' & Heq)]; [by left; left|].
        apply elem_of_cons in Ht' as [-> | Ht'].
        * left. by right.
        * right. by exists t'. }
  rewrite H. split; [intros [Hq|?]; [by apply not_elem_of_empty in Hq | done] | by right].
Qed.

Lemma newData64_filter (prior : list string) (rows : list NewQueries.yrow) :
  NewQueries64.newData toLowerCase prior rows
  = filter (λ it, Forall (λ t, toLowerCase t ≠ NewQueries.query it) prior)
      (NewQueries64.to_item toLowerCase <$> rows).
Proof.
  unfold NewQueries64.newData. apply list_filter_iff. intros it.
  rewrite priorQueries64_elem, Forall_forall. split.
  - intros Hn t Ht Heq. apply Hn. by exists t.
  - intros Hall (t & Ht & Heq). by apply (Hall t).
Qed.

End HostLowerCase.


(** A guarded ratio of two finite numbers is never NaN. *)
Lemma guarded_fratio_not_nan (a b : num) :
  is_fin a = true → is_fin b = true →
  is_nan (if gt b zero then F64.div a b else zero) = false.
Proof.
  intros Ha Hb. destruct (gt b zero) eqn:E; [|done].
  unfold F64.div. rewrite rnd_not_nan.
  destruct a as [qa| | |], b as [qb| | |]; try done. cbn [div].
  destruct (decide (qb = 0%Qc)) as [->|]; [|done].
  cbn in E. by apply Qc_ltb_lt in E.
Qed.

(** * The claims *)

(** C1 (as amended).  The counters are binary64 numbers and every
    addition of the loops is rounded, so the buckets and the totals agree
    up to rounding.  In the report of [getCountryData], when the impressions
    (the clicks) of the accepted rows are whole numbers whose sizes add up to
    [2^53] at most, the sum over the countries is the total, exactly; when
    the total spend (the total of conversions) and the spend of every country
    are finite, the total and the sum over the countries are each within
    [(1 + 2^-53)^n - 1] times the sum of the sizes of the [n] accepted
    amounts of their exact sum, hence within twice as much of each other.  A
    run that a missing cell ends returns the empty report.  In the country
    tab of the dashboard, which keeps no totals of its own, the same holds of
    the sum of a column over the rows written and the sum of the counter over
    all the rows of the report, for a report whose criterion ids and labels
    are not names of members of Object.prototype. *)
Theorem C1_bucket_sums_agree_with_totals
    (locs : list Daily.locationRow) (rows : list Daily.row)
    (names : list Dashboard.nameRow) (report : list Dashboard.geoRow) :
  match Spec64.contributions (Daily.locationMap locs) rows with
  | Ok cs =>
      ∃ rep, Daily64.getCountryData_try (Ok locs) (Ok rows) = Ok rep
        ∧ (Spec64.small_counts (Daily.impressions <$> cs) = true →
           sum_nums ((Daily.impressions ∘ Daily.stat) <$> Daily.countries rep)
           = Daily.tot_impressions (Daily.totals rep))
        ∧ (Spec64.small_counts (Daily.clicks <$> cs) = true →
           sum_nums ((Daily.clicks ∘ Daily.stat) <$> Daily.countries rep)
           = Daily.tot_clicks (Daily.totals rep))
        ∧ (is_fin (Daily.tot_spend (Daily.totals rep)) = true →
           Forall (λ c, is_fin (Daily.spend (Daily.stat c)) = true)
             (Daily.countries rep) →
           Spec64.agree (length cs) (Daily.spend <$> cs)
             (Daily.tot_spend (Daily.totals rep))
             (sum_nums ((Daily.spend ∘ Daily.stat) <$> Daily.countries rep)))
        ∧ (is_fin (Daily.tot_conversions (Daily.totals rep)) = true →
           Forall (λ c, is_fin (Daily.conversions (Daily.stat c)) = true)
             (Daily.countries rep) →
           Spec64.agree (length cs) (Daily.conversions <$> cs)
             (Daily.tot_conversions (Daily.totals rep))
             (sum_nums ((Daily.conversions ∘ Daily.stat) <$> Daily.countries rep)))
  | Throw _ =>
      ∀ w : world Empty_set Daily.email_html,
        (Daily64.getCountryData (Ok locs) (Ok rows) w).1 = Ok Daily.empty_report
  end
  ∧ (Spec64.ordinary names report →
     let tab := Dashboard64.exportTopCountriesData names report in
     let n := length report in
     (Spec64.small_counts (Spec64.clicks_of <$> report) = true →
      sum_nums (Dashboard.col_clicks <$> tab) = sum_nums (Spec64.clicks_of <$> report))
     ∧ (Spec64.small_counts (Spec64.impressions_of <$> report) = true →
        sum_nums (Dashboard.col_impressions <$> tab)
        = sum_nums (Spec64.impressions_of <$> report))
     ∧ (Forall (λ x, is_fin (Dashboard.col_cost x) = true) tab →
        Spec64.within (Spec64.rounding n)
          (sum_nums (abs <$> (Spec64.cost_of <$> report)))
          (sum_nums (Dashboard.col_cost <$> tab))
          (sum_nums (Spec64.cost_of <$> report)))
     ∧ (Forall (λ x, is_fin (Dashboard.col_conversions x) = true) tab →
        Spec64.within (Spec64.rounding n)
          (sum_nums (abs <$> (Spec64.conversions_of <$> report)))
          (sum_nums (Dashboard.col_conversions <$> tab))
          (sum_nums (Spec64.conversions_of <$> report)))
     ∧ (Forall (λ x, is_fin (Dashboard.col_allConversions x) = true) tab →
        Spec64.within (Spec64.rounding n)
          (sum_nums (abs <$> (Spec64.allConversions_of <$> report)))
          (sum_nums (Dashboard.col_allConversions <$> tab))
          (sum_nums (Spec64.allConversions_of <$> report)))).
Proof.
  split.
  - pose proof (daily64_run (Ok locs) (Ok rows)) as Hrun.
    rewrite daily64_try_spec in *.
    destruct (Spec64.contributions _ rows) as [cs|e] eqn:E; cbn in *.
    + eexists. split; [done|]. cbn [Daily.countries Daily.totals].
      rewrite tot_step64_sums.
      cbn [Daily.tot_spend Daily.tot_impressions Daily.tot_clicks
           Daily.tot_conversions].
      pose proof (contributions64_rows _ _ _ E) as Hg.
      split_and!.
      * apply (column_small Daily.name), daily64_column.
        intros k. by rewrite bucket64_spec.
      * apply (column_small Daily.name), daily64_column.
        intros k. by rewrite bucket64_spec.
      * intros Htot Hfin. apply (column_agree Daily.name); [| |done|].
        -- apply daily64_column. intros k. by rewrite bucket64_spec.
        -- eapply Forall_impl; [exact Hg|]. by intros s (_ & ? & _).
        -- eapply Forall_impl; [exact Hfin|]. by intros c.
      * intros Htot Hfin. apply (column_agree Daily.name); [| |done|].
        -- apply daily64_column. intros k. by rewrite bucket64_spec.
        -- eapply Forall_impl; [exact Hg|]. by intros s (_ & _ & _ & _ & ?).
        -- eapply Forall_impl; [exact Hfin|]. by intros c.
    + intros w. by rewrite Hrun.
  - intros _ tab n. unfold tab, n. split_and!.
    + intros Hs. rewrite <- (fsum_small _ Hs).
      apply (column_small (label_of names)); [|done]. by apply dashboard64_column.
    + intros Hs. rewrite <- (fsum_small _ Hs).
      apply (column_small (label_of names)); [|done]. by apply dashboard64_column.
    + apply (column_within (label_of names)); [by apply dashboard64_column|].
      apply Forall_forall. intros r _. apply rnd_on_grid.
    + apply (column_within (label_of names)); [by apply dashboard64_column|].
      apply Forall_forall. intros r _. apply or0_on_grid, rnd_on_grid.
    + apply (column_within (label_of names)); [by apply dashboard64_column|].
      apply Forall_forall. intros r _. apply or0_on_grid, rnd_on_grid.
Qed.

Lemma C1_witness :
  let locs := [ {| Daily.loc_CriteriaId := "1"; Daily.loc_CountryName := "A" |};
                {| Daily.loc_CriteriaId := "2"; Daily.loc_CountryName := "B" |} ] in
  let row id c := {| Daily.CriteriaId := id; Daily.Clicks := Some "1";
                     Daily.Impressions := Some "10"; Daily.Cost := Some c;
                     Daily.Conversions := Some "0" |} in
  let rows := [row "1" "0.10"; row "2" "0.10"; row "1" "1.10"] in
  ∃ rep cs, Daily64.getCountryData_try (Ok locs) (Ok rows) = Ok rep
    ∧ Spec64.contributions (Daily.locationMap locs) rows = Ok cs
    ∧ sum_nums ((Daily.impressions ∘ Daily.stat) <$> Daily.countries rep)
      = Daily.tot_impressions (Daily.totals rep)
    ∧ Spec64.agree (length cs) (Daily.spend <$> cs)
        (Daily.tot_spend (Daily.totals rep))
        (sum_nums ((Daily.spend ∘ Daily.stat) <$> Daily.countries rep)).
Proof.
  intros locs row rows.
  destruct (C1_bucket_sums_agree_with_totals locs rows [] []) as [H _].
  destruct (Spec64.contributions (Daily.locationMap locs) rows) as [cs|e] eqn:E.
  - destruct H as (rep & Hrep & Himp & _ & Hsp & _).
    exists rep, cs. split; [exact Hrep|]. split; [reflexivity|].
    vm_compute in E. injection E as <-.
    vm_compute in Hrep. injection Hrep as <-.
    split.
    + apply Himp. vm_compute. reflexivity.
    + apply Hsp; [vm_compute; reflexivity | compute_done].
  - vm_compute in E. discriminate E.
Defined.

(** C1 fails as stated.  The sums are sums of binary64 numbers: on the
    rows A 0.10, B 0.10, A 1.10 the total spend is the number nearest to
    1.3, while the spend of A is the number after the one nearest to 1.2 and
    the spend of B the number nearest to 0.1.  The sum of the two buckets is
    not the total, whether it is taken exactly or with a rounded addition,
    which gives the number after the total; the counts of impressions and
    clicks do add up. *)
Lemma C1_counterexample :
  let locs := [ {| Daily.loc_CriteriaId := "1"; Daily.loc_CountryName := "A" |};
                {| Daily.loc_CriteriaId := "2"; Daily.loc_CountryName := "B" |} ] in
  let row id c := {| Daily.CriteriaId := id; Daily.Clicks := Some "1";
                     Daily.Impressions := Some "10"; Daily.Cost := Some c;
                     Daily.Conversions := Some "0" |} in
  ∃ rep, Daily64.getCountryData_try (Ok locs)
           (Ok [row "1" "0.10"; row "2" "0.10"; row "1" "1.10"]) = Ok rep
    ∧ Daily.tot_spend (Daily.totals rep) = F64.parseFloat "1.3"
    ∧ (λ x, (Daily.name (Daily.stat x), Daily.spend (Daily.stat x)))
        <$> Daily.countries rep
      = [("A", F64.parseFloat "1.2000000000000002"); ("B", F64.parseFloat "0.1")]
    ∧ sum_nums ((Daily.spend ∘ Daily.stat) <$> Daily.countries rep)
      ≠ Daily.tot_spend (Daily.totals rep)
    ∧ Spec64.fsum ((Daily.spend ∘ Daily.stat) <$> Daily.countries rep)
      = F64.parseFloat "1.3000000000000003"
    ∧ F64.parseFloat "1.3000000000000003" ≠ F64.parseFloat "1.3"
    ∧ sum_nums ((Daily.impressions ∘ Daily.stat) <$> Daily.countries rep)
      = Daily.tot_impressions (Daily.totals rep).
Proof.
  intros locs row.
  eexists. split; [vm_compute; reflexivity|].
  split_and!; compute_done.
Qed.

(** C2 (the code departs from the claim).  On a report with no accepted row
    the TOTAL line of the daily mail divides 0 clicks by 0 impressions
    without a guard: its CTR cell is NaN, while the CPC cell next to it,
    which is guarded, is 0. *)
Theorem C2_total_row_ctr_is_nan_on_empty_report
    (locs : list Daily.locationRow) (date : string)
    (w : world Empty_set Daily.email_html) :
  ∃ rep w', Daily.getCountryData locs [] w = (Ok rep, w')
    ∧ Daily.tot_impressions (Daily.totals rep) = zero
    ∧ Daily.cell_ctr (Daily.html_total_row (Daily.generateEmailHtml rep date)) = NaN
    ∧ Daily.cell_cpc (Daily.html_total_row (Daily.generateEmailHtml rep date)) = zero.
Proof.
  rewrite daily_run. eexists _, _. split; [reflexivity|].
  split_and!; compute_done.
Qed.

(** C3.  The new queries are exactly yesterday's records, in their order,
    whose lower-cased search term is the lower-cased form of no search term
    of the 180 days before: a term of both windows is left out and a term of
    yesterday only is kept, whatever the case of the letters.  The
    lower-casing is that of the host, whatever letters it folds; in the
    example it is the folding of the letters A to Z, which the host applies
    to a text of ASCII characters. *)
Theorem C3_new_queries_are_the_unseen_terms
    (toLowerCase : string → string)
    (prior : list string) (rows : list NewQueries.yrow) :
  NewQueries64.newData toLowerCase prior rows
  = NewQueries64.to_item toLowerCase
      <$> filter (λ r, Forall (λ t, toLowerCase t ≠ toLowerCase (NewQueries.search_term r))
                   prior) rows
  ∧ (∀ r, r ∈ rows →
       (NewQueries64.to_item toLowerCase r ∈ NewQueries64.newData toLowerCase prior rows
        ↔ ∀ t, t ∈ prior → toLowerCase t ≠ toLowerCase (NewQueries.search_term r)))
  ∧ (let row t := {| NewQueries.search_term := t;
                     NewQueries.m_impressions := Some "10";
                     NewQueries.m_clicks := Some "1";
                     NewQueries.m_cost_micros := Some "250000";
                     NewQueries.campaign_id := "1";
                     NewQueries.campaign_name := "Brand";
                     NewQueries.ad_group_id := "2";
                     NewQueries.ad_group_name := "Shoes" |} in
     NewQueries.origQuery
       <$> NewQueries64.newData JS.toLowerCase ["RED shoes"; "hats"]
             [row "Red Shoes"; row "blue hats"]
     = ["blue hats"]).
Proof.
  split; [|split].
  - rewrite newData64_filter. induction rows as [|r rows IH]; [done|].
    rewrite fmap_cons, !filter_cons, IH.
    cbn [NewQueries64.to_item NewQueries.query].
    by destruct (decide (Forall _ prior)).
  - intros r Hr. rewrite newData64_filter, list_elem_of_filter, Forall_forall.
    cbn [NewQueries64.to_item NewQueries.query]. split.
    + by intros [H _].
    + intros H. split; [done|]. apply list_elem_of_fmap. by exists r.
  - compute_done.
Qed.









(** C7.  When no record of yesterday is new (in particular when
    yesterday's window is empty) the run of the new-queries script ends
    normally after one log line: nothing is written to the spreadsheet and no
    mail is handed over, whatever the spreadsheet service and the mail
    facility would do. *)
Theorem C7_no_new_query_no_sink_write
    (lc : string → string → Z) (h : host) (acct : NewQueries.account)
    (SHEET_URL RECIPIENT_EMAIL : string)
    (prior : list string) (rows : list NewQueries.yrow)
    (w : world NewQueries.sheet_op NewQueries.body) :
  NewQueries.newData prior rows = [] →
  NewQueries.main lc h acct SHEET_URL RECIPIENT_EMAIL prior rows w
  = (Ok tt, {| logs := logs w ++ ["No new search queries found."];
               sheet := sheet w; outbox := outbox w |})
  ∧ NewQueries.newData prior [] = [].
Proof.
  intros Hnil. split; [|done].
  unfold NewQueries.main. rewrite Hnil. reflexivity.
Qed.

Lemma C7_witness :
  let row t := {| NewQueries.search_term := t;
                  NewQueries.m_impressions := Some "10";
                  NewQueries.m_clicks := Some "1";
                  NewQueries.m_cost_micros := Some "250000";
                  NewQueries.campaign_id := "1";
                  NewQueries.campaign_name := "Brand";
                  NewQueries.ad_group_id := "2";
                  NewQueries.ad_group_name := "Shoes" |} in
  let acct := {| NewQueries.accountName := "Acme"; NewQueries.accountId := "123-456-7890";
                 NewQueries.yesterdayStr := "2024-05-01";
                 NewQueries.createdUrl := "https://sheets.example/new" |} in
  let h := {| sendEmail_error := Some "quota"; openByUrl_error := Some "no such sheet" |} in
  let w := {| logs := ["start"]; sheet := []; outbox := [] |} in
  NewQueries.main code_compare h acct "YOUR_GOOGLE_SHEET_URL_HERE" "me@example.com"
    ["red shoes"] [row "Red Shoes"] w
  = (Ok tt, {| logs := ["start"; "No new search queries found."];
               sheet := []; outbox := [] |}).
Proof.
  intros row acct h w.
  apply (C7_no_new_query_no_sink_write code_compare h acct
           "YOUR_GOOGLE_SHEET_URL_HERE" "me@example.com" ["red shoes"] [row "Red Shoes"] w).
  vm_compute. reflexivity.
Defined.

(** C8 (as amended).  In the daily country script and in the dashboard
    exporter a failure of the mail facility is caught and logged: sending
    returns normally and leaves the spreadsheet sink as it is, and the run of
    [main] returns normally.  The new-queries script does not guard the call:
    there the failure leaves [main] as an exception, after the rows of the new
    queries have been written to the sheet. *)
Theorem C8_mail_failure_caught_except_in_new_queries
    (h : host) (e : string)
    (rep : Daily.report) (date recipient subject : string)
    (locs : list Daily.locationRow) (drows : list Daily.row)
    (wd : world Empty_set Daily.email_html)
    (S : Type) (cfg : Dashboard.config) (c : Dashboard.completion)
    (exports : M S (string * string) Dashboard.completion)
    (wx wx1 : world S (string * string))
    (lc : string → string → Z) (acct : NewQueries.account)
    (SHEET_URL RECIPIENT_EMAIL : string)
    (prior : list string) (rows : list NewQueries.yrow)
    (wq : world NewQueries.sheet_op NewQueries.body) :
  sendEmail_error h = Some e →
  (Daily.sendEmailReport h rep date recipient subject wd
   = (Ok tt, {| logs := logs wd ++ ["Error sending email: " +:+ e];
                sheet := sheet wd; outbox := outbox wd |}))
  ∧ (∃ wd', Daily.main h date locs drows wd = (Ok tt, wd')
       ∧ sheet wd' = sheet wd ∧ outbox wd' = outbox wd)
  ∧ (∃ wx', Dashboard.sendCompletionEmail h cfg c wx = (Ok tt, wx')
       ∧ sheet wx' = sheet wx ∧ outbox wx' = outbox wx)
  ∧ (exports wx = (Ok c, wx1) →
     ∃ wx', Dashboard.main h cfg exports wx = (Ok tt, wx')
       ∧ sheet wx' = sheet wx1 ∧ outbox wx' = outbox wx1)
  ∧ (NewQueries.newData prior rows ≠ [] → openByUrl_error h = None →
     ∃ wq', NewQueries.main lc h acct SHEET_URL RECIPIENT_EMAIL prior rows wq
            = (Throw e, wq')
       ∧ appended (sheet wq') = appended (sheet wq) ++ NewQueries.sortedNewData prior rows
       ∧ outbox wq' = outbox wq).
Proof.
  intros He. split; [|split; [|split; [|split]]].
  - by rewrite sendEmailReport_run, He.
  - unfold Daily.main, mbind, M_bind, bind. rewrite daily_run.
    destruct (Daily.getCountryData_try locs drows);
      rewrite sendEmailReport_run, He; by eexists.
  - destruct (sendCompletionEmail_returns h cfg c wx) as (wx' & Hrun & Hs & Ho).
    exists wx'. split; [done|]. split; [done | by eapply Ho].
  - intros Hex. unfold Dashboard.main, try_catch, mbind, M_bind, bind.
    rewrite Hex. destruct (Dashboard.SEND_EMAIL_ON_COMPLETE cfg).
    + destruct (sendCompletionEmail_returns h cfg c wx1) as (wx' & -> & Hs & Ho).
      unfold log. eexists. split; [reflexivity|]. cbn [sheet outbox].
      split; [done | by eapply Ho].
    + unfold mret, M_ret, ret, log. eexists. split; [reflexivity|]. by split.
  - intros Hne Hopen.
    destruct (main_run lc h acct SHEET_URL RECIPIENT_EMAIL prior rows wq Hne Hopen)
      as (w1 & msg & Hrun & Happ & Hout).
    rewrite He in Hrun. by exists w1.
Qed.

Lemma C8_witness :
  let h := {| sendEmail_error := Some "Service invoked too many times";
              openByUrl_error := None |} in
  let w := {| logs := []; sheet := []; outbox := [] |} in
  ∃ w', Daily.main h "2024-05-01" [] [] w = (Ok tt, w')
    ∧ sheet w' = sheet w ∧ outbox w' = outbox w.
Proof.
  intros h w.
  apply (C8_mail_failure_caught_except_in_new_queries h "Service invoked too many times"
           Daily.empty_report "" "" "" [] [] w
           Empty_set {| Dashboard.SEND_EMAIL_ON_COMPLETE := true;
                        Dashboard.EMAIL_RECIPIENTS := "ops@example.com" |}
           {| Dashboard.c_subject := ""; Dashboard.c_plainTextBody := "";
              Dashboard.c_htmlBody := "" |}
           (mret {| Dashboard.c_subject := ""; Dashboard.c_plainTextBody := "";
                    Dashboard.c_htmlBody := "" |})
           {| logs := []; sheet := []; outbox := [] |}
           {| logs := []; sheet := []; outbox := [] |}
           code_compare
           {| NewQueries.accountName := ""; NewQueries.accountId := "";
              NewQueries.yesterdayStr := ""; NewQueries.createdUrl := "" |}
           "" "" [] [] {| logs := []; sheet := []; outbox := [] |}).
  reflexivity.
Defined.

(** C8 fails as stated on the new-queries script: with one new query and
    a mail facility that raises an error, [main] ends with that error; the
    sheet has been written, no mail is in the outbox and the error is not
    logged. *)
Lemma C8_counterexample :
  let row := {| NewQueries.search_term := "blue hats";
                NewQueries.m_impressions := Some "10";
                NewQueries.m_clicks := Some "1";
                NewQueries.m_cost_micros := Some "250000";
                NewQueries.campaign_id := "1";
                NewQueries.campaign_name := "Brand";
                NewQueries.ad_group_id := "2";
                NewQueries.ad_group_name := "Hats" |} in
  let acct := {| NewQueries.accountName := "Acme"; NewQueries.accountId := "123-456-7890";
                 NewQueries.yesterdayStr := "2024-05-01";
                 NewQueries.createdUrl := "https://sheets.example/new" |} in
  let h := {| sendEmail_error := Some "Service invoked too many times";
              openByUrl_error := None |} in
  let run := NewQueries.main code_compare h acct "" "me@example.com" ["red shoes"] [row]
               {| logs := []; sheet := []; outbox := [] |} in
  run.1 = Throw "Service invoked too many times"
  ∧ logs run.2 = ["Created new spreadsheet: https://sheets.example/new"]
  ∧ appended (sheet run.2) = [NewQueries.to_item row]
  ∧ outbox run.2 = [].
Proof.
  intros row acct h run. repeat split; vm_compute; reflexivity.
Qed.

(** C9.  A row of the daily report whose parsed Cost is not greater than 0
    changes nothing: the run is the run on the input without the row.  Every
    country that is reported has a spend greater than 0. *)
Theorem C9_nonpositive_cost_excluded
    (locs : list Daily.locationRow) (l1 l2 : list Daily.row) (r : Daily.row)
    (c : string) (w : world Empty_set Daily.email_html) :
  Daily.Cost r = Some c →
  gt (parseFloat (remove_commas c)) zero = false →
  Daily.getCountryData locs (l1 ++ r :: l2) w = Daily.getCountryData locs (l1 ++ l2) w
  ∧ ∃ rep w', Daily.getCountryData locs (l1 ++ r :: l2) w = (Ok rep, w')
      ∧ Forall (λ x, gt (Daily.spend (Daily.stat x)) zero = true) (Daily.countries rep).
Proof.
  intros Hc Hgt.
  assert (contributions (Daily.locationMap locs) (l1 ++ r :: l2)
          = contributions (Daily.locationMap locs) (l1 ++ l2)) as Heq.
  { rewrite !contributions_app. cbn [contributions].
    unfold contribution at 1. rewrite Hc. cbn. rewrite Hgt. cbn.
    destruct (contributions _ l1); [|done]. cbn.
    by destruct (contributions _ l2). }
  split.
  - by rewrite !daily_run, !daily_try_spec, Heq.
  - rewrite daily_run, daily_try_spec.
    destruct (contributions _ (l1 ++ r :: l2)) as [cs|e] eqn:E; cbn.
    + eexists _, _. split; [done|]. cbn [Daily.countries].
      apply contributions_positive in E.
      rewrite sort_perm, <- list_fmap_compose.
      apply Forall_fmap, Forall_forall. intros k Hk. cbn.
      by apply daily_buckets_positive.
    + eexists _, _. split; [done|]. constructor.
Qed.

Lemma C9_witness :
  let r := {| Daily.CriteriaId := "2250"; Daily.Clicks := Some "0";
              Daily.Impressions := Some "12"; Daily.Cost := Some "0.00";
              Daily.Conversions := Some "0" |} in
  let a := {| Daily.CriteriaId := "2840"; Daily.Clicks := Some "3";
              Daily.Impressions := Some "1,200"; Daily.Cost := Some "4.50";
              Daily.Conversions := Some "1.0" |} in
  let w := {| logs := []; sheet := []; outbox := [] |} in
  Daily.getCountryData [] ([a] ++ r :: [a]) w = Daily.getCountryData [] ([a] ++ [a]) w
  ∧ ∃ rep w', Daily.getCountryData [] ([a] ++ r :: [a]) w = (Ok rep, w')
      ∧ Forall (λ x, gt (Daily.spend (Daily.stat x)) zero = true) (Daily.countries rep).
Proof.
  intros r a w.
  apply (C9_nonpositive_cost_excluded [] [a] [a] r "0.00" w); [reflexivity|].
  vm_compute. reflexivity.
Defined.

(** C10.  In a run of the new-queries script that has new queries, and in
    which the spreadsheet opens and the mail is accepted, the sheet receives
    one row for every new query, whatever its clicks, and one mail is sent:
    the tables of the mail hold exactly the new queries with clicks greater
    than 0, and when there is none the mail is the notice that points to the
    sheet. *)
Theorem C10_mail_has_clicked_queries_sheet_has_all
    (lc : string → string → Z) (h : host) (acct : NewQueries.account)
    (SHEET_URL RECIPIENT_EMAIL : string)
    (prior : list string) (rows : list NewQueries.yrow)
    (w : world NewQueries.sheet_op NewQueries.body) :
  NewQueries.newData prior rows ≠ [] →
  openByUrl_error h = None →
  sendEmail_error h = None →
  ∃ w' m,
    NewQueries.main lc h acct SHEET_URL RECIPIENT_EMAIL prior rows w = (Ok tt, w')
    ∧ appended (sheet w') = appended (sheet w) ++ NewQueries.sortedNewData prior rows
    ∧ NewQueries.sortedNewData prior rows ≡ₚ NewQueries.newData prior rows
    ∧ outbox w' = outbox w ++ [m]
    ∧ to m = RECIPIENT_EMAIL
    ∧ (∀ it, it ∈ NewQueries.emailData prior rows
             ↔ it ∈ NewQueries.newData prior rows ∧ gt (NewQueries.clicks it) zero = true)
    ∧ match htmlBody m with
      | NewQueries.NoClicksNote d u =>
          NewQueries.emailData prior rows = [] ∧ u = sheet_url acct SHEET_URL
      | NewQueries.GroupedTables d tables u =>
          NewQueries.emailData prior rows ≠ [] ∧ u = sheet_url acct SHEET_URL
          ∧ ∀ it, it ∈ mjoin tables.*2 ↔ it ∈ NewQueries.emailData prior rows
      end.
Proof.
  intros Hne Hopen Hmail.
  destruct (main_run lc h acct SHEET_URL RECIPIENT_EMAIL prior rows w Hne Hopen)
    as (w1 & msg & Hrun & Happ & Hout).
  rewrite Hmail in Hrun. eexists _, _. split; [exact Hrun|].
  cbn [sheet outbox to htmlBody]. rewrite Hout.
  split; [done|]. split; [apply sortedNewData_perm|]. split; [done|]. split; [done|].
  split; [apply emailData_elem|].
  destruct (NewQueries.emailData prior rows) as [|it E] eqn:HE.
  - rewrite bool_decide_eq_true_2 by done. by split.
  - rewrite bool_decide_eq_false_2 by done. split; [done|]. split; [done|].
    intros it'. apply grouped_items.
Qed.

Lemma C10_witness :
  let row t c k := {| NewQueries.search_term := t;
                      NewQueries.m_impressions := Some "100";
                      NewQueries.m_clicks := Some k;
                      NewQueries.m_cost_micros := Some "250000";
                      NewQueries.campaign_id := "1";
                      NewQueries.campaign_name := c;
                      NewQueries.ad_group_id := "2";
                      NewQueries.ad_group_name := "g" |} in
  let rows := [row "blue hats" "Hats" "0"; row "Red Shoes" "Shoes" "7"; row "green hats" "Hats" "2"] in
  let acct := {| NewQueries.accountName := "Acme"; NewQueries.accountId := "123-456-7890";
                 NewQueries.yesterdayStr := "2024-05-01";
                 NewQueries.createdUrl := "https://sheets.example/new" |} in
  let h := {| sendEmail_error := None; openByUrl_error := None |} in
  let w := {| logs := []; sheet := []; outbox := [] |} in
  ∃ w' m,
    NewQueries.main code_compare h acct "" "me@example.com" ["red shoes"] rows w = (Ok tt, w')
    ∧ appended (sheet w') = appended (sheet w) ++ NewQueries.sortedNewData ["red shoes"] rows
    ∧ NewQueries.sortedNewData ["red shoes"] rows ≡ₚ NewQueries.newData ["red shoes"] rows
    ∧ outbox w' = outbox w ++ [m]
    ∧ to m = "me@example.com"
    ∧ (∀ it, it ∈ NewQueries.emailData ["red shoes"] rows
             ↔ it ∈ NewQueries.newData ["red shoes"] rows
               ∧ gt (NewQueries.clicks it) zero = true)
    ∧ match htmlBody m with
      | NewQueries.NoClicksNote d u =>
          NewQueries.emailData ["red shoes"] rows = [] ∧ u = sheet_url acct ""
      | NewQueries.GroupedTables d tables u =>
          NewQueries.emailData ["red shoes"] rows ≠ [] ∧ u = sheet_url acct ""
          ∧ ∀ it, it ∈ mjoin tables.*2 ↔ it ∈ NewQueries.emailData ["red shoes"] rows
      end.
Proof.
  intros row rows acct h w.
  apply (C10_mail_has_clicked_queries_sheet_has_all code_compare h acct ""
           "me@example.com" ["red shoes"] rows w).
  - vm_compute. discriminate.
  - reflexivity.
  - reflexivity.
Defined.

(** * Further properties *)

(** ** The daily country mail *)

(** X1.  What the daily report holds.  When both reports and every row
    can be read, the report lists each country of an accepted row (a row with
    a cost greater than 0) once, and each of the four counters of a country
    is the sum that the loop computes over the accepted rows of that country,
    in their order, every addition rounded; the two ratios are those of the
    counters.  The totals are those sums over all the accepted rows. *)
Theorem X1_daily_country_sums_its_rows
    (locs : list Daily.locationRow) (rows : list Daily.row) :
  match Spec64.contributions (Daily.locationMap locs) rows with
  | Ok cs =>
      ∃ rep, Daily64.getCountryData_try (Ok locs) (Ok rows) = Ok rep
        ∧ NoDup ((Daily.name ∘ Daily.stat) <$> Daily.countries rep)
        ∧ (∀ k, k ∈ (Daily.name ∘ Daily.stat) <$> Daily.countries rep
                ↔ k ∈ Daily.name <$> cs)
        ∧ Forall (λ c,
            let k := Daily.name (Daily.stat c) in
            Daily.spend (Daily.stat c) = Spec64.key_fsum Daily.name Daily.spend k cs
            ∧ Daily.impressions (Daily.stat c)
              = Spec64.key_fsum Daily.name Daily.impressions k cs
            ∧ Daily.clicks (Daily.stat c) = Spec64.key_fsum Daily.name Daily.clicks k cs
            ∧ Daily.conversions (Daily.stat c)
              = Spec64.key_fsum Daily.name Daily.conversions k cs
            ∧ c = Daily64.with_metrics (Daily.stat c))
            (Daily.countries rep)
        ∧ Daily.tot_spend (Daily.totals rep) = Spec64.fsum (Daily.spend <$> cs)
        ∧ Daily.tot_impressions (Daily.totals rep)
          = Spec64.fsum (Daily.impressions <$> cs)
        ∧ Daily.tot_clicks (Daily.totals rep) = Spec64.fsum (Daily.clicks <$> cs)
        ∧ Daily.tot_conversions (Daily.totals rep)
          = Spec64.fsum (Daily.conversions <$> cs)
  | Throw e => Daily64.getCountryData_try (Ok locs) (Ok rows) = Throw e
  end.
Proof.
  rewrite daily64_try_spec.
  destruct (Spec64.contributions _ rows) as [cs|e]; [|done]. cbn.
  eexists. split; [reflexivity|]. cbn [Daily.countries Daily.totals].
  assert ((Daily.name ∘ Daily.stat)
            <$> (Daily64.with_metrics
                   <$> (Spec64.bucket_of cs <$> first_occ (Daily.name <$> cs)))
          = first_occ (Daily.name <$> cs)) as Hnames.
  { rewrite <- !list_fmap_compose. rewrite <- (list_fmap_id (first_occ _)) at 2.
    apply list_fmap_ext. intros i k _. cbn. by rewrite bucket64_spec. }
  rewrite tot_step64_sums. cbn [Daily.tot_spend Daily.tot_impressions Daily.tot_clicks
                                Daily.tot_conversions].
  split_and!; try done.
  - rewrite sort_perm, Hnames. apply first_occ_NoDup.
  - intros k. by rewrite sort_perm, Hnames, first_occ_elem.
  - rewrite sort_perm, <- list_fmap_compose.
    apply Forall_fmap, Forall_forall. intros k _. cbn.
    by rewrite bucket64_spec.
Qed.

(** X2.  [getCountryData] falls back on the empty report, after one log
    line, exactly when one of the two reports cannot be read or a row of the
    report is unreadable: its Cost cell is missing, or its cost is greater
    than 0 and its Impressions, Clicks or Conversions cell is missing.
    Otherwise the report is computed and nothing is logged.  A missing cell
    of a row whose cost is not greater than 0 is never read. *)
Theorem X2_daily_fallback_iff_unreadable
    (locationReport : result (list Daily.locationRow))
    (report : result (list Daily.row))
    (w : world Empty_set Daily.email_html) :
  let fallback line :=
    (Ok Daily.empty_report,
     {| logs := logs w ++ [line]; sheet := sheet w; outbox := outbox w |}) in
  match locationReport, report with
  | Throw e, _ | Ok _, Throw e =>
      Daily64.getCountryData locationReport report w
      = fallback ("Error retrieving or processing data: " +:+ e)
  | Ok locs, Ok rows =>
      if existsb Spec64.unreadable rows then
        ∃ line, Daily64.getCountryData locationReport report w = fallback line
      else
        ∃ rep, Daily64.getCountryData_try locationReport report = Ok rep
          ∧ Daily64.getCountryData locationReport report w = (Ok rep, w)
  end.
Proof.
  intros fallback. rewrite daily64_run.
  destruct locationReport as [locs|e]; [|done].
  destruct report as [rows|e]; [|done].
  rewrite daily64_try_spec.
  pose proof (contributions64_unreadable (Daily.locationMap locs) rows) as Hu.
  destruct (Spec64.contributions _ rows) as [cs|e]; cbn.
  - rewrite Hu. by eexists.
  - rewrite Hu. by eexists.
Qed.

(** X3.  The daily report and the order of the rows.  When the rows of the
    report are read in another order the run ends with the same exception or
    with none; the same countries are listed; and when the impressions (the
    clicks) of the accepted rows are whole numbers whose sizes add up to
    [2^53] at most, their total and the impressions (the clicks) of every
    country are the same.  The spend is not: every addition is rounded, and
    the rows 0.1, 0.2, 0.3 of one country give the total
    0.6000000000000001, read from the last to the first the total 0.6. *)
Theorem X3_daily_counts_do_not_depend_on_the_order
    (locs : list Daily.locationRow) (rows rows' : list Daily.row) :
  (rows ≡ₚ rows' →
   match Spec64.contributions (Daily.locationMap locs) rows,
         Spec64.contributions (Daily.locationMap locs) rows' with
   | Ok cs, Ok _ =>
       ∃ rep rep',
         Daily64.getCountryData_try (Ok locs) (Ok rows) = Ok rep
         ∧ Daily64.getCountryData_try (Ok locs) (Ok rows') = Ok rep'
         ∧ (Daily.name ∘ Daily.stat) <$> Daily.countries rep
           ≡ₚ (Daily.name ∘ Daily.stat) <$> Daily.countries rep'
         ∧ (Spec64.small_counts (Daily.impressions <$> cs) = true →
            Daily.tot_impressions (Daily.totals rep)
            = Daily.tot_impressions (Daily.totals rep')
            ∧ (λ c, (Daily.name (Daily.stat c), Daily.impressions (Daily.stat c)))
                <$> Daily.countries rep
              ≡ₚ (λ c, (Daily.name (Daily.stat c), Daily.impressions (Daily.stat c)))
                   <$> Daily.countries rep')
         ∧ (Spec64.small_counts (Daily.clicks <$> cs) = true →
            Daily.tot_clicks (Daily.totals rep) = Daily.tot_clicks (Daily.totals rep')
            ∧ (λ c, (Daily.name (Daily.stat c), Daily.clicks (Daily.stat c)))
                <$> Daily.countries rep
              ≡ₚ (λ c, (Daily.name (Daily.stat c), Daily.clicks (Daily.stat c)))
                   <$> Daily.countries rep')
   | Throw e, Throw _ =>
       Daily64.getCountryData_try (Ok locs) (Ok rows) = Throw e
       ∧ Daily64.getCountryData_try (Ok locs) (Ok rows') = Throw e
   | _, _ => False
   end)
  ∧ (let row c := {| Daily.CriteriaId := "2840"; Daily.Clicks := Some "1";
                     Daily.Impressions := Some "10"; Daily.Cost := Some c;
                     Daily.Conversions := Some "0" |} in
     ∃ rep rep',
       Daily64.getCountryData_try (Ok []) (Ok [row "0.1"; row "0.2"; row "0.3"]) = Ok rep
       ∧ Daily64.getCountryData_try (Ok []) (Ok [row "0.3"; row "0.2"; row "0.1"])
         = Ok rep'
       ∧ Daily.tot_spend (Daily.totals rep) = F64.parseFloat "0.6000000000000001"
       ∧ Daily.tot_spend (Daily.totals rep') = F64.parseFloat "0.6"
       ∧ Daily.tot_spend (Daily.totals rep) ≠ Daily.tot_spend (Daily.totals rep')).
Proof.
  split.
  - intros Hp. rewrite !daily64_try_spec.
    pose proof (contributions64_perm (Daily.locationMap locs) rows rows' Hp) as Hc.
    destruct (Spec64.contributions _ rows) as [cs|e],
             (Spec64.contributions _ rows') as [cs'|e']; try done; cbn.
    + eexists _, _. split; [reflexivity|]. split; [reflexivity|].
      cbn [Daily.countries Daily.totals]. rewrite !tot_step64_sums.
      cbn [Daily.tot_impressions Daily.tot_clicks].
      assert (∀ (A : Type) (g : Daily.country → A) (h : list Daily.stats → string → A),
        (∀ l k, g (Daily64.with_metrics (Spec64.bucket_of l k)) = h l k) →
        (h cs <$> first_occ (Daily.name <$> cs))
        ≡ₚ (h cs' <$> first_occ (Daily.name <$> cs')) →
        g <$> sort Daily64.by_spend_desc
                (Daily64.with_metrics
                   <$> (Spec64.bucket_of cs <$> first_occ (Daily.name <$> cs)))
        ≡ₚ g <$> sort Daily64.by_spend_desc
                   (Daily64.with_metrics
                      <$> (Spec64.bucket_of cs' <$> first_occ (Daily.name <$> cs'))))
        as Hcol.
      { intros A g h Hg Hh. rewrite !sort_perm, <- !list_fmap_compose.
        rewrite (list_fmap_ext _ (h cs) (first_occ (Daily.name <$> cs)))
          by (intros; apply Hg).
        rewrite (list_fmap_ext _ (h cs') (first_occ (Daily.name <$> cs')))
          by (intros; apply Hg).
        done. }
      split_and!.
      * apply (Hcol _ _ (λ _ k, k)).
        -- intros l k. cbn. by rewrite bucket64_spec.
        -- rewrite !list_fmap_id. by apply first_occ_perm, fmap_Permutation.
      * intros Hs. split.
        -- apply fsum_small_perm; [by apply fmap_Permutation | done].
        -- apply (Hcol _ _ (λ l k, (k, Spec64.key_fsum Daily.name Daily.impressions k l))).
           ++ intros l k. cbn. by rewrite bucket64_spec.
           ++ by apply keyed_column_perm.
      * intros Hs. split.
        -- apply fsum_small_perm; [by apply fmap_Permutation | done].
        -- apply (Hcol _ _ (λ l k, (k, Spec64.key_fsum Daily.name Daily.clicks k l))).
           ++ intros l k. cbn. by rewrite bucket64_spec.
           ++ by apply keyed_column_perm.
    + by subst e'.
  - eexists _, _. split; [vm_compute; reflexivity|].
    split; [vm_compute; reflexivity|]. split_and!; compute_done.
Qed.

Lemma X3_witness :
  let a := {| Daily.CriteriaId := "2840"; Daily.Clicks := Some "3";
              Daily.Impressions := Some "1,200"; Daily.Cost := Some "4.50";
              Daily.Conversions := Some "1.0" |} in
  let b := {| Daily.CriteriaId := "2250"; Daily.Clicks := Some "1";
              Daily.Impressions := Some "80"; Daily.Cost := Some "4.50";
              Daily.Conversions := Some "0" |} in
  let locs := [ {| Daily.loc_CriteriaId := "2840"; Daily.loc_CountryName := "US" |};
                {| Daily.loc_CriteriaId := "2250"; Daily.loc_CountryName := "FR" |} ] in
  ∃ rep rep',
    Daily64.getCountryData_try (Ok locs) (Ok [a; b; a]) = Ok rep
    ∧ Daily64.getCountryData_try (Ok locs) (Ok [b; a; a]) = Ok rep'
    ∧ Daily.tot_impressions (Daily.totals rep) = Daily.tot_impressions (Daily.totals rep').
Proof.
  intros a b locs.
  destruct (X3_daily_counts_do_not_depend_on_the_order locs [a; b; a] [b; a; a])
    as [H _].
  specialize (H (perm_swap b a [a])).
  destruct (Spec64.contributions (Daily.locationMap locs) [a; b; a]) as [cs|e] eqn:E;
    [|vm_compute in E; discriminate E].
  destruct (Spec64.contributions (Daily.locationMap locs) [b; a; a]) as [cs'|e] eqn:E';
    [|vm_compute in E'; discriminate E'].
  destruct H as (rep & rep' & Hrep & Hrep' & _ & Himp & _).
  exists rep, rep'. split; [exact Hrep|]. split; [exact Hrep'|].
  apply Himp. vm_compute in E. injection E as <-. vm_compute. reflexivity.
Defined.

(** X4.  When the mail facility accepts the mail, a run of the daily
    script hands over exactly one mail, to the configured recipient, for
    every report.  When a row is unreadable the run does not stop: after the
    log line of the fallback, the mail that is sent reads as a day without
    spend, with no country row and a total spend of 0; otherwise the mail has
    one row for each country of the report, in the order of the report. *)
Theorem X4_daily_mail_is_sent_whatever_the_data
    (h : host) (date : string)
    (locs : list Daily.locationRow) (rows : list Daily.row)
    (w : world Empty_set Daily.email_html) :
  sendEmail_error h = None →
  ∃ w' m,
    Daily.main h date locs rows w = (Ok tt, w')
    ∧ sheet w' = sheet w
    ∧ outbox w' = outbox w ++ [m]
    ∧ to m = Daily.EMAIL_RECIPIENT
    ∧ subject m = Daily.EMAIL_SUBJECT
    ∧ Daily.html_date (htmlBody m) = date
    ∧ if existsb unreadable rows then
        length (logs w') = S (length (logs w))
        ∧ Daily.html_rows (htmlBody m) = []
        ∧ Daily.html_total_spend (htmlBody m) = zero
        ∧ Daily.cell_spend (Daily.html_total_row (htmlBody m)) = zero
      else
        logs w' = logs w
        ∧ ∃ rep, Daily.getCountryData_try locs rows = Ok rep
            ∧ htmlBody m = Daily.generateEmailHtml rep date
            ∧ Daily.cell_label <$> Daily.html_rows (htmlBody m)
              = (Daily.name ∘ Daily.stat) <$> Daily.countries rep.
Proof.
  intros Hmail. unfold Daily.main, mbind, M_bind, bind.
  pose proof (contributions_unreadable (Daily.locationMap locs) rows) as Hu.
  rewrite daily_run. pose proof (daily_try_spec locs rows) as Htry.
  destruct (contributions _ rows) as [cs|e]; cbn in Htry; rewrite Htry;
    rewrite sendEmailReport_run, Hmail.
  - rewrite Hu. eexists _, _. split; [reflexivity|]. cbn [logs sheet outbox to subject htmlBody].
    split_and!; try done.
    eexists. split; [reflexivity|]. cbn [htmlBody]. split; [reflexivity|].
    cbn [Daily.generateEmailHtml Daily.html_rows Daily.countries].
    rewrite <- list_fmap_compose. done.
  - destruct Hu as [-> _].
    eexists _, _. split; [reflexivity|]. cbn [logs sheet outbox to subject htmlBody].
    split_and!; try done. by rewrite length_app, Nat.add_1_r.
Qed.

Lemma X4_witness :
  let bad := {| Daily.CriteriaId := "2250"; Daily.Clicks := None;
                Daily.Impressions := Some "10"; Daily.Cost := Some "2.00";
                Daily.Conversions := Some "0" |} in
  let h := {| sendEmail_error := None; openByUrl_error := None |} in
  let w := {| logs := []; sheet := []; outbox := [] |} in
  ∃ w' m,
    Daily.main h "2024-05-01" [] [bad] w = (Ok tt, w')
    ∧ outbox w' = [m]
    ∧ Daily.html_rows (htmlBody m) = []
    ∧ Daily.html_total_spend (htmlBody m) = zero.
Proof.
  intros bad h w.
  destruct (X4_daily_mail_is_sent_whatever_the_data h "2024-05-01" [] [bad] w eq_refl)
    as (w' & m & Hrun & _ & Hout & _ & _ & _ & Hbody).
  exists w', m. cbn in Hbody. destruct Hbody as (_ & Hrows & Htot & _).
  by split_and!.
Defined.

(** X5.  [formatAmount] prints a finite amount below 10^21 with its sign,
    the digits of its whole part, a point and exactly two decimals, and the
    decimal number that the text denotes differs from the amount by at most
    half a cent.  Read back with [parseFloat] the text is rounded to the
    format once more, which can add to the difference: 0.125 is printed as
    0.13, and the number of the format nearest to 0.13 is more than half a
    cent above 0.125.  An amount that is not finite is printed as the text
    NaN, Infinity or -Infinity, and so is the percentage of a ratio that is
    not finite. *)
Theorem X5_amounts_are_printed_to_the_cent (x : num) :
  match x with
  | Fin q =>
      if Qc_ltb (if Qc_ltb q 0 then - q else q)%Qc (Qc_of_Z (10 ^ 21)) then
        ∃ s ip d1 d2,
          Daily.formatAmount x = Some s
          ∧ String.list_ascii_of_string s
            = String.list_ascii_of_string (if Qc_ltb q 0 then "-" else "")
              ++ ip ++ ["."%char; d1; d2]
          ∧ ip ≠ []
          ∧ Forall (λ c, is_digit c = true) (ip ++ [d1; d2])
          ∧ le (abs (sub (Fin (Q2Qc ((if Qc_ltb q 0 then -1 else 1)
                                      * digits_value 0 (ip ++ [d1; d2]) # 100))) x))
               (Fin (Q2Qc (1 # 200)))
      else Daily.formatAmount x = None
  | NaN => Daily.formatAmount x = Some "NaN" ∧ Daily64.formatPercentage x = Some "NaN"
  | PInf =>
      Daily.formatAmount x = Some "Infinity"
      ∧ Daily64.formatPercentage x = Some "Infinity"
  | NInf =>
      Daily.formatAmount x = Some "-Infinity"
      ∧ Daily64.formatPercentage x = Some "-Infinity"
  end
  ∧ Daily.formatAmount (Fin (Q2Qc (1 # 8))) = Some "0.13"
  ∧ gt (abs (sub (F64.parseFloat "0.13") (Fin (Q2Qc (1 # 8))))) (Fin (Q2Qc (1 # 200)))
    = true.
Proof.
  split; [|split; vm_compute; reflexivity].
  destruct x as [q| | |]; [|by split..].
  destruct (Qc_ltb (if Qc_ltb q 0 then - q else q)%Qc (Qc_of_Z (10 ^ 21))) eqn:Ha.
  - destruct (toFixed_fin 1 q Ha) as (ip & fp & Hs & Hip & Hdip & Hdfp & Hlen & _).
    destruct (toFixed_reads_back 1 q Ha) as (s & Hs' & Hback).
    destruct fp as [|d1 [|d2 [|]]]; try done.
    exists s, ip, d1, d2. unfold Daily.formatAmount. split; [done|].
    rewrite Hs in Hs'. injection Hs' as <-.
    rewrite String.list_ascii_of_string_of_list_ascii.
    rewrite (parseFloat_decimal (Qc_ltb q 0)) in Hback by done.
    split_and!; [done | done | by apply Forall_app | exact Hback].
  - unfold Daily.formatAmount, toFixed. by rewrite Ha.
Qed.

(** ** The labels of both country reports *)


(** ** The dashboard exporter *)

(** X7.  What the country tab holds, for a report whose criterion ids and
    labels are not names of members of Object.prototype.  The tab lists each
    country label of the report once, and each of the six counters of a line
    is the sum that the loop computes over the rows of the report filed under
    the label, in their order, every addition rounded (a cell that is missing
    or cannot be read adding 0); the five ratios of the line are those of its
    counters. *)
Theorem X7_country_tab_line_sums_its_rows
    (names : list Dashboard.nameRow) (report : list Dashboard.geoRow) :
  Spec64.ordinary names report →
  let tab := Dashboard64.exportTopCountriesData names report in
  NoDup (Dashboard.col_country <$> tab)
  ∧ (∀ k, k ∈ Dashboard.col_country <$> tab ↔ k ∈ label_of names <$> report)
  ∧ Forall (λ x,
      let k := Dashboard.col_country x in
      Dashboard.col_clicks x = Spec64.key_fsum (label_of names) Spec64.clicks_of k report
      ∧ Dashboard.col_impressions x
        = Spec64.key_fsum (label_of names) Spec64.impressions_of k report
      ∧ Dashboard.col_cost x = Spec64.key_fsum (label_of names) Spec64.cost_of k report
      ∧ Dashboard.col_convValue x
        = Spec64.key_fsum (label_of names) Spec64.convValue_of k report
      ∧ Dashboard.col_conversions x
        = Spec64.key_fsum (label_of names) Spec64.conversions_of k report
      ∧ Dashboard.col_allConversions x
        = Spec64.key_fsum (label_of names) Spec64.allConversions_of k report
      ∧ x = Dashboard64.to_row (k, Spec64.dashboard_bucket names report k)) tab.
Proof.
  intros _ tab. unfold tab.
  assert (Dashboard.col_country
            <$> ((λ k, Dashboard64.to_row (k, Spec64.dashboard_bucket names report k))
                   <$> first_occ (label_of names <$> report))
          = first_occ (label_of names <$> report)) as Hnames.
  { rewrite <- list_fmap_compose. rewrite <- (list_fmap_id (first_occ _)) at 2.
    by apply list_fmap_ext. }
  split_and!.
  - rewrite dashboard64_rows_perm, Hnames. apply first_occ_NoDup.
  - intros k. by rewrite dashboard64_rows_perm, Hnames, first_occ_elem.
  - rewrite dashboard64_rows_perm. apply Forall_fmap, Forall_forall. by intros k _.
Qed.

Lemma X7_witness :
  let row id cost := {| Dashboard.country_criterion_id := id;
                        Dashboard.m_clicks := Some "4";
                        Dashboard.m_impressions := Some "90";
                        Dashboard.m_cost_micros := Some cost;
                        Dashboard.m_conversions_value := Some "12.5";
                        Dashboard.m_conversions := None;
                        Dashboard.m_all_conversions := Some "2" |} in
  let names := [ {| Dashboard.geo_id := "2840"; Dashboard.geo_name := "United States" |} ] in
  let report := [row "2840" "100000"; row "2250" "1000000"; row "2840" "200000"] in
  NoDup (Dashboard.col_country <$> Dashboard64.exportTopCountriesData names report)
  ∧ Forall (λ x, Dashboard.col_cost x
                 = Spec64.key_fsum (label_of names) Spec64.cost_of
                     (Dashboard.col_country x) report)
      (Dashboard64.exportTopCountriesData names report).
Proof.
  intros row names report.
  destruct (X7_country_tab_line_sums_its_rows names report) as (Hnd & _ & Hall).
  - compute_done.
  - split; [exact Hnd|]. eapply Forall_impl; [exact Hall|].
    intros x Hx. cbv zeta in Hx. by destruct Hx as (_ & _ & ? & _).
Defined.

(** X8.  The country tab and the order of the rows, for a report whose
    criterion ids and labels are not names of members of Object.prototype.
    When the rows of the report are read in another order the same labels
    are written, and when the clicks (the impressions) of the rows are whole
    numbers whose sizes add up to [2^53] at most, every label has the same
    clicks (impressions).  The cost is not the same: every addition is
    rounded, and the rows 0.1, 0.2, 0.3 of one country give the cost
    0.6000000000000001, read from the last to the first the cost 0.6. *)
Theorem X8_country_tab_counts_do_not_depend_on_the_order
    (names : list Dashboard.nameRow) (report report' : list Dashboard.geoRow) :
  (Spec64.ordinary names report → report ≡ₚ report' →
   let tab := Dashboard64.exportTopCountriesData names report in
   let tab' := Dashboard64.exportTopCountriesData names report' in
   Dashboard.col_country <$> tab ≡ₚ Dashboard.col_country <$> tab'
   ∧ (Spec64.small_counts (Spec64.clicks_of <$> report) = true →
      (λ x, (Dashboard.col_country x, Dashboard.col_clicks x)) <$> tab
      ≡ₚ (λ x, (Dashboard.col_country x, Dashboard.col_clicks x)) <$> tab')
   ∧ (Spec64.small_counts (Spec64.impressions_of <$> report) = true →
      (λ x, (Dashboard.col_country x, Dashboard.col_impressions x)) <$> tab
      ≡ₚ (λ x, (Dashboard.col_country x, Dashboard.col_impressions x)) <$> tab'))
  ∧ (let row c := {| Dashboard.country_criterion_id := "2840";
                     Dashboard.m_clicks := Some "1";
                     Dashboard.m_impressions := Some "10";
                     Dashboard.m_cost_micros := Some c;
                     Dashboard.m_conversions_value := Some "0";
                     Dashboard.m_conversions := Some "0";
                     Dashboard.m_all_conversions := Some "0" |} in
     Dashboard.col_cost
       <$> Dashboard64.exportTopCountriesData [] [row "100000"; row "200000"; row "300000"]
     = [F64.parseFloat "0.6000000000000001"]
     ∧ Dashboard.col_cost
         <$> Dashboard64.exportTopCountriesData [] [row "300000"; row "200000"; row "100000"]
       = [F64.parseFloat "0.6"]
     ∧ F64.parseFloat "0.6000000000000001" ≠ F64.parseFloat "0.6").
Proof.
  split; [|split_and!; compute_done].
  intros _ Hp tab tab'. unfold tab, tab'. rewrite !dashboard64_rows_perm.
  rewrite <- !list_fmap_compose. split_and!.
  - change (Dashboard.col_country
              ∘ (λ k, Dashboard64.to_row (k, Spec64.dashboard_bucket names report k)))
      with (λ k : string, k).
    change (Dashboard.col_country
              ∘ (λ k, Dashboard64.to_row (k, Spec64.dashboard_bucket names report' k)))
      with (λ k : string, k).
    rewrite !list_fmap_id. by apply first_occ_perm, fmap_Permutation.
  - intros Hs. by apply (keyed_column_perm (label_of names) Spec64.clicks_of).
  - intros Hs. by apply (keyed_column_perm (label_of names) Spec64.impressions_of).
Qed.

Lemma X8_witness :
  let row id cl := {| Dashboard.country_criterion_id := id;
                      Dashboard.m_clicks := Some cl;
                      Dashboard.m_impressions := Some "90";
                      Dashboard.m_cost_micros := Some "1500000";
                      Dashboard.m_conversions_value := Some "12.5";
                      Dashboard.m_conversions := None;
                      Dashboard.m_all_conversions := Some "2" |} in
  let a := row "2840" "4" in
  let b := row "2250" "7" in
  (λ x, (Dashboard.col_country x, Dashboard.col_clicks x))
    <$> Dashboard64.exportTopCountriesData [] [a; b; a]
  ≡ₚ (λ x, (Dashboard.col_country x, Dashboard.col_clicks x))
       <$> Dashboard64.exportTopCountriesData [] [b; a; a].
Proof.
  intros row a b.
  destruct (X8_country_tab_counts_do_not_depend_on_the_order [] [a; b; a] [b; a; a])
    as [H _].
  assert (Spec64.ordinary [] [a; b; a]) as Hord by compute_done.
  destruct (H Hord (perm_swap b a [a])) as (_ & Hcl & _).
  apply Hcl. vm_compute. reflexivity.
Defined.

(** X9.  In the country tab a line whose counters are finite has no cell
    that is NaN: each of its five ratios is a number, for a report whose
    criterion ids and labels are not names of members of Object.prototype.  A
    counter that is not finite can make a ratio NaN: a count of 310 digits
    reads as Infinity, and a line with such clicks and impressions has the
    CTR NaN. *)
Theorem X9_country_tab_ratios_are_numbers
    (names : list Dashboard.nameRow) (report : list Dashboard.geoRow) :
  (Spec64.ordinary names report →
   Forall (λ x,
     is_fin (Dashboard.col_clicks x) = true →
     is_fin (Dashboard.col_impressions x) = true →
     is_fin (Dashboard.col_cost x) = true →
     is_fin (Dashboard.col_convValue x) = true →
     is_fin (Dashboard.col_conversions x) = true →
     is_nan (Dashboard.col_ctr x) = false
     ∧ is_nan (Dashboard.col_avgCpc x) = false
     ∧ is_nan (Dashboard.col_roas x) = false
     ∧ is_nan (Dashboard.col_costPerConv x) = false
     ∧ is_nan (Dashboard.col_convRate x) = false)
     (Dashboard64.exportTopCountriesData names report))
  ∧ (let nines := String.string_of_list_ascii (replicate 310 "9"%char) in
     let row := {| Dashboard.country_criterion_id := "2840";
                   Dashboard.m_clicks := Some nines;
                   Dashboard.m_impressions := Some nines;
                   Dashboard.m_cost_micros := Some "1000000";
                   Dashboard.m_conversions_value := Some "0";
                   Dashboard.m_conversions := Some "0";
                   Dashboard.m_all_conversions := Some "0" |} in
     (λ x, (Dashboard.col_clicks x, Dashboard.col_impressions x, Dashboard.col_ctr x))
       <$> Dashboard64.exportTopCountriesData [] [row]
     = [(PInf, PInf, NaN)]).
Proof.
  split; [|vm_compute; reflexivity].
  intros _. rewrite dashboard64_rows_perm. apply Forall_fmap, Forall_forall.
  intros k _. cbn. intros Hcl Him Hco Hcv Hcn.
  split_and!; by apply guarded_fratio_not_nan.
Qed.

Lemma X9_witness :
  let names := [ {| Dashboard.geo_id := "2840"; Dashboard.geo_name := "United States" |} ] in
  let row id cl := {| Dashboard.country_criterion_id := id;
                      Dashboard.m_clicks := Some cl;
                      Dashboard.m_impressions := Some "90";
                      Dashboard.m_cost_micros := Some "1500000";
                      Dashboard.m_conversions_value := Some "12.5";
                      Dashboard.m_conversions := None;
                      Dashboard.m_all_conversions := Some "2" |} in
  let report := [row "2840" "4"; row "2250" "0"; row "2840" "3"] in
  Forall (λ x, is_nan (Dashboard.col_ctr x) = false
               ∧ is_nan (Dashboard.col_costPerConv x) = false)
    (Dashboard64.exportTopCountriesData names report).
Proof.
  intros names row report.
  destruct (X9_country_tab_ratios_are_numbers names report) as [Hall _].
  assert (Spec64.ordinary names report) as Hord by compute_done.
  specialize (Hall Hord).
  assert (Forall (λ x, is_fin (Dashboard.col_clicks x) = true
                       ∧ is_fin (Dashboard.col_impressions x) = true
                       ∧ is_fin (Dashboard.col_cost x) = true
                       ∧ is_fin (Dashboard.col_convValue x) = true
                       ∧ is_fin (Dashboard.col_conversions x) = true)
            (Dashboard64.exportTopCountriesData names report)) as Hfin by compute_done.
  rewrite Forall_forall in Hall, Hfin. apply Forall_forall. intros x Hx.
  destruct (Hfin x Hx) as (H1 & H2 & H3 & H4 & H5).
  destruct (Hall x Hx H1 H2 H3 H4 H5) as (? & _ & _ & ? & _). done.
Defined.


(** X11.  The run of [main] of the dashboard exporter.  When the export
    steps succeed, [main] returns normally and its last log line says that
    the export completed, whether the completion mail was sent, was refused
    by the mail facility, or was not asked for; at most one mail is handed
    over, and the spreadsheet is as the export steps left it.  When an
    export step raises an error, [main] logs it and raises the same error
    again, and no mail is handed over. *)
Theorem X11_dashboard_main_outcome
    (S : Type) (h : host) (cfg : Dashboard.config)
    (exports : M S (string * string) Dashboard.completion)
    (w : world S (string * string)) :
  match exports w with
  | (Ok c, w1) =>
      ∃ w', Dashboard.main h cfg exports w = (Ok tt, w')
        ∧ last (logs w') = Some "Export completed successfully!"
        ∧ sheet w' = sheet w1
        ∧ (outbox w' = outbox w1
           ∨ (Dashboard.SEND_EMAIL_ON_COMPLETE cfg = true
              ∧ sendEmail_error h = None
              ∧ outbox w' = outbox w1 ++
                  [ {| to := Dashboard.EMAIL_RECIPIENTS cfg;
                       subject := Dashboard.c_subject c;
                       htmlBody := (Dashboard.c_plainTextBody c,
                                    Dashboard.c_htmlBody c) |} ]))
  | (Throw e, w1) =>
      Dashboard.main h cfg exports w
      = (Throw e, {| logs := logs w1 ++ ["Error in main function: " +:+ e];
                     sheet := sheet w1; outbox := outbox w1 |})
  end.
Proof.
  unfold Dashboard.main, try_catch, mbind, M_bind, bind.
  destruct (exports w) as [[c|e] w1]; [|reflexivity].
  destruct (Dashboard.SEND_EMAIL_ON_COMPLETE cfg) eqn:Hsend.
  - unfold Dashboard.sendCompletionEmail.
    destruct (_ || _ || _).
    + unfold log. cbn. eexists. split; [reflexivity|]. cbn [logs sheet outbox].
      rewrite last_snoc. split_and!; [done | done | by left].
    + unfold try_catch, mbind, M_bind, bind, sendEmail, log.
      destruct (sendEmail_error h) as [e|] eqn:Hmail; cbn [logs sheet outbox].
      * eexists. split; [reflexivity|]. cbn [logs sheet outbox].
        rewrite last_snoc. split_and!; [done | done | by left].
      * eexists. split; [reflexivity|]. cbn [logs sheet outbox].
        rewrite last_snoc. split_and!; [done | done | by right].
  - unfold mret, M_ret, ret, log. eexists. split; [reflexivity|].
    cbn [logs sheet outbox]. rewrite last_snoc. split_and!; [done | done | by left].
Qed.

(** X12.  [sendCompletionEmail] always returns normally after exactly one
    log line and leaves the spreadsheet alone.  It hands a mail over exactly
    when the configured recipients are not empty, not blank and not the
    address of the template, and the mail facility accepts the mail: no mail
    ever goes to a blank address or to your-email@example.com. *)
Theorem X12_completion_mail_needs_a_set_recipient
    (S : Type) (h : host) (cfg : Dashboard.config) (c : Dashboard.completion)
    (w : world S (string * string)) :
  let r := Dashboard.EMAIL_RECIPIENTS cfg in
  ∃ w' line,
    Dashboard.sendCompletionEmail h cfg c w = (Ok tt, w')
    ∧ logs w' = logs w ++ [line]
    ∧ sheet w' = sheet w
    ∧ ((trim r ≠ "" ∧ r ≠ "your-email@example.com" ∧ sendEmail_error h = None
        ∧ outbox w' = outbox w ++
            [ {| to := r; subject := Dashboard.c_subject c;
                 htmlBody := (Dashboard.c_plainTextBody c, Dashboard.c_htmlBody c) |} ]
        ∧ line = "Completion email sent to " +:+ r)
       ∨ ((trim r = "" ∨ r = "your-email@example.com" ∨ is_Some (sendEmail_error h))
          ∧ outbox w' = outbox w)).
Proof.
  intros r. unfold Dashboard.sendCompletionEmail. fold r.
  destruct (decide (r = "")) as [Hr|Hr].
  { rewrite (bool_decide_eq_true_2 (r = "")) by done. cbn [orb]. unfold log.
    eexists _, _. split; [reflexivity|]. cbn [logs sheet outbox].
    split_and!; [done | done |]. right. split; [|done]. left. by rewrite Hr. }
  rewrite (bool_decide_eq_false_2 (r = "")) by done. cbn [orb].
  destruct (decide (trim r = "")) as [Ht|Ht].
  { rewrite (bool_decide_eq_true_2 (trim r = "")) by done. cbn [orb]. unfold log.
    eexists _, _. split; [reflexivity|]. cbn [logs sheet outbox].
    split_and!; [done | done |]. right. split; [by left | done]. }
  rewrite (bool_decide_eq_false_2 (trim r = "")) by done. cbn [orb].
  destruct (decide (r = "your-email@example.com")) as [Hp|Hp].
  { rewrite (bool_decide_eq_true_2 _ Hp). unfold log.
    eexists _, _. split; [reflexivity|]. cbn [logs sheet outbox].
    split_and!; [done | done |]. right. split; [by right; left | done]. }
  rewrite (bool_decide_eq_false_2 _ Hp).
  unfold try_catch, mbind, M_bind, bind, sendEmail, log.
  destruct (sendEmail_error h) as [e|] eqn:Hmail; cbn [logs sheet outbox].
  - eexists _, _. split; [reflexivity|]. cbn [logs sheet outbox].
    split_and!; [done | done |]. right. split; [|done]. right; right. by eexists.
  - eexists _, _. split; [reflexivity|]. cbn [logs sheet outbox].
    split_and!; [done | done |]. by left.
Qed.

(** X13.  The completion mail prints the change between two periods twice,
    in its HTML body and in its plain-text body.  For finite numbers that are
    not negative (as are the counts, and the costs that are compared) the two
    renderings agree: both read (New) exactly when the prior number is 0 and
    the current one is greater; when the two numbers are equal the HTML has
    no arrow, the neutral colour and a percentage of 0.0, and the text is
    0 (0.0%); otherwise they show the same size of change and the same
    percentage, with an upward arrow and a plus sign for an increase, a
    downward arrow and a minus sign for a decrease.  An increase of a cost is
    red and an increase of a count is green. *)
Theorem X13_change_is_rendered_alike_in_html_and_text
    (toLocaleString : num → string) (current prior : num) (isCurrency : bool) :
  is_fin current = true → is_fin prior = true →
  gt zero current = false → gt zero prior = false →
  match Dashboard.getChangeHtml toLocaleString current prior isCurrency,
        Dashboard.getChangePlainText toLocaleString current prior isCurrency with
  | Dashboard.NewBadge, Dashboard.NewText =>
      prior = zero ∧ gt current zero = true
  | Dashboard.ChangeSpan color a changeStr percent, Dashboard.NoChangeText =>
      current = prior ∧ color = "#333" ∧ a = Dashboard.NoArrow
      ∧ percent = Some "0.0"
  | Dashboard.ChangeSpan color a changeStr percent,
    Dashboard.ChangeText sign changeStr' percent' =>
      changeStr = changeStr' ∧ percent = percent'
      ∧ gt prior zero = true
      ∧ ((gt current prior = true ∧ a = Dashboard.UpArrow ∧ sign = "+"
          ∧ color = if isCurrency then "#c0392b" else "#27ae60")
         ∨ (gt prior current = true ∧ a = Dashboard.DownArrow ∧ sign = "-"
            ∧ color = if isCurrency then "#27ae60" else "#c0392b"))
  | _, _ => False
  end.
Proof.
  intros Hc Hp Hc0 Hp0.
  assert (toFixed 1 (mul zero (of_Z 100)) = Some "0.0") as Hzero by (vm_compute; done).
  unfold Dashboard.getChangeHtml, Dashboard.getChangePlainText.
  rewrite (strict_eq_fin prior zero Hp).
  rewrite (strict_eq_fin (sub current prior) zero) by (by apply sub_fin).
  rewrite gt_sub_zero, ge_sub_zero by done.
  destruct (nonneg_zero_or_pos prior Hp Hp0) as [->|Hpos].
  - (* no prior number *)
    rewrite bool_decide_eq_true_2 by done. cbn [andb].
    destruct (nonneg_zero_or_pos current Hc Hc0) as [->|Hcpos].
    + rewrite gt_irrefl. rewrite bool_decide_eq_true_2 by (by apply sub_fin_zero).
      by rewrite Hzero.
    + by rewrite Hcpos.
  - rewrite bool_decide_eq_false_2; [|intros ->; by rewrite gt_irrefl in Hpos].
    cbn [andb]. rewrite Hpos.
    destruct (decide (current = prior)) as [->|Hne].
    + rewrite bool_decide_eq_true_2 by (by apply sub_fin_zero).
      split_and!; try done.
      rewrite (proj2 (sub_fin_zero prior prior Hp Hp) eq_refl).
      by rewrite div_zero_pos.
    + rewrite bool_decide_eq_false_2
        by (intros Hz; apply Hne; symmetry; by apply (sub_fin_zero prior current)).
      destruct (gt current prior) eqn:Hgt.
      * rewrite (gt_asym _ _ Hgt). cbn [negb]. split_and!; try done. left.
        by destruct isCurrency.
      * assert (gt prior current = true) as Hlt by (by apply gt_total_fin).
        rewrite Hlt. cbn [negb]. split_and!; try done. right.
        by destruct isCurrency.
Qed.

Lemma X13_witness :
  let tls (x : num) := "" in
  match Dashboard.getChangeHtml tls (of_Z 15) (of_Z 12) true,
        Dashboard.getChangePlainText tls (of_Z 15) (of_Z 12) true with
  | Dashboard.NewBadge, Dashboard.NewText =>
      of_Z 12 = zero ∧ gt (of_Z 15) zero = true
  | Dashboard.ChangeSpan color a changeStr percent, Dashboard.NoChangeText =>
      of_Z 15 = of_Z 12 ∧ color = "#333" ∧ a = Dashboard.NoArrow
      ∧ percent = Some "0.0"
  | Dashboard.ChangeSpan color a changeStr percent,
    Dashboard.ChangeText sign changeStr' percent' =>
      changeStr = changeStr' ∧ percent = percent'
      ∧ gt (of_Z 12) zero = true
      ∧ ((gt (of_Z 15) (of_Z 12) = true ∧ a = Dashboard.UpArrow ∧ sign = "+"
          ∧ color = "#c0392b")
         ∨ (gt (of_Z 12) (of_Z 15) = true ∧ a = Dashboard.DownArrow ∧ sign = "-"
            ∧ color = "#27ae60"))
  | _, _ => False
  end.
Proof.
  intros tls.
  apply (X13_change_is_rendered_alike_in_html_and_text tls (of_Z 15) (of_Z 12) true);
    vm_compute; reflexivity.
Defined.

(** X14.  [formatCurrency] prints a finite amount below 10^21 as a dollar
    sign, the sign of the amount, the digits of its whole part in groups of
    three counted from the right with a comma between two groups, a point
    and two decimals; the decimals get no comma.  Whatever the amount is,
    taking the commas out gives the dollar sign and the text of [toFixed]
    again. *)
Theorem X14_currency_groups_thousands (x : num) :
  (∀ s, Dashboard.formatCurrency x = Some s →
     ∃ t, toFixed 2 x = Some t ∧ remove_commas s = "$" +:+ t)
  ∧ match x with
    | Fin q =>
        if Qc_ltb (if Qc_ltb q 0 then - q else q)%Qc (Qc_of_Z (10 ^ 21)) then
          ∃ ip d1 d2,
            ip ≠ [] ∧ Forall (λ c, is_digit c = true) (ip ++ [d1; d2])
            ∧ toFixed 2 x
              = Some (String.string_of_list_ascii
                        (String.list_ascii_of_string (if Qc_ltb q 0 then "-" else "")
                         ++ ip ++ ["."%char; d1; d2]))
            ∧ Dashboard.formatCurrency x
              = Some (String.string_of_list_ascii
                        ("$"%char
                         :: String.list_ascii_of_string (if Qc_ltb q 0 then "-" else "")
                         ++ thousands ip ++ ["."%char; d1; d2]))
        else Dashboard.formatCurrency x = None
    | NaN => Dashboard.formatCurrency x = Some "$NaN"
    | PInf => Dashboard.formatCurrency x = Some "$Infinity"
    | NInf => Dashboard.formatCurrency x = Some "$-Infinity"
    end.
Proof.
  assert (∀ q, Qc_ltb (if Qc_ltb q 0 then - q else q)%Qc (Qc_of_Z (10 ^ 21)) = true →
    ∃ ip d1 d2,
      ip ≠ [] ∧ Forall (λ c, is_digit c = true) (ip ++ [d1; d2])
      ∧ toFixed 2 (Fin q)
        = Some (String.string_of_list_ascii
                  (String.list_ascii_of_string (if Qc_ltb q 0 then "-" else "")
                   ++ ip ++ ["."%char; d1; d2]))
      ∧ Dashboard.formatCurrency (Fin q)
        = Some (String.string_of_list_ascii
                  ("$"%char
                   :: String.list_ascii_of_string (if Qc_ltb q 0 then "-" else "")
                   ++ thousands ip ++ ["."%char; d1; d2]))) as Hfin.
  { intros q Ha.
    destruct (toFixed_fin 1 q Ha) as (ip & fp & Hs & Hip & Hdip & Hdfp & Hlen & _).
    destruct fp as [|d1 [|d2 [|]]]; try done.
    exists ip, d1, d2. split_and!; [done | by apply Forall_app | done |].
    unfold Dashboard.formatCurrency. rewrite Hs. cbn [mbind option_bind].
    rewrite String.list_ascii_of_string_of_list_ascii. f_equal.
    assert (group_thousands
              (String.list_ascii_of_string (if Qc_ltb q 0 then "-" else "")
               ++ ip ++ ["."%char; d1; d2])
            = String.list_ascii_of_string (if Qc_ltb q 0 then "-" else "")
              ++ thousands ip ++ ["."%char; d1; d2]) as ->; [|done].
    destruct (Qc_ltb q 0); cbn [String.list_ascii_of_string app group_thousands].
    + change (is_digit "-") with false. cbn [andb].
      by rewrite group_thousands_digits, group_thousands_decimals.
    + by rewrite group_thousands_digits, group_thousands_decimals. }
  split.
  - intros s. unfold Dashboard.formatCurrency.
    destruct (toFixed 2 x) as [t|] eqn:Ht; [|done]. cbn [mbind option_bind].
    intros [= <-]. exists t. split; [done|].
    unfold remove_commas. rewrite <- (String.string_of_list_ascii_of_string ("$" +:+ t)).
    f_equal. rewrite !chars_app, String.list_ascii_of_string_of_list_ascii.
    rewrite filter_app, group_thousands_commas. f_equal.
    destruct x as [q| | |]; [|by injection Ht as <-..].
    unfold toFixed in Ht.
    destruct (Qc_ltb (if Qc_ltb q 0 then - q else q)%Qc (Qc_of_Z (10 ^ 21))) eqn:Ha;
      [|done].
    destruct (toFixed_fin 1 q Ha) as (ip & fp & Hs & Hip & Hdip & Hdfp & Hlen & _).
    unfold toFixed in Hs. rewrite Ha in Hs. rewrite Hs in Ht. injection Ht as <-.
    rewrite String.list_ascii_of_string_of_list_ascii.
    apply filter_no_comma. apply Forall_app. split; [by destruct (Qc_ltb q 0); repeat constructor|].
    apply Forall_app. split; [by apply digits_no_comma|].
    constructor; [done|]. by apply digits_no_comma.
  - destruct x as [q| | |]; [|done..].
    destruct (Qc_ltb (if Qc_ltb q 0 then - q else q)%Qc (Qc_of_Z (10 ^ 21))) eqn:Ha.
    + by apply Hfin.
    + unfold Dashboard.formatCurrency, toFixed. by rewrite Ha.
Qed.

(** ** The new-search-queries script *)


(** X16.  The rows that the new-queries script appends to the sheet are in
    descending order of clicks, and the new queries with the same number of
    clicks keep the order that they have in the report of yesterday. *)
Theorem X16_sheet_rows_in_descending_clicks
    (prior : list string) (rows : list NewQueries.yrow) :
  descending NewQueries.clicks (NewQueries.sortedNewData prior rows)
  ∧ ∀ v, filter (λ it, NewQueries.clicks it = v) (NewQueries.sortedNewData prior rows)
         = NewQueries.to_item
             <$> filter (λ r, NewQueries.clicks (NewQueries.to_item r) = v
                              ∧ NewQueries.query (NewQueries.to_item r)
                                  ∉ NewQueries.priorQueries prior) rows.
Proof.
  split; [apply sortedNewData_descending|].
  intros v. unfold NewQueries.sortedNewData.
  rewrite (sort_desc_stable NewQueries.clicks). unfold NewQueries.newData.
  rewrite list_filter_filter.
  induction rows as [|r rows IH]; [done|].
  rewrite fmap_cons, !filter_cons, IH.
  destruct (decide _) as [H|H]; [by rewrite fmap_cons | done].
Qed.

(** X17.  In the mail of the new queries every table holds the items of its
    campaign in the order that they have in the sheet: the sort of the items
    of a campaign (lines 820-822) finds them in order already, whatever the
    collation of the host is. *)
Theorem X17_campaign_tables_keep_the_sheet_order
    (lc : string → string → Z) (prior : list string) (rows : list NewQueries.yrow) :
  Forall (λ g : string * list NewQueries.item,
            g.2 = filter (λ it, NewQueries.campaignName it = g.1
                                ∧ gt (NewQueries.clicks it) zero = true)
                    (NewQueries.sortedNewData prior rows))
    (NewQueries.grouped lc (NewQueries.emailData prior rows)).
Proof.
  rewrite grouped_spec. apply Forall_fmap, Forall_forall. intros c _. cbn.
  rewrite (sort_desc_in_order NewQueries.clicks)
    by apply StronglySorted_filter, emailData_descending.
  unfold NewQueries.emailData. by rewrite list_filter_filter.
Qed.

(** X18.  The tables of the mail of the new queries divide the mailed
    items among the campaigns: the campaigns of the tables are distinct, no
    table is empty, the total of the clicks of every campaign is greater than
    0, and the items of all the tables together are the new queries with
    clicks, each as often as it is among them. *)
Theorem X18_mail_tables_divide_the_items
    (lc : string → string → Z) (prior : list string) (rows : list NewQueries.yrow) :
  let E : list NewQueries.item := NewQueries.emailData prior rows in
  let G : list (string * list NewQueries.item) := NewQueries.grouped lc E in
  NoDup G.*1
  ∧ Forall (λ g : string * list NewQueries.item,
              g.2 ≠ [] ∧ gt (campaign_total E g.1) zero = true) G
  ∧ mjoin G.*2 ≡ₚ E.
Proof.
  intros E G.
  assert (G.*1 ≡ₚ first_occ (NewQueries.campaignName <$> E)) as Hkeys.
  { unfold G. rewrite grouped_spec, <- list_fmap_compose. cbn.
    rewrite list_fmap_id. apply sort_perm. }
  assert (NoDup G.*1) as Hnd by (rewrite Hkeys; apply first_occ_NoDup).
  assert (Forall (λ it, gt (NewQueries.clicks it) zero = true) E) as Hpos.
  { apply Forall_forall. by intros it [_ ?]%emailData_elem. }
  split_and!.
  - done.
  - apply Forall_forall. intros [c items] Hg.
    assert (c ∈ NewQueries.campaignName <$> E) as Hc.
    { apply first_occ_elem. rewrite <- Hkeys. apply list_elem_of_fmap. by exists (c, items). }
    cbn [fst snd]. split.
    + unfold G in Hg. rewrite grouped_spec in Hg.
      apply list_elem_of_fmap in Hg as (c' & [= -> ->] & _).
      intros Hnil%sort_nil_inv.
      apply list_elem_of_fmap in Hc as (it & -> & Hit).
      assert (it ∈ filter (λ it', NewQueries.campaignName it'
                                  = NewQueries.campaignName it) E) as Hin
        by (by apply list_elem_of_filter).
      rewrite Hnil in Hin. by apply elem_of_nil in Hin.
    + by apply key_sum_positive.
  - assert (G.*2 = (λ c, filter (λ it, NewQueries.campaignName it = c) E) <$> G.*1) as ->.
    { unfold G. rewrite grouped_spec, <- !list_fmap_compose.
      apply list_fmap_ext. intros i c _. cbn.
      apply (sort_desc_in_order NewQueries.clicks).
      apply StronglySorted_filter, emailData_descending. }
    rewrite filters_by_key by done.
    apply reflexive_eq, filter_all, Forall_forall. intros it Hit.
    rewrite Hkeys. apply first_occ_elem, list_elem_of_fmap. by exists it.
Qed.

(** X19.  When SHEET_URL is set and does not contain the text
    YOUR_SPREADSHEET_ID, which is the case of the address that the script
    ships with, a run with new queries opens that address and creates no
    spreadsheet.  When the address cannot be opened the error leaves [main]
    at once: nothing is logged, written or mailed. *)
Theorem X19_set_address_is_opened_never_created
    (lc : string → string → Z) (h : host) (acct : NewQueries.account)
    (SHEET_URL RECIPIENT_EMAIL : string)
    (prior : list string) (rows : list NewQueries.yrow)
    (w : world NewQueries.sheet_op NewQueries.body) :
  NewQueries.newData prior rows ≠ [] →
  SHEET_URL ≠ "" →
  includes SHEET_URL "YOUR_SPREADSHEET_ID" = false →
  match openByUrl_error h with
  | Some e =>
      NewQueries.main lc h acct SHEET_URL RECIPIENT_EMAIL prior rows w = (Throw e, w)
  | None =>
      ∃ r w1 ops,
        NewQueries.main lc h acct SHEET_URL RECIPIENT_EMAIL prior rows w = (r, w1)
        ∧ sheet w1 = sheet w ++ NewQueries.OpenByUrl SHEET_URL :: ops
        ∧ Forall (λ op, ∀ title, op ≠ NewQueries.CreateSpreadsheet title) ops
  end.
Proof.
  intros Hne Hset Hinc. unfold NewQueries.main.
  rewrite newData_length_nonzero by done.
  rewrite (bool_decide_eq_false_2 (SHEET_URL = "")) by done. rewrite Hinc.
  cbn [orb]. unfold NewQueries.openByUrl.
  destruct (openByUrl_error h) as [e|] eqn:Hopen.
  - reflexivity.
  - unfold mbind, M_bind, mret, M_ret, bind, ret, write, log, sendEmail.
    cbn [logs sheet outbox].
    rewrite appendRows_run. cbn [logs sheet outbox].
    destruct (bool_decide (length (NewQueries.emailData prior rows) = 0));
      destruct (sendEmail_error h) as [e|]; cbn [logs sheet outbox];
      eexists _, _,
        ([NewQueries.SelectSheet _; NewQueries.ClearContents; NewQueries.AppendHeader]
         ++ (NewQueries.AppendRow <$> NewQueries.sortedNewData prior rows)
         ++ [NewQueries.AutoResizeColumns; NewQueries.SetFrozenRows]);
      (split; [reflexivity|]); cbn [sheet];
      (split; [by rewrite <- !app_assoc|]);
      apply Forall_forall; intros op Hop title ->;
      rewrite !elem_of_app, !elem_of_cons, list_elem_of_fmap in Hop;
      destruct Hop as [[|[|[|Hop]]]|[(it & ? & _)|[|[|Hop]]]];
      try done; by apply elem_of_nil in Hop.
Qed.

Lemma X19_witness :
  let row := {| NewQueries.search_term := "blue hats";
                NewQueries.m_impressions := Some "10";
                NewQueries.m_clicks := Some "1";
                NewQueries.m_cost_micros := Some "250000";
                NewQueries.campaign_id := "1";
                NewQueries.campaign_name := "Brand";
                NewQueries.ad_group_id := "2";
                NewQueries.ad_group_name := "Hats" |} in
  let acct := {| NewQueries.accountName := "Acme"; NewQueries.accountId := "123-456-7890";
                 NewQueries.yesterdayStr := "2024-05-01";
                 NewQueries.createdUrl := "https://sheets.example/new" |} in
  let h := {| sendEmail_error := None;
              openByUrl_error := Some "Exception: Invalid argument: url" |} in
  let w := {| logs := []; sheet := []; outbox := [] |} in
  NewQueries.main code_compare h acct NewQueries.SHEET_URL_shipped "me@example.com"
    ["red shoes"] [row] w
  = (Throw "Exception: Invalid argument: url", w).
Proof.
  intros row acct h w.
  apply (X19_set_address_is_opened_never_created code_compare h acct
           NewQueries.SHEET_URL_shipped "me@example.com" ["red shoes"] [row] w).
  - vm_compute. discriminate.
  - discriminate.
  - reflexivity.
Defined.
